(** * ron-memory-allocator: the variable-size and the fixed-size allocator

    A shallow embedding of [variable_size_allocatoron.c] and
    [fixed_size_allocatoron.c] over a flat, byte-addressed memory, the
    properties of the two allocators that the specification states, and
    further properties that the code of the two allocators has.

    Modelling conventions
    - A pointer is its address, a [Z]; [NULL] is [0].  Pointer arithmetic is
      addition on addresses; an address computation that would leave the
      64-bit address space, which C leaves undefined, is not modelled.
    - [size_t] is 64 bits wide and unsigned: sums and differences of sizes
      wrap modulo [2^64] ([size_add], [size_sub]).
    - Memory is a total map from addresses to bytes.  Multi-byte objects are
      little-endian.  The layout is the LP64 one: [size_t] and pointers take
      8 bytes, [int] takes 4, so that [sizeof(MemBlock) = 32] with [size] at
      offset 0, [used] at 8, [prev] at 16, [next] at 24, and
      [sizeof(FreeBlock) = 16] with [used] at 0 and [next] at 8.  The code
      reads and writes headers past the end of [memory_pool]; these accesses
      go to the bytes that follow the array.
    - The address of [memory_pool] is a parameter of the development.
    - [printf] appends a [message] to the state's output.
    - The [while] loops that follow [next] links take a fuel argument; [None]
      means the fuel ran out before the loop ended.
    - Each source file comes in two listings.  The two listings of the
      variable-size allocator differ in one store ([expand_marks_used]);
      those of the fixed-size allocator differ in their constants, which are
      parameters here, and in [fs_malloc] ([fs_malloc_early]). *)

From Stdlib Require Import ZArith List Lia Bool Permutation.
Import ListNotations.
Local Open Scope Z_scope.

(** ** Byte-addressed memory *)

Definition memory := Z -> Z.

Definition NULL : Z := 0.

Fixpoint load (n : nat) (m : memory) (a : Z) : Z :=
  match n with
  | O => 0
  | S k => m a mod 256 + 256 * load k m (a + 1)
  end.

Fixpoint store (n : nat) (m : memory) (a v : Z) : memory :=
  match n with
  | O => m
  | S k => store k (fun x => if x =? a then v mod 256 else m x) (a + 1) (v / 256)
  end.

(** [memcpy(dst, src, n)] for regions that do not overlap. *)
Definition memcpy (m : memory) (dst src n : Z) : memory :=
  fun x => if (dst <=? x) && (x <? dst + n) then m (src + (x - dst)) else m x.

Definition SIZE_MODULUS : Z := 2 ^ 64.

Definition size_add (a b : Z) : Z := (a + b) mod SIZE_MODULUS.
Definition size_sub (a b : Z) : Z := (a - b) mod SIZE_MODULUS.

(** What the program prints. *)
Inductive message : Type :=
| Initializing_Allocator
| Out_of_memory
| Invalid_pointer
| Block_already_free
| Cannot_allocate_more_than (block_size : Z)
| Invalid_pool_size
| Block_size_must_be_aligned_to_8
| Block_size_must_be_at_least (bytes : Z).

(** ** The variable-size allocator ([variable_size_allocatoron.c]) *)

Module VS.

Definition POOL_SIZE : Z := 64 * 4.

(** [struct MemBlock { size_t size; int used; MemBlock* prev; MemBlock* next; }] *)
Definition sizeof_MemBlock : Z := 32.

Definition get_size (m : memory) (b : Z) : Z := load 8 m b.
Definition get_used (m : memory) (b : Z) : Z := load 4 m (b + 8).
Definition get_prev (m : memory) (b : Z) : Z := load 8 m (b + 16).
Definition get_next (m : memory) (b : Z) : Z := load 8 m (b + 24).

Definition set_size (m : memory) (b v : Z) : memory := store 8 m b v.
Definition set_used (m : memory) (b v : Z) : memory := store 4 m (b + 8) v.
Definition set_prev (m : memory) (b v : Z) : memory := store 8 m (b + 16) v.
Definition set_next (m : memory) (b v : Z) : memory := store 8 m (b + 24) v.

(** The program state: the bytes of memory, the global [head], and what
    has been printed so far. *)
Record state : Type := mkState {
  mem : memory;
  head : Z;
  out : list message
}.

Definition with_mem (st : state) (m : memory) : state :=
  {| mem := m; head := head st; out := out st |}.

Definition say (st : state) (msg : message) : state :=
  {| mem := mem st; head := head st; out := out st ++ [msg] |}.

(** [dump_memory]: the blocks reached from [curr], as
    [(address, size, used)]. *)
Fixpoint dump_from (fuel : nat) (m : memory) (curr : Z)
  : option (list (Z * Z * Z)) :=
  match fuel with
  | O => None
  | S f =>
      if curr =? NULL then Some []
      else
        match dump_from f m (get_next m curr) with
        | Some l => Some ((curr, get_size m curr, get_used m curr) :: l)
        | None => None
        end
  end.

Definition dump_memory (fuel : nat) (st : state) : option (list (Z * Z * Z)) :=
  dump_from fuel (mem st) (head st).

Section Allocator.

(** The address of the static array [memory_pool]. *)
Variable memory_pool : Z.

(** The listing in [part_000] stores [1] in [block->used] at the end of
    the expand-in-place path of [vs_realloc]; the other listing does
    not.  [true] selects the former. *)
Variable expand_marks_used : bool.

Definition vs_init_allocator (st : state) : state :=
  let st := say st Initializing_Allocator in
  let hd := memory_pool in
  let m := set_size (mem st) hd POOL_SIZE in
  let m := set_used m hd 0 in
  let m := set_prev m hd NULL in
  let m := set_next m hd NULL in
  {| mem := m; head := hd; out := out st |}.

(** The best-fit loop of [vs_malloc]. *)
Fixpoint find_best (fuel : nat) (m : memory) (size curr best : Z)
  : option Z :=
  match fuel with
  | O => None
  | S f =>
      if curr =? NULL then Some best
      else
        let best :=
          if (get_used m curr =? 0)
             && ((best =? NULL)
                 || ((get_size m curr <? get_size m best)
                     && (get_size m curr >=? size)))
          then curr else best in
        find_best f m size (get_next m curr) best
  end.

(** The split branch of [vs_malloc]. *)
Definition split_block (m : memory) (best size : Z) : memory :=
  let next := get_next m best in
  let m := set_next m best (best + sizeof_MemBlock + size) in
  let m := set_used m (get_next m best) 0 in
  let m := set_size m (get_next m best)
             (size_sub (size_sub (get_size m best) size) sizeof_MemBlock) in
  let m := set_prev m (get_next m best) best in
  set_next m (get_next m best) next.

Definition vs_malloc (fuel : nat) (st : state) (size : Z)
  : option (Z * state) :=
  match find_best fuel (mem st) size (head st) NULL with
  | None => None
  | Some best =>
      if (best =? NULL)
         || (best + sizeof_MemBlock + size >? memory_pool + POOL_SIZE)
      then Some (NULL, say st Out_of_memory)
      else
        let m := mem st in
        let m :=
          if get_size m best >=? size_add size sizeof_MemBlock
          then split_block m best size
          else m in
        let m := set_used m best 1 in
        let m := set_size m best size in
        Some (best + sizeof_MemBlock, with_mem st m)
  end.

(** Coalescing with the next block, in [vs_free]. *)
Definition merge_next (m : memory) (block : Z) : memory :=
  if negb (get_next m block =? NULL)
     && (get_used m (get_next m block) =? 0)
  then
    let m := set_size m block
               (size_add (get_size m block)
                  (size_add (get_size m (get_next m block)) sizeof_MemBlock)) in
    let m := set_next m block (get_next m (get_next m block)) in
    if negb (get_next m block =? NULL)
    then set_prev m (get_next m block) block
    else m
  else m.

(** Coalescing with the previous block, in [vs_free]. *)
Definition merge_prev (m : memory) (block : Z) : memory :=
  if negb (get_prev m block =? NULL)
     && (get_used m (get_prev m block) =? 0)
  then
    let m := set_size m (get_prev m block)
               (size_add (get_size m (get_prev m block))
                  (size_add (get_size m block) sizeof_MemBlock)) in
    let m := set_next m (get_prev m block) (get_next m block) in
    if negb (get_next m block =? NULL)
    then set_prev m (get_next m block) (get_prev m block)
    else m
  else m.

(** The validation of [vs_free], on the header address. *)
Definition out_of_pool (st : state) (block : Z) : bool :=
  (block <? head st) || (block >? memory_pool + POOL_SIZE).

Definition rejected (st : state) (block : Z) : bool :=
  (block =? NULL) || (get_used (mem st) block =? 0) || out_of_pool st block.

Definition vs_free (st : state) (ptr : Z) : state :=
  if ptr =? NULL then say st Invalid_pointer
  else
    let block := ptr - sizeof_MemBlock in
    if rejected st block then say st Invalid_pointer
    else
      let m := set_used (mem st) block 0 in
      let m := merge_next m block in
      let m := merge_prev m block in
      with_mem st m.

(** The remainder block that [vs_realloc] carves after [new_size] bytes
    of payload. *)
Definition carve_remainder (m : memory) (block new_size : Z) : memory :=
  let rem := block + sizeof_MemBlock + new_size in
  let m := set_size m rem
             (size_sub (size_sub (get_size m block) new_size) sizeof_MemBlock) in
  let m := set_used m rem 0 in
  let m := set_prev m rem block in
  let m := set_next m rem (get_next m block) in
  let m := if negb (get_next m rem =? NULL)
           then set_prev m (get_next m rem) rem
           else m in
  set_next m block rem.

(** The test that guards the expand-in-place path of [vs_realloc]. *)
Definition can_expand (m : memory) (block new_size : Z) : bool :=
  negb (get_next m block =? NULL)
  && (get_used m (get_next m block) =? 0)
  && (size_add (size_add (get_size m block)
                  (get_size m (get_next m block)))
        sizeof_MemBlock >=? new_size).

(** The expand-in-place path: absorb the next block, then carve. *)
Definition expand_in_place (m : memory) (block new_size : Z) : memory :=
  let excess := size_add (get_size m (get_next m block)) sizeof_MemBlock in
  let m := set_size m block (size_add (get_size m block) excess) in
  let m := set_next m block (get_next m (get_next m block)) in
  let m := if negb (get_next m block =? NULL)
           then set_prev m (get_next m block) block
           else m in
  let m := carve_remainder m block new_size in
  let m := set_size m block new_size in
  if expand_marks_used then set_used m block 1 else m.

Definition vs_realloc (fuel : nat) (st : state) (ptr new_size : Z)
  : option (Z * state) :=
  if ptr =? NULL then vs_malloc fuel st new_size
  else if new_size <=? 0 then Some (NULL, vs_free st ptr)
  else
    let block := ptr - sizeof_MemBlock in
    let m := mem st in
    if new_size <? get_size m block then
      (* shrink in place *)
      let m :=
        if size_sub (get_size m block) new_size >=? sizeof_MemBlock
        then carve_remainder m block new_size
        else m in
      let m := set_size m block new_size in
      Some (ptr, with_mem st m)
    else if can_expand m block new_size then
      Some (ptr, with_mem st (expand_in_place m block new_size))
    else
      (* fallback: allocate, copy, free *)
      match vs_malloc fuel st new_size with
      | None => None
      | Some (new_ptr, st) =>
          if new_ptr =? NULL then Some (new_ptr, st)
          else
            let m := memcpy (mem st) new_ptr ptr (get_size (mem st) block) in
            Some (new_ptr, vs_free (with_mem st m) ptr)
      end.

End Allocator.

(** ** The list of blocks *)

(** A block as [dump_memory] shows it. *)
Definition block : Type := (Z * Z * Z)%type.
Definition addr (b : block) : Z := fst (fst b).
Definition size (b : block) : Z := snd (fst b).
Definition used (b : block) : Z := snd b.
Definition payload (b : block) : Z := addr b + sizeof_MemBlock.

Arguments addr !b /.
Arguments size !b /.
Arguments used !b /.

Definition first_addr (bs : list block) (dflt : Z) : Z :=
  match bs with
  | [] => dflt
  | b :: _ => addr b
  end.

Fixpoint last_addr (bs : list block) (dflt : Z) : Z :=
  match bs with
  | [] => dflt
  | b :: rest => last_addr rest (addr b)
  end.

(** The headers of [bs] are in memory and doubly linked, entered from
    [prev] and left to [nxt]. *)
Fixpoint dllseg (m : memory) (prev : Z) (bs : list block) (nxt : Z) : Prop :=
  match bs with
  | [] => True
  | b :: rest =>
      addr b <> NULL
      /\ get_size m (addr b) = size b
      /\ get_used m (addr b) = used b
      /\ get_prev m (addr b) = prev
      /\ get_next m (addr b) = first_addr rest nxt
      /\ dllseg m (addr b) rest nxt
  end.

Definition blocks (st : state) (bs : list block) : Prop :=
  head st = first_addr bs NULL /\ dllseg (mem st) NULL bs NULL.

(** Address order without overlap, between [lo] and [hi]. *)
Fixpoint ordered (lo : Z) (bs : list block) (hi : Z) : Prop :=
  match bs with
  | [] => lo <= hi
  | b :: rest =>
      lo <= addr b /\ 0 <= size b
      /\ ordered (addr b + sizeof_MemBlock + size b) rest hi
  end.

(** Exact tiling of [lo, hi): no gap and no overlap. *)
Fixpoint tiled (lo : Z) (bs : list block) (hi : Z) : Prop :=
  match bs with
  | [] => lo = hi
  | b :: rest =>
      addr b = lo /\ 0 <= size b
      /\ tiled (addr b + sizeof_MemBlock + size b) rest hi
  end.

Fixpoint no_adjacent_free (bs : list block) : Prop :=
  match bs with
  | [] => True
  | b :: rest =>
      match rest with
      | [] => True
      | b' :: _ => ~ (used b = 0 /\ used b' = 0)
      end /\ no_adjacent_free rest
  end.

(** The four fields of the header at [a] are the same in [m'] as in [m]. *)
Definition same_header (m m' : memory) (a : Z) : Prop :=
  get_size m' a = get_size m a /\ get_used m' a = get_used m a
  /\ get_prev m' a = get_prev m a /\ get_next m' a = get_next m a.

(** The best-fit loop of [vs_malloc], on the list of blocks. *)
Fixpoint pick (req : Z) (bs : list block) (best : option block) : option block :=
  match bs with
  | [] => best
  | b :: rest =>
      pick req rest
        (if (used b =? 0)
            && match best with
               | None => true
               | Some b0 => (size b <? size b0) && (size b >=? req)
               end
         then Some b else best)
  end.

Definition addr_of (ob : option block) : Z :=
  match ob with
  | None => NULL
  | Some b => addr b
  end.

(** A block cut down to [new] bytes of payload: the rest becomes a free
    block when it has room for a header. *)
Definition resized (b : block) (new u : Z) : list block :=
  if size b >=? new + sizeof_MemBlock
  then [(addr b, new, u);
        (addr b + sizeof_MemBlock + new, size b - new - sizeof_MemBlock, 0)]
  else [(addr b, new, u)].

(** What [vs_malloc] makes of the block it selected. *)
Definition granted (b : block) (req : Z) : list block := resized b req 1.

(** Coalescing on the list of blocks: [b] absorbs a free successor ... *)
Definition absorb_next (b : block) (l2 : list block) : list block :=
  match l2 with
  | b2 :: l3 =>
      if used b2 =? 0
      then (addr b, size b + size b2 + sizeof_MemBlock, used b) :: l3
      else b :: l2
  | [] => [b]
  end.

(** ... and the last block of [l1], when free, absorbs the first of [l]. *)
Fixpoint absorb_prev (l1 : list block) (l : list block) : list block :=
  match l1 with
  | [] => l
  | b0 :: rest =>
      match rest with
      | [] =>
          match l with
          | b :: l3 =>
              if used b0 =? 0
              then (addr b0, size b0 + size b + sizeof_MemBlock, used b0) :: l3
              else b0 :: l
          | [] => [b0]
          end
      | _ :: _ => b0 :: absorb_prev rest l
      end
  end.

Definition released (l1 : list block) (b : block) (l2 : list block) : list block :=
  absorb_prev l1 (absorb_next (addr b, size b, 0) l2).

Definition is_used (b : block) : bool := negb (used b =? 0).

(** [no_adjacent_free] read from left to right: [prev_free] tells whether
    the block before [bs] is free. *)
Fixpoint naf_from (prev_free : bool) (bs : list block) : Prop :=
  match bs with
  | [] => True
  | b :: rest =>
      (prev_free = true -> used b <> 0) /\ naf_from (used b =? 0) rest
  end.

Fixpoint last_free (prev_free : bool) (bs : list block) : bool :=
  match bs with
  | [] => prev_free
  | b :: rest => last_free (used b =? 0) rest
  end.

Section Runs.
Variable memory_pool : Z.

(** A run of [vs_malloc] calls, with the pointers they return. *)
Fixpoint vs_malloc_all (fuel : nat) (st : state) (sizes : list Z)
  : option (list Z * state) :=
  match sizes with
  | [] => Some ([], st)
  | size :: rest =>
      match vs_malloc memory_pool fuel st size with
      | None => None
      | Some (ptr, st) =>
          match vs_malloc_all fuel st rest with
          | None => None
          | Some (ptrs, st) => Some (ptr :: ptrs, st)
          end
      end
  end.

(** A run of [vs_free] calls. *)
Definition vs_free_all (st : state) (ptrs : list Z) : state :=
  fold_left (vs_free memory_pool) ptrs st.
End Runs.

(** ** Calls that stay within what the code is written for *)

(** [ptr] is the payload address of a used block of the list. *)
Definition valid_handle (st : state) (ptr : Z) : Prop :=
  exists fuel bs s u,
    dump_memory fuel st = Some bs
    /\ In (ptr - sizeof_MemBlock, s, u) bs /\ u <> 0.

(** The block that [vs_malloc] granted at [ptr] was at least [req] bytes
    large, and it was split only if it was the last block of the list. *)
Definition fits (st : state) (req ptr : Z) : Prop :=
  ptr = NULL \/
  (let best := ptr - sizeof_MemBlock in
   req <= get_size (mem st) best
   /\ (req + sizeof_MemBlock <= get_size (mem st) best ->
       get_next (mem st) best = NULL)).

Section Reachable.
Variable memory_pool : Z.
Variable expand_marks_used : bool.

(** The calls of [vs_realloc]: on [NULL] as [vs_malloc]; otherwise on a
    valid handle; growing in place only when the excess has room for a
    header.  With [coalesced], a shrink does not split in front of a free
    block. *)
Definition resize_by_design (coalesced : bool) (st : state)
           (ptr new_size result : Z) : Prop :=
  if ptr =? NULL then fits st new_size result
  else
    valid_handle st ptr /\
    (if new_size <=? 0 then True
     else
       let block := ptr - sizeof_MemBlock in
       let m := mem st in
       if new_size <? get_size m block then
         coalesced = true ->
         new_size + sizeof_MemBlock <= get_size m block ->
         get_next m block <> NULL ->
         get_used m (get_next m block) <> 0
       else if can_expand m block new_size then
         new_size <= get_size m block + get_size m (get_next m block)
       else fits st new_size result).

Inductive reachable (coalesced : bool) : state -> Prop :=
| reach_init st0 :
    reachable coalesced (vs_init_allocator memory_pool st0)
| reach_malloc st fuel size ptr st' :
    reachable coalesced st ->
    0 <= size < SIZE_MODULUS ->
    vs_malloc memory_pool fuel st size = Some (ptr, st') ->
    fits st size ptr ->
    reachable coalesced st'
| reach_free st ptr :
    reachable coalesced st ->
    valid_handle st ptr ->
    reachable coalesced (vs_free memory_pool st ptr)
| reach_realloc st fuel ptr new_size result st' :
    reachable coalesced st ->
    0 <= new_size < SIZE_MODULUS ->
    vs_realloc memory_pool expand_marks_used fuel st ptr new_size
      = Some (result, st') ->
    resize_by_design coalesced st ptr new_size result ->
    reachable coalesced st'.
End Reachable.

(** Address order without overlap, as a property of the dump alone. *)
Fixpoint address_ordered (bs : list block) : Prop :=
  match bs with
  | [] => True
  | b :: rest =>
      0 <= size b
      /\ match rest with
         | [] => True
         | b' :: _ => addr b + sizeof_MemBlock + size b <= addr b'
         end
      /\ address_ordered rest
  end.

(** Every used block of [bs] ends within [limit]. *)
Definition payloads_inside (limit : Z) (bs : list block) : Prop :=
  forall b, In b bs -> used b <> 0 ->
    addr b + sizeof_MemBlock + size b <= limit.

(** [x] lies in no header of the list [bs]. *)
Definition off_headers (bs : list block) (x : Z) : Prop :=
  forall b, In b bs -> x < addr b \/ addr b + sizeof_MemBlock <= x.

(** [best] is the address of the block [ob], and memory holds its size. *)
Definition best_matches (m : memory) (best : Z) (ob : option block) : Prop :=
  match ob with
  | None => best = NULL
  | Some b => best = addr b /\ best <> NULL /\ get_size m best = size b
  end.

(** What [vs_malloc] does to memory once [best] has passed the checks. *)
Definition grant_mem (m : memory) (best req : Z) : memory :=
  set_size
    (set_used
       (if get_size m best >=? size_add req sizeof_MemBlock
        then split_block m best req else m)
       best 1)
    best req.

Section WellFormed.
Variable memory_pool : Z.

(** The list [bs] is in memory, doubly linked from [head], starts at the
    base of the pool and is in address order without overlap; no block
    ends more than a header past the pool. *)
Definition well_formed (st : state) (bs : list block) : Prop :=
  first_addr bs NULL = memory_pool
  /\ blocks st bs
  /\ ordered memory_pool bs (memory_pool + POOL_SIZE + sizeof_MemBlock).

Definition invariant (coalesced : bool) (st : state) : Prop :=
  exists bs, well_formed st bs /\ (coalesced = true -> naf_from false bs).
End WellFormed.

(** ** Example runs

    The runs below start from zeroed static storage, with the pool at
    address 4096. *)

Definition example_pool : Z := 4096.

Definition blank : state := {| mem := fun _ => 0; head := NULL; out := [] |}.

Definition fresh : state := vs_init_allocator example_pool blank.

Definition and_then {A : Type} (r : option (Z * state))
           (k : Z -> state -> option A) : option A :=
  match r with
  | Some (ptr, st) => k ptr st
  | None => None
  end.

Definition state_of (r : option (Z * state)) : state :=
  match r with
  | Some (_, st) => st
  | None => blank
  end.

(** [a = malloc(8); b = malloc(16); free(a); c = malloc(100)]: the list
    before the last call, [c], and the list after it. *)
Definition run_first_free_block_too_small
  : option (option (list block) * Z * option (list block)) :=
  and_then (vs_malloc example_pool 10 fresh 8) (fun a st =>
  and_then (vs_malloc example_pool 10 st 16) (fun b st =>
  let st := vs_free example_pool st a in
  and_then (vs_malloc example_pool 10 st 100) (fun c st' =>
  Some (dump_memory 10 st, c, dump_memory 10 st')))).

(** [p = malloc(16); realloc(p, 8)]. *)
Definition run_shrink_by_less_than_a_header : option (Z * state) :=
  and_then (vs_malloc example_pool 10 fresh 16) (fun p st =>
  vs_realloc example_pool true 10 st p 8).

(** [p = malloc(100); realloc(p, 8)]. *)
Definition run_shrink_before_free_block : option (Z * state) :=
  and_then (vs_malloc example_pool 10 fresh 100) (fun p st =>
  vs_realloc example_pool true 10 st p 8).

(** [a = malloc(64); b = malloc(8); free(a); c = malloc(8); free(b)]. *)
Definition run_release_after_split_in_the_middle : option (Z * state) :=
  and_then (vs_malloc example_pool 10 fresh 64) (fun a st =>
  and_then (vs_malloc example_pool 10 st 8) (fun b st =>
  let st := vs_free example_pool st a in
  and_then (vs_malloc example_pool 10 st 8) (fun c st =>
  Some (c, vs_free example_pool st b)))).

(** [a = malloc(16); b = malloc(16); c = malloc(8); free(b)]: the state
    in which [a] is followed by a free block of 16 bytes and then by [c]. *)
Definition before_tight_expand : option (Z * state) :=
  and_then (vs_malloc example_pool 10 fresh 16) (fun a st =>
  and_then (vs_malloc example_pool 10 st 16) (fun b st =>
  and_then (vs_malloc example_pool 10 st 8) (fun c st =>
  Some (a, vs_free example_pool st b)))).

(** ... and then [realloc(a, 64)], which takes all of the free block and
    its header. *)
Definition run_tight_expand (marks_used : bool) : option (Z * state) :=
  and_then before_tight_expand (fun a st =>
  vs_realloc example_pool marks_used 10 st a 64).

(** [a = malloc(8)], then [free] of an address 32 bytes past [a], which
    [vs_malloc] never returned. *)
Definition before_stray_free : state :=
  state_of (vs_malloc example_pool 10 fresh 8).

Definition run_stray_free : state :=
  vs_free example_pool before_stray_free (example_pool + 64).

(** [a = malloc(200); malloc(0)]. *)
Definition before_zero_size_request : state :=
  state_of (vs_malloc example_pool 10 fresh 200).

(** [a = malloc(100); realloc(a, 300)]. *)
Definition before_failed_relocation : state :=
  state_of (vs_malloc example_pool 10 fresh 100).

(** [a = malloc(16); b = malloc(16); c = malloc(8); free(b)], call by
    call. *)
Definition after_first_malloc : state :=
  state_of (vs_malloc example_pool 10 fresh 16).

Definition after_second_malloc : state :=
  state_of (vs_malloc example_pool 10 after_first_malloc 16).

Definition after_third_malloc : state :=
  state_of (vs_malloc example_pool 10 after_second_malloc 8).

Definition after_free_of_second : state :=
  vs_free example_pool after_third_malloc (example_pool + 80).

(** [a = malloc(16); b = malloc(16); realloc(a, 64)]: [a] cannot grow in
    place and moves behind [b]. *)
Definition after_relocation : state :=
  state_of (vs_realloc example_pool true 10 after_second_malloc
              (example_pool + 32) 64).

End VS.

(** ** The fixed-size allocator ([fixed_size_allocatoron.c]) *)

Module FS.

(** [struct FreeBlock { int used; FreeBlock* next; }] *)
Definition sizeof_FreeBlock : Z := 16.

Definition get_used (m : memory) (b : Z) : Z := load 4 m b.
Definition get_next (m : memory) (b : Z) : Z := load 8 m (b + 8).

Definition set_used (m : memory) (b v : Z) : memory := store 4 m b v.
Definition set_next (m : memory) (b v : Z) : memory := store 8 m (b + 8) v.

(** The program state: the bytes of memory, the global [free_list], and
    what has been printed so far. *)
Record state : Type := mkState {
  mem : memory;
  free_list : Z;
  out : list message
}.

Definition say (st : state) (msg : message) : state :=
  {| mem := mem st; free_list := free_list st; out := out st ++ [msg] |}.

Section Allocator.

(** The address of the static array [memory_pool]. *)
Variable memory_pool : Z.

(** The first listing has [BLOCK_SIZE 32] and [BLOCK_COUNT 8], the
    second [BLOCK_SIZE 16] and [BLOCK_COUNT 3]; in both [POOL_SIZE] is
    their product. *)
Variables BLOCK_SIZE BLOCK_COUNT : Z.

Definition POOL_SIZE : Z := BLOCK_SIZE * BLOCK_COUNT.

(** The [for] loop of [fs_init_allocator], [n] iterations from [i]. *)
Fixpoint link_blocks (n : nat) (i : Z) (m : memory) (curr : Z)
  : memory * Z :=
  match n with
  | O => (m, curr)
  | S k =>
      let m := set_used m curr 0 in
      let m := set_next m curr (memory_pool + BLOCK_SIZE * (i + 1)) in
      link_blocks k (i + 1) m (get_next m curr)
  end.

(** [fs_init_allocator] of the first listing, with the value it
    returns. *)
Definition fs_init_allocator (st : state) : Z * state :=
  let curr := memory_pool in
  let st := {| mem := mem st; free_list := curr; out := out st |} in
  if (POOL_SIZE <? BLOCK_SIZE) || (BLOCK_SIZE <=? 0)
     || (BLOCK_COUNT <? 0) || negb (Z.rem BLOCK_SIZE 8 =? 0)
     || (BLOCK_SIZE <=? sizeof_FreeBlock)
  then
    (1, say (say (say st Invalid_pool_size) Block_size_must_be_aligned_to_8)
          (Block_size_must_be_at_least sizeof_FreeBlock))
  else
    let '(m, curr) :=
      link_blocks (Z.to_nat (BLOCK_COUNT - 1)) 0 (mem st) curr in
    let m := set_used m curr 0 in
    let m := set_next m curr NULL in
    (0, {| mem := m; free_list := free_list st; out := out st |}).

(** [fs_malloc] of the first listing. *)
Definition fs_malloc (st : state) (size : Z) : Z * state :=
  if free_list st =? NULL then (NULL, say st Out_of_memory)
  else if size >? BLOCK_SIZE
  then (NULL, say st (Cannot_allocate_more_than BLOCK_SIZE))
  else
    let block := free_list st in
    let fl := get_next (mem st) (free_list st) in
    let m := set_used (mem st) block 1 in
    let m := set_next m block NULL in
    (block, {| mem := m; free_list := fl; out := out st |}).

(** [fs_malloc] of the second listing: it marks the block before it
    advances the head, and leaves the block's [next]. *)
Definition fs_malloc_early (st : state) (size : Z) : Z * state :=
  if free_list st =? NULL then (NULL, say st Out_of_memory)
  else if size >? BLOCK_SIZE
  then (NULL, say st (Cannot_allocate_more_than BLOCK_SIZE))
  else
    let block := free_list st in
    let m := set_used (mem st) block 1 in
    let fl := get_next m (free_list st) in
    (block, {| mem := m; free_list := fl; out := out st |}).

(** The [for] loop of the second listing's [fs_init_allocator]: it
    stores the [next] links only. *)
Fixpoint link_blocks_next (n : nat) (i : Z) (m : memory) (curr_block : Z)
  : memory * Z :=
  match n with
  | O => (m, curr_block)
  | S k =>
      let m :=
        set_next m curr_block (memory_pool + BLOCK_SIZE * (i + 1)) in
      link_blocks_next k (i + 1) m (get_next m curr_block)
  end.

(** [fs_init_allocator] of the second listing.  It returns nothing and
    starts from [free_list], which that listing initialises to
    [memory_pool]. *)
Definition fs_init_allocator_second (st : state) : state :=
  let curr_block := free_list st in
  if negb (Z.rem POOL_SIZE BLOCK_SIZE =? 0) || (POOL_SIZE <? BLOCK_SIZE)
     || (BLOCK_SIZE <=? 0) || (BLOCK_COUNT <=? 0)
     || negb (Z.rem BLOCK_SIZE 8 =? 0)
  then say (say st Invalid_pool_size) Block_size_must_be_aligned_to_8
  else
    let '(m, curr_block) :=
      link_blocks_next (Z.to_nat (BLOCK_COUNT - 1)) 0 (mem st) curr_block in
    let m := set_used m curr_block 0 in
    let m := set_next m curr_block NULL in
    {| mem := m; free_list := free_list st; out := out st |}.

(** The validation of [fs_free]. *)
Definition invalid_pointer (ptr : Z) : bool :=
  (ptr =? NULL) || (ptr <? memory_pool)
  || (ptr >=? memory_pool + POOL_SIZE)
  || negb (Z.rem (ptr - memory_pool) BLOCK_SIZE =? 0).

Definition fs_free (st : state) (ptr : Z) : state :=
  if invalid_pointer ptr then say st Invalid_pointer
  else
    let block := ptr in
    if get_used (mem st) block =? 0 then say st Block_already_free
    else
      let m := set_used (mem st) block 0 in
      let m := set_next m block (free_list st) in
      {| mem := m; free_list := block; out := out st |}.

(** A run of [n] calls [fs_malloc(size)]. *)
Fixpoint fs_malloc_times (n : nat) (st : state) (size : Z) : state :=
  match n with
  | O => st
  | S k => fs_malloc_times k (snd (fs_malloc st size)) size
  end.

(** What the specification says of a [fs_malloc]: which of the two
    errors it reports and when, that a failure returns [NULL] and
    leaves memory and the free list alone, and that a success pops the
    head of the free list, marks it used and (when [clears_next])
    clears its [next]. *)
Definition malloc_contract (clears_next : bool)
           (malloc : state -> Z -> Z * state) : Prop :=
  forall st size,
    let ptr := fst (malloc st size) in
    let st' := snd (malloc st size) in
    (out st' = out st ++ [Out_of_memory] <-> free_list st = NULL)
    /\ (out st' = out st ++ [Cannot_allocate_more_than BLOCK_SIZE]
        <-> free_list st <> NULL /\ size > BLOCK_SIZE)
    /\ (ptr = NULL <-> free_list st = NULL \/ size > BLOCK_SIZE)
    /\ (ptr = NULL -> mem st' = mem st /\ free_list st' = free_list st)
    /\ (ptr <> NULL ->
        ptr = free_list st
        /\ free_list st' = get_next (mem st) (free_list st)
        /\ get_used (mem st') ptr = 1
        /\ (clears_next = true -> get_next (mem st') ptr = NULL)
        /\ out st' = out st).

(** [dump_memory]: one row per block of the pool, as
    [(address, size, used)]. *)
Definition dump_memory (st : state) : list (Z * Z * Z) :=
  map (fun i =>
         let block := memory_pool + BLOCK_SIZE * Z.of_nat i in
         (block, BLOCK_SIZE, get_used (mem st) block))
      (seq 0 (Z.to_nat BLOCK_COUNT)).

(** A run of [n] calls [fs_malloc(size)], with the pointers they
    return. *)
Fixpoint fs_malloc_run (n : nat) (st : state) (size : Z) : list Z * state :=
  match n with
  | O => ([], st)
  | S k =>
      let '(ptr, st) := fs_malloc st size in
      let '(ptrs, st) := fs_malloc_run k st size in
      (ptr :: ptrs, st)
  end.

(** A run of [fs_free] calls. *)
Definition fs_free_all (st : state) (ptrs : list Z) : state :=
  fold_left fs_free ptrs st.

(** The blocks of the pool, by address. *)
Definition block_at (i : Z) : Z := memory_pool + BLOCK_SIZE * i.

Definition is_block (a : Z) : Prop :=
  exists i, 0 <= i < BLOCK_COUNT /\ a = block_at i.

Definition all_blocks : list Z :=
  map (fun i => block_at (Z.of_nat i)) (seq 0 (Z.to_nat BLOCK_COUNT)).

(** The [next] links from [a] run through [l] and end in [NULL]. *)
Fixpoint chain (m : memory) (a : Z) (l : list Z) : Prop :=
  match l with
  | [] => a = NULL
  | b :: rest => a = b /\ b <> NULL /\ chain m (get_next m b) rest
  end.

(** [fl] is the free list of [st]: it is linked from [free_list], holds
    no address twice and only blocks of the pool; the blocks on it have
    their [used] flag at 0, and the other blocks of the pool have it
    at 1. *)
Definition free_blocks (st : state) (fl : list Z) : Prop :=
  chain (mem st) (free_list st) fl
  /\ NoDup fl
  /\ (forall a, In a fl -> is_block a)
  /\ (forall a, is_block a ->
        (In a fl /\ get_used (mem st) a = 0)
        \/ (~ In a fl /\ get_used (mem st) a = 1)).

(** The states that calls of the allocator reach, whatever their
    arguments, once [fs_init_allocator] has returned 0. *)
Inductive reachable : state -> Prop :=
| reach_init st0 :
    fst (fs_init_allocator st0) = 0 ->
    reachable (snd (fs_init_allocator st0))
| reach_malloc st size :
    reachable st -> reachable (snd (fs_malloc st size))
| reach_free st ptr :
    reachable st -> reachable (fs_free st ptr).

End Allocator.

(** The example run: zeroed static storage, the pool at address 4096,
    the constants of the first listing, all eight blocks taken. *)
Definition blank : state :=
  {| mem := fun _ => 0; free_list := NULL; out := [] |}.

Definition exhausted : state :=
  fs_malloc_times 32 8 (snd (fs_init_allocator 4096 32 8 blank)) 8.

(** The same pool with the first two blocks taken. *)
Definition two_taken : state :=
  fs_malloc_times 32 2 (snd (fs_init_allocator 4096 32 8 blank)) 8.

(** The start of the second listing: zeroed static storage, the pool at
    address 4096, [free_list] initialised to it. *)
Definition static_start : state :=
  {| mem := fun _ => 0; free_list := 4096; out := [] |}.

End FS.

(** * Proofs *)

Section MemoryLemmas.

Lemma store_outside (n : nat) :
  forall m a v x, x < a \/ a + Z.of_nat n <= x -> store n m a v x = m x.
Proof.
  induction n as [|k IH]; intros m a v x Hx; simpl; [reflexivity|].
  rewrite IH by lia.
  destruct (Z.eqb_spec x a); [lia | reflexivity].
Qed.

Lemma load_ext (n : nat) :
  forall m m' a,
    (forall x, a <= x < a + Z.of_nat n -> m x = m' x) ->
    load n m a = load n m' a.
Proof.
  induction n as [|k IH]; intros m m' a Hagree; simpl; [reflexivity|].
  rewrite (Hagree a) by lia.
  rewrite (IH m m' (a + 1)); [reflexivity|].
  intros x Hx. apply Hagree. lia.
Qed.

Lemma load_range (n : nat) :
  forall m a, 0 <= load n m a < 256 ^ Z.of_nat n.
Proof.
  induction n as [|k IH]; intros m a.
  - simpl. lia.
  - change (load (S k) m a) with (m a mod 256 + 256 * load k m (a + 1)).
    rewrite Nat2Z.inj_succ, Z.pow_succ_r by lia.
    pose proof (IH m (a + 1)).
    pose proof (Z.mod_pos_bound (m a) 256 ltac:(lia)).
    nia.
Qed.

Lemma load_store_other (n n' : nat) m a v a' :
  a' + Z.of_nat n' <= a \/ a + Z.of_nat n <= a' ->
  load n' (store n m a v) a' = load n' m a'.
Proof.
  intros Hsep. apply load_ext. intros x Hx.
  apply store_outside. lia.
Qed.

Lemma load_store_same (n : nat) :
  forall m a v, load n (store n m a v) a = v mod 256 ^ Z.of_nat n.
Proof.
  induction n as [|k IH]; intros m a v.
  - simpl. symmetry. apply Z.mod_1_r.
  - change (load (S k) (store (S k) m a v) a)
      with (store (S k) m a v a mod 256
            + 256 * load k (store (S k) m a v) (a + 1)).
    simpl store.
    rewrite store_outside by lia.
    rewrite IH, Z.eqb_refl.
    rewrite Nat2Z.inj_succ, Z.pow_succ_r by lia.
    rewrite Z.mod_mod by lia.
    assert (Hpos : 0 < 256 ^ Z.of_nat k) by (apply Z.pow_pos_nonneg; lia).
    rewrite (Z.rem_mul_r v 256 (256 ^ Z.of_nat k)) by lia.
    reflexivity.
Qed.

Lemma memcpy_outside m dst src n x :
  x < dst \/ dst + n <= x -> memcpy m dst src n x = m x.
Proof.
  intros Hx. unfold memcpy.
  destruct (Z.leb_spec dst x), (Z.ltb_spec x (dst + n)); simpl; try reflexivity; lia.
Qed.

Lemma load_memcpy_other (n' : nat) m dst src n a' :
  a' + Z.of_nat n' <= dst \/ dst + n <= a' ->
  load n' (memcpy m dst src n) a' = load n' m a'.
Proof.
  intros Hsep. apply load_ext. intros x Hx.
  apply memcpy_outside. lia.
Qed.

End MemoryLemmas.

Arguments load : simpl never.
Arguments store : simpl never.
Arguments memcpy : simpl never.

Lemma load8_store8_same m a v a' :
  a' = a -> 0 <= v < 2 ^ 64 -> load 8 (store 8 m a v) a' = v.
Proof.
  intros -> Hv. rewrite load_store_same.
  change (256 ^ Z.of_nat 8) with (2 ^ 64). apply Z.mod_small. lia.
Qed.

Lemma load4_store4_same m a v a' :
  a' = a -> 0 <= v < 2 ^ 32 -> load 4 (store 4 m a v) a' = v.
Proof.
  intros -> Hv. rewrite load_store_same.
  change (256 ^ Z.of_nat 4) with (2 ^ 32). apply Z.mod_small. lia.
Qed.

Lemma load8_range m a : 0 <= load 8 m a < 2 ^ 64.
Proof. exact (load_range 8 m a). Qed.

Lemma load4_range m a : 0 <= load 4 m a < 2 ^ 32.
Proof. exact (load_range 4 m a). Qed.

Lemma size_add_small a b : 0 <= a + b < 2 ^ 64 -> size_add a b = a + b.
Proof. intros H. unfold size_add, SIZE_MODULUS. apply Z.mod_small. lia. Qed.

Lemma size_sub_small a b : 0 <= a - b < 2 ^ 64 -> size_sub a b = a - b.
Proof. intros H. unfold size_sub, SIZE_MODULUS. apply Z.mod_small. lia. Qed.

Ltac mem_step :=
  match goal with
  | |- context [load ?n' (store ?n ?m ?a ?v) ?a'] =>
      first [ rewrite (load_store_other n n' m a v a') by lia
            | rewrite (load8_store8_same m a v a')
                by first [lia | apply load8_range]
            | rewrite (load4_store4_same m a v a')
                by first [lia | apply load4_range] ]
  end.

Ltac mem_simpl := repeat mem_step.

Ltac conj_split := repeat match goal with |- _ /\ _ => split end.

(** ** The variable-size allocator *)

Module VSFacts.

Import VS.

Lemma tiled_ordered bs : forall lo hi, tiled lo bs hi -> ordered lo bs hi.
Proof.
  induction bs as [|b rest IH]; simpl; intros lo hi H.
  - lia.
  - destruct H as (Ha & Hs & Hrest). repeat split; try lia. auto.
Qed.

Lemma ordered_bounds bs : forall lo hi, ordered lo bs hi -> lo <= hi.
Proof.
  induction bs as [|b rest IH]; simpl; intros lo hi H; [assumption|].
  destruct H as (Ha & Hs & Hrest). apply IH in Hrest. unfold sizeof_MemBlock in *. lia.
Qed.

Lemma ordered_weaken bs : forall lo lo' hi hi',
  ordered lo bs hi -> lo' <= lo -> hi <= hi' -> ordered lo' bs hi'.
Proof.
  induction bs as [|b rest IH]; simpl; intros lo lo' hi hi' H Hlo Hhi.
  - lia.
  - destruct H as (Ha & Hs & Hrest). repeat split; try lia.
    apply IH with (lo := addr b + sizeof_MemBlock + size b) (hi := hi); auto; lia.
Qed.

Lemma ordered_In bs : forall lo hi b,
  ordered lo bs hi -> In b bs ->
  lo <= addr b /\ 0 <= size b /\ addr b + sizeof_MemBlock + size b <= hi.
Proof.
  induction bs as [|b0 rest IH]; simpl; intros lo hi b H Hin; [contradiction|].
  destruct H as (Ha & Hs & Hrest).
  destruct Hin as [->|Hin].
  - apply ordered_bounds in Hrest. lia.
  - destruct (IH _ _ _ Hrest Hin) as (H1 & H2 & H3).
    unfold sizeof_MemBlock in *. lia.
Qed.

Lemma ordered_app l1 : forall l2 lo hi,
  ordered lo (l1 ++ l2) hi <->
  exists mid, ordered lo l1 mid /\ ordered mid l2 hi.
Proof.
  induction l1 as [|b rest IH]; simpl; intros l2 lo hi.
  - split.
    + intros H. exists lo. split; [lia | assumption].
    + intros (mid & Hlo & H). eapply ordered_weaken; eauto; lia.
  - split.
    + intros (Ha & Hs & Hrest). apply IH in Hrest. destruct Hrest as (mid & H1 & H2).
      exists mid. auto.
    + intros (mid & (Ha & Hs & H1) & H2). repeat split; auto.
      apply IH. exists mid. auto.
Qed.

Lemma tiled_app l1 : forall l2 lo hi,
  tiled lo (l1 ++ l2) hi <->
  exists mid, tiled lo l1 mid /\ tiled mid l2 hi.
Proof.
  induction l1 as [|b rest IH]; simpl; intros l2 lo hi.
  - split.
    + intros H. exists lo. split; [reflexivity | assumption].
    + intros (mid & -> & H). assumption.
  - split.
    + intros (Ha & Hs & Hrest). apply IH in Hrest. destruct Hrest as (mid & H1 & H2).
      exists mid. auto.
    + intros (mid & (Ha & Hs & H1) & H2). repeat split; auto.
      apply IH. exists mid. auto.
Qed.

Lemma first_addr_app l1 l2 d :
  first_addr (l1 ++ l2) d = first_addr l1 (first_addr l2 d).
Proof. destruct l1; reflexivity. Qed.

Lemma dllseg_app m l1 : forall l2 p n,
  dllseg m p (l1 ++ l2) n <->
  dllseg m p l1 (first_addr l2 n) /\ dllseg m (last_addr l1 p) l2 n.
Proof.
  induction l1 as [|b rest IH]; simpl; intros l2 p n.
  - tauto.
  - rewrite IH, first_addr_app. tauto.
Qed.

Lemma dllseg_frame m m' bs : forall p n,
  (forall b, In b bs -> same_header m m' (addr b)) ->
  dllseg m p bs n -> dllseg m' p bs n.
Proof.
  induction bs as [|b rest IH]; simpl; intros p n Hsame H; [exact I|].
  destruct H as (H0 & H1 & H2 & H3 & H4 & H5).
  destruct (Hsame b (or_introl eq_refl)) as (E1 & E2 & E3 & E4).
  rewrite E1, E2, E3, E4. repeat split; auto.
Qed.

Lemma dllseg_frame_range m m' bs lo hi p n :
  ordered lo bs hi ->
  (forall a, lo <= a -> a + sizeof_MemBlock <= hi -> same_header m m' a) ->
  dllseg m p bs n -> dllseg m' p bs n.
Proof.
  intros Hord Hsame. apply dllseg_frame. intros b Hin.
  destruct (ordered_In _ _ _ _ Hord Hin) as (H1 & H2 & H3).
  apply Hsame; lia.
Qed.

Lemma dllseg_dump m bs : forall p fuel,
  dllseg m p bs NULL -> (length bs < fuel)%nat ->
  dump_from fuel m (first_addr bs NULL) = Some bs.
Proof.
  induction bs as [|b rest IH]; intros p fuel H Hfuel.
  - destruct fuel; [simpl in Hfuel; lia | reflexivity].
  - destruct fuel as [|fuel]; [simpl in Hfuel; lia|].
    simpl in H. destruct H as (H0 & H1 & H2 & H3 & H4 & H5).
    simpl. destruct (Z.eqb_spec (addr b) NULL); [contradiction|].
    rewrite H4, (IH (addr b) fuel H5) by (simpl in Hfuel; lia).
    rewrite H1, H2. destruct b as [[a s] u]. reflexivity.
Qed.

Ltac unfold_fields :=
  unfold get_size, get_used, get_prev, get_next,
         set_size, set_used, set_prev, set_next,
         sizeof_MemBlock, POOL_SIZE, NULL, SIZE_MODULUS in *.

Ltac zlia := unfold sizeof_MemBlock, POOL_SIZE, NULL, SIZE_MODULUS in *; lia.

Section Proofs.
Variable memory_pool : Z.
Variable expand_marks_used : bool.
Hypothesis pool_low : 0 < memory_pool.
Hypothesis pool_high : memory_pool + POOL_SIZE + sizeof_MemBlock < SIZE_MODULUS.

Local Abbreviation LIMIT := (memory_pool + POOL_SIZE + sizeof_MemBlock).
Local Abbreviation well_formed := (VS.well_formed memory_pool).
Local Abbreviation invariant := (VS.invariant memory_pool).

Lemma init_blocks st :
  blocks (vs_init_allocator memory_pool st) [(memory_pool, POOL_SIZE, 0)].
Proof.
  unfold blocks, vs_init_allocator. simpl. unfold addr, size, used. simpl.
  unfold_fields. mem_simpl. repeat split; lia.
Qed.

Lemma ordered_split l1 b l2 lo h :
  ordered lo (l1 ++ b :: l2) h ->
  exists mid, ordered lo l1 mid /\ mid <= addr b /\ 0 <= size b
              /\ ordered (addr b + sizeof_MemBlock + size b) l2 h.
Proof.
  intros H. apply ordered_app in H. destruct H as (mid & H1 & H2).
  simpl in H2. exists mid. tauto.
Qed.

Ltac frame_tac :=
  intros; unfold same_header; unfold_fields; mem_simpl; auto.

Lemma grant_whole m l1 a s u l2 req :
  dllseg m NULL (l1 ++ (a, s, u) :: l2) NULL ->
  ordered memory_pool (l1 ++ (a, s, u) :: l2) LIMIT ->
  0 <= req < SIZE_MODULUS ->
  dllseg (set_size (set_used m a 1) a req) NULL (l1 ++ (a, req, 1) :: l2) NULL.
Proof.
  intros Hdll Hord Hreq.
  apply ordered_split in Hord. destruct Hord as (mid & Ho1 & Hmid & Hs & Ho2).
  apply dllseg_app in Hdll. destruct Hdll as (Hd1 & Hd2).
  simpl in Hd2. destruct Hd2 as (Ha & Hsz & Hu & Hp & Hn & Hd2).
  unfold addr, size, used in *; simpl in *.
  apply dllseg_app. split.
  - simpl. apply (dllseg_frame_range m _ l1 memory_pool mid); auto. frame_tac.
  - simpl. unfold addr, size, used; simpl. unfold_fields. mem_simpl.
    repeat split; auto.
    apply dllseg_frame_range with (m := m) (lo := a + 32 + s) (hi := memory_pool + 64 * 4 + 32); auto.
    frame_tac.
Qed.

Lemma mark_free m l1 a s u l2 :
  dllseg m NULL (l1 ++ (a, s, u) :: l2) NULL ->
  ordered memory_pool (l1 ++ (a, s, u) :: l2) LIMIT ->
  dllseg (set_used m a 0) NULL (l1 ++ (a, s, 0) :: l2) NULL.
Proof.
  intros Hdll Hord.
  apply ordered_split in Hord. destruct Hord as (mid & Ho1 & Hmid & Hs & Ho2).
  apply dllseg_app in Hdll. destruct Hdll as (Hd1 & Hd2).
  simpl in Hd2. destruct Hd2 as (Ha & Hsz & Hu & Hp & Hn & Hd2).
  unfold addr, size, used in *; simpl in *.
  apply dllseg_app. split.
  - simpl. apply (dllseg_frame_range m _ l1 memory_pool mid); auto. frame_tac.
  - simpl. unfold addr, size, used; simpl. unfold_fields. mem_simpl.
    repeat split; auto.
    apply dllseg_frame_range with (m := m) (lo := a + 32 + s) (hi := memory_pool + 64 * 4 + 32); auto.
    frame_tac.
Qed.

Lemma split_block_chain m best req :
  0 < best -> 0 <= req -> best + sizeof_MemBlock + req < SIZE_MODULUS ->
  split_block m best req =
    let new := best + sizeof_MemBlock + req in
    set_next
      (set_prev
         (set_size
            (set_used (set_next m best new) new 0)
            new (size_sub (size_sub (get_size m best) req) sizeof_MemBlock))
         new best)
      new (get_next m best).
Proof.
  intros Hbest Hreq Hnew. unfold split_block. cbv zeta.
  unfold_fields. mem_simpl. reflexivity.
Qed.

(** The split at the tail of the list. *)
Lemma grant_split m l1 a s u req :
  dllseg m NULL (l1 ++ [(a, s, u)]) NULL ->
  ordered memory_pool (l1 ++ [(a, s, u)]) LIMIT ->
  0 <= req -> req + sizeof_MemBlock <= s ->
  dllseg (set_size (set_used (split_block m a req) a 1) a req) NULL
    (l1 ++ [(a, req, 1); (a + sizeof_MemBlock + req, s - req - sizeof_MemBlock, 0)])
    NULL.
Proof.
  intros Hdll Hord Hreq Hfit.
  apply ordered_split in Hord. destruct Hord as (mid & Ho1 & Hmid & Hs & Ho2).
  apply dllseg_app in Hdll. destruct Hdll as (Hd1 & Hd2).
  simpl in Hd2. destruct Hd2 as (Ha & Hsz & Hu & Hp & Hn & _).
  pose proof (ordered_bounds _ _ _ Ho1) as Hb1.
  unfold addr, size, used in *; simpl in *.
  rewrite split_block_chain by (unfold_fields; lia). cbv zeta.
  unfold size_sub. rewrite Hsz, Hn.
  apply dllseg_app. split.
  - simpl. apply (dllseg_frame_range m _ l1 memory_pool mid); auto.
    frame_tac.
  - simpl. unfold addr, size, used; simpl. unfold_fields.
    rewrite (Z.mod_small (s - req)) by lia.
    rewrite (Z.mod_small (s - req - 32)) by lia.
    mem_simpl.
    repeat split; auto; lia.
Qed.

Lemma find_best_pick m req bs : forall p fuel best ob,
  dllseg m p bs NULL -> (length bs < fuel)%nat ->
  best_matches m best ob ->
  find_best fuel m req (first_addr bs NULL) best = Some (addr_of (pick req bs ob)).
Proof.
  induction bs as [|b rest IH]; intros p fuel best ob Hdll Hfuel Hbest.
  - destruct fuel; [simpl in Hfuel; lia|]. simpl.
    destruct ob as [b0|]; simpl in *; [destruct Hbest as (-> & _)|subst]; reflexivity.
  - destruct fuel as [|fuel]; [simpl in Hfuel; lia|].
    simpl in Hdll. destruct Hdll as (H0 & H1 & H2 & H3 & H4 & H5).
    simpl. destruct (Z.eqb_spec (addr b) NULL); [contradiction|].
    rewrite H4, H1, H2.
    erewrite IH; [reflexivity | exact H5 | simpl in Hfuel; lia |].
    destruct ob as [b0|]; simpl in Hbest.
    + destruct Hbest as (-> & Hnz & Hsz). rewrite Hsz.
      destruct (Z.eqb_spec (addr b0) NULL); [contradiction|]. simpl.
      destruct ((used b =? 0) && ((size b <? size b0) && (size b >=? req))); simpl; auto.
    + subst best. rewrite Z.eqb_refl. simpl.
      destruct (used b =? 0); simpl; auto.
Qed.

Lemma pick_In req bs : forall ob b,
  pick req bs ob = Some b -> (ob = Some b \/ (In b bs /\ used b = 0)).
Proof.
  induction bs as [|b0 rest IH]; simpl; intros ob b H; [auto|].
  apply IH in H. destruct H as [H|(H1 & H2)]; [|auto].
  destruct (Z.eqb_spec (used b0) 0); simpl in H; [|auto].
  destruct ob as [b1|]; [destruct ((size b0 <? size b1) && (size b0 >=? req))|];
    auto; inversion H; subst; auto.
Qed.

Lemma merge_next_spec m l1 b l2 :
  dllseg m NULL (l1 ++ b :: l2) NULL ->
  ordered memory_pool (l1 ++ b :: l2) LIMIT ->
  dllseg (merge_next m (addr b)) NULL (l1 ++ absorb_next b l2) NULL.
Proof.
  intros Hdll Hord. destruct b as [[a s] u].
  pose proof Hord as Hord0.
  apply ordered_split in Hord. destruct Hord as (mid & Ho1 & Hmid & Hs & Ho2).
  pose proof Hdll as Hdll0.
  apply dllseg_app in Hdll. destruct Hdll as (Hd1 & Hd2).
  simpl in Hd2. destruct Hd2 as (Ha & Hsz & Hu & Hp & Hn & Hd2).
  unfold addr, size, used in *; simpl in *.
  unfold merge_next. rewrite Hn.
  destruct l2 as [|[[a2 s2] u2] l3]; simpl.
  - assumption.
  - simpl in Hd2. destruct Hd2 as (Ha2 & Hsz2 & Hu2 & Hp2 & Hn2 & Hd3).
    simpl in Ho2. destruct Ho2 as (Hlo2 & Hs2 & Ho3).
    pose proof (ordered_bounds _ _ _ Ho3) as Hb3.
    pose proof (ordered_bounds _ _ _ Ho1) as Hb1.
    unfold addr, size, used in *; simpl in *.
    destruct (Z.eqb_spec a2 NULL); [contradiction|]. simpl.
    rewrite Hu2. destruct (Z.eqb_spec u2 0); [|assumption].
    rewrite Hsz, Hsz2.
    rewrite (size_add_small s2) by (unfold_fields; lia).
    rewrite size_add_small by (unfold_fields; lia).
    unfold_fields. mem_simpl. rewrite Hn. mem_simpl. rewrite Hn2.
    assert (Hl1 : dllseg m 0 l1 a -> forall m',
               (forall x, memory_pool <= x -> x + 32 <= mid -> same_header m m' x) ->
               dllseg m' 0 l1 a).
    { intros H m' Hsame. apply dllseg_frame_range with (m := m) (lo := memory_pool) (hi := mid); auto. }
    destruct l3 as [|[[a3 s3] u3] l4]; simpl.
    + apply dllseg_app. split; simpl.
      * apply Hl1; auto. frame_tac.
      * unfold addr, size, used; simpl. unfold_fields. mem_simpl.
        repeat split; auto; lia.
    + simpl in Hd3. destruct Hd3 as (Ha3 & Hsz3 & Hu3 & Hp3 & Hn3 & Hd4).
      simpl in Ho3. destruct Ho3 as (Hlo3 & Hs3 & Ho4).
      pose proof (ordered_bounds _ _ _ Ho4) as Hb4.
      unfold addr, size, used in *; simpl in *. unfold_fields.
      destruct (Z.eqb_spec a3 0); [contradiction|]. simpl.
      apply dllseg_app. split; simpl.
      * apply Hl1; auto. frame_tac.
      * unfold addr, size, used; simpl. unfold_fields. mem_simpl.
        repeat split; auto; try lia.
        apply dllseg_frame_range with (m := m) (lo := a3 + 32 + s3) (hi := memory_pool + 64 * 4 + 32); auto.
        frame_tac.
Qed.

Lemma snoc_case {A} (l : list A) : l = [] \/ exists l0 x, l = l0 ++ [x].
Proof.
  destruct l as [|y l]; [left; reflexivity | right].
  destruct (exists_last (l := y :: l)) as (l0 & x & E); [discriminate|].
  exists l0, x. exact E.
Qed.

Lemma absorb_prev_snoc l0 : forall b0 b l3,
  absorb_prev (l0 ++ [b0]) (b :: l3) =
  l0 ++ (if used b0 =? 0
         then (addr b0, size b0 + size b + sizeof_MemBlock, used b0) :: l3
         else b0 :: b :: l3).
Proof.
  induction l0 as [|x rest IH]; intros b0 b l3.
  - simpl. destruct (used b0 =? 0); reflexivity.
  - change ((x :: rest) ++ [b0]) with (x :: (rest ++ [b0])).
    simpl absorb_prev. rewrite IH.
    destruct (rest ++ [b0]) eqn:E; [destruct rest; discriminate|].
    reflexivity.
Qed.

Lemma merge_prev_spec m l1 b l3 :
  dllseg m NULL (l1 ++ b :: l3) NULL ->
  ordered memory_pool (l1 ++ b :: l3) LIMIT ->
  dllseg (merge_prev m (addr b)) NULL (absorb_prev l1 (b :: l3)) NULL.
Proof.
  intros Hdll Hord. destruct b as [[a s] u].
  unfold merge_prev.
  destruct (snoc_case l1) as [->|(l0 & [[a0 s0] u0] & ->)].
  - simpl in *. destruct Hdll as (Ha & Hsz & Hu & Hp & Hn & Hd2).
    rewrite Hp. simpl. repeat split; auto.
  - rewrite absorb_prev_snoc. rewrite <- app_assoc in Hdll, Hord. simpl in Hdll, Hord.
    pose proof Hdll as Hdll0.
    apply ordered_split in Hord. destruct Hord as (mid & Ho1 & Hmid & Hs0 & Ho2).
    apply dllseg_app in Hdll. destruct Hdll as (Hd1 & Hd2).
    simpl in Hd2, Ho2.
    destruct Hd2 as (Ha0 & Hsz0 & Hu0 & Hp0 & Hn0 & Ha & Hsz & Hu & Hp & Hn & Hd3).
    destruct Ho2 as (Hlo & Hs & Ho3).
    pose proof (ordered_bounds _ _ _ Ho3) as Hb3.
    pose proof (ordered_bounds _ _ _ Ho1) as Hb1.
    simpl in *. rewrite Hp.
    destruct (Z.eqb_spec a0 NULL); [contradiction|]. simpl.
    rewrite Hu0. destruct (Z.eqb_spec u0 0); [|assumption].
    rewrite Hsz, Hsz0.
    rewrite (size_add_small s) by (unfold_fields; lia).
    rewrite size_add_small by (unfold_fields; lia).
    unfold_fields. mem_simpl. rewrite Hn, Hp.
    assert (Hl1 : forall m',
               (forall x, memory_pool <= x -> x + 32 <= mid -> same_header m m' x) ->
               dllseg m' 0 l0 a0).
    { intros m' Hsame. apply dllseg_frame_range with (m := m) (lo := memory_pool) (hi := mid); auto. }
    destruct l3 as [|[[a3 s3] u3] l4]; simpl.
    + apply dllseg_app. split; simpl.
      * apply Hl1; auto. frame_tac.
      * unfold_fields. mem_simpl. repeat split; auto; lia.
    + simpl in Hd3. destruct Hd3 as (Ha3 & Hsz3 & Hu3 & Hp3 & Hn3 & Hd4).
      simpl in Ho3. destruct Ho3 as (Hlo3 & Hs3 & Ho4).
      pose proof (ordered_bounds _ _ _ Ho4) as Hb4.
      simpl in *. unfold_fields.
      destruct (Z.eqb_spec a3 0); [contradiction|]. simpl.
      apply dllseg_app. split; simpl.
      * apply Hl1; auto. frame_tac.
      * unfold_fields. mem_simpl.
        repeat split; auto; try lia.
        apply dllseg_frame_range with (m := m) (lo := a3 + 32 + s3) (hi := memory_pool + 64 * 4 + 32); auto.
        frame_tac.
Qed.

(** *** Coalescing on the list of blocks *)

Lemma absorb_next_cons b l2 :
  exists b' l3, absorb_next b l2 = b' :: l3 /\ addr b' = addr b /\ used b' = used b.
Proof.
  destruct l2 as [|b2 l3]; simpl; [eauto|].
  destruct (used b2 =? 0); eauto.
Qed.

Lemma ordered_absorb_next b l2 lo h :
  ordered lo (b :: l2) h -> ordered lo (absorb_next b l2) h.
Proof.
  destruct l2 as [|b2 l3]; simpl; [tauto|].
  intros (H1 & H2 & H3 & H4 & H5).
  destruct (used b2 =? 0); simpl; [|tauto].
  repeat split; try (unfold_fields; lia).
  eapply ordered_weaken; eauto; unfold_fields; lia.
Qed.

Lemma tiled_absorb_next b l2 lo h :
  tiled lo (b :: l2) h -> tiled lo (absorb_next b l2) h.
Proof.
  destruct l2 as [|b2 l3]; simpl; [tauto|].
  intros (H1 & H2 & H3 & H4 & H5).
  destruct (used b2 =? 0); simpl; [|tauto].
  repeat split; try (unfold_fields; lia).
  replace (addr b + sizeof_MemBlock + (size b + size b2 + sizeof_MemBlock))
    with (addr b2 + sizeof_MemBlock + size b2) by (unfold_fields; lia).
  assumption.
Qed.

Lemma ordered_absorb_prev l1 : forall b l3 lo h,
  ordered lo (l1 ++ b :: l3) h -> ordered lo (absorb_prev l1 (b :: l3)) h.
Proof.
  intros b l3 lo h H.
  destruct (snoc_case l1) as [->|(l0 & b0 & ->)]; [exact H|].
  rewrite absorb_prev_snoc. rewrite <- app_assoc in H. simpl in H.
  destruct (used b0 =? 0); [|exact H].
  apply ordered_app in H. destruct H as (mid & H1 & H2 & H3 & H4 & H5 & H6).
  apply ordered_app. exists mid. split; [assumption|]. simpl.
  repeat split; try (unfold_fields; lia).
  eapply ordered_weaken; eauto; unfold_fields; lia.
Qed.

Lemma tiled_absorb_prev l1 : forall b l3 lo h,
  tiled lo (l1 ++ b :: l3) h -> tiled lo (absorb_prev l1 (b :: l3)) h.
Proof.
  intros b l3 lo h H.
  destruct (snoc_case l1) as [->|(l0 & b0 & ->)]; [exact H|].
  rewrite absorb_prev_snoc. rewrite <- app_assoc in H. simpl in H.
  destruct (used b0 =? 0); [|exact H].
  apply tiled_app in H. destruct H as (mid & H1 & H2 & H3 & H4 & H5 & H6).
  apply tiled_app. exists mid. split; [assumption|]. simpl.
  repeat split; try (unfold_fields; lia).
  replace (addr b0 + sizeof_MemBlock + (size b0 + size b + sizeof_MemBlock))
    with (addr b + sizeof_MemBlock + size b) by (unfold_fields; lia).
  assumption.
Qed.

Lemma ordered_released l1 b l2 lo h :
  ordered lo (l1 ++ b :: l2) h -> ordered lo (released l1 b l2) h.
Proof.
  intros H. unfold released.
  destruct (absorb_next_cons (addr b, size b, 0) l2) as (b' & l3 & E & Ea & Eu).
  assert (H' : ordered lo (l1 ++ absorb_next (addr b, size b, 0) l2) h).
  { apply ordered_app in H. destruct H as (mid & H1 & H2).
    apply ordered_app. exists mid. split; [assumption|].
    apply ordered_absorb_next. exact H2. }
  rewrite E in *. apply ordered_absorb_prev. exact H'.
Qed.

Lemma tiled_released l1 b l2 lo h :
  tiled lo (l1 ++ b :: l2) h -> tiled lo (released l1 b l2) h.
Proof.
  intros H. unfold released.
  destruct (absorb_next_cons (addr b, size b, 0) l2) as (b' & l3 & E & Ea & Eu).
  assert (H' : tiled lo (l1 ++ absorb_next (addr b, size b, 0) l2) h).
  { apply tiled_app in H. destruct H as (mid & H1 & H2).
    apply tiled_app. exists mid. split; [assumption|].
    apply tiled_absorb_next. exact H2. }
  rewrite E in *. apply tiled_absorb_prev. exact H'.
Qed.

Lemma first_addr_absorb_prev l1 b l3 d :
  first_addr (absorb_prev l1 (b :: l3)) d = first_addr (l1 ++ b :: l3) d.
Proof.
  destruct (snoc_case l1) as [->|(l0 & b0 & ->)]; [reflexivity|].
  rewrite absorb_prev_snoc, <- app_assoc.
  destruct l0; simpl; [|reflexivity].
  destruct (used b0 =? 0); reflexivity.
Qed.

Lemma first_addr_released l1 b l2 d :
  first_addr (released l1 b l2) d = first_addr (l1 ++ b :: l2) d.
Proof.
  unfold released.
  destruct (absorb_next_cons (addr b, size b, 0) l2) as (b' & l3 & E & Ea & Eu).
  rewrite E, first_addr_absorb_prev, !first_addr_app. simpl. rewrite Ea. reflexivity.
Qed.

(** *** Well-formed states *)

Lemma init_well_formed st :
  well_formed (vs_init_allocator memory_pool st) [(memory_pool, POOL_SIZE, 0)].
Proof.
  split; [reflexivity|]. split; [apply init_blocks|].
  simpl. unfold_fields. lia.
Qed.

Lemma vs_free_spec st l1 a s u l2 :
  well_formed st (l1 ++ (a, s, u) :: l2) -> u <> 0 ->
  exists m',
    vs_free memory_pool st (a + sizeof_MemBlock) = with_mem st m'
    /\ well_formed (with_mem st m') (released l1 (a, s, u) l2).
Proof.
  intros (Hfirst & (Hhead & Hdll) & Hord) Hu.
  pose proof Hord as Hord0.
  apply ordered_split in Hord0. destruct Hord0 as (mid & Ho1 & Hmid & Hs & Ho2).
  pose proof (ordered_bounds _ _ _ Ho1) as Hb1.
  pose proof (ordered_bounds _ _ _ Ho2) as Hb2.
  pose proof Hdll as Hdll0.
  apply dllseg_app in Hdll0. destruct Hdll0 as (_ & Hd2).
  simpl in Hd2. destruct Hd2 as (Ha & Hsz & Hused & _).
  simpl in *.
  unfold vs_free, rejected, out_of_pool.
  replace (a + sizeof_MemBlock - sizeof_MemBlock) with a by lia.
  rewrite Hused, Hhead, Hfirst.
  destruct (Z.eqb_spec (a + sizeof_MemBlock) NULL); [unfold_fields; lia|].
  destruct (Z.eqb_spec a NULL); [contradiction|].
  destruct (Z.eqb_spec u 0); [contradiction|].
  destruct (Z.ltb_spec a memory_pool); [lia|].
  destruct (Z.gtb_spec a (memory_pool + POOL_SIZE)); [unfold_fields; lia|].
  simpl. eexists. split; [reflexivity|].
  assert (Hord1 : ordered memory_pool (l1 ++ (a, s, 0) :: l2) LIMIT).
  { apply ordered_app in Hord. destruct Hord as (mid' & H1 & H2).
    apply ordered_app. exists mid'. split; [assumption|]. exact H2. }
  pose proof (mark_free _ _ _ _ _ _ Hdll Hord) as Hd1.
  pose proof (merge_next_spec _ _ _ _ Hd1 Hord1) as Hd2. simpl in Hd2.
  destruct (absorb_next_cons (a, s, 0) l2) as (b' & l3 & E & Ea & Eu).
  assert (Hord2 : ordered memory_pool (l1 ++ b' :: l3) LIMIT).
  { rewrite <- E. apply ordered_app in Hord1. destruct Hord1 as (mid' & H1 & H2).
    apply ordered_app. exists mid'. split; [assumption|].
    apply ordered_absorb_next. exact H2. }
  rewrite E in Hd2.
  pose proof (merge_prev_spec _ _ _ _ Hd2 Hord2) as Hd3. simpl in Ea. rewrite Ea in Hd3.
  split; [|split].
  - rewrite first_addr_released. exact Hfirst.
  - split; simpl.
    + rewrite first_addr_released. rewrite Hhead. reflexivity.
    + unfold released. simpl. rewrite E. exact Hd3.
  - apply ordered_released. exact Hord.
Qed.

(** *** Allocation *)

Lemma dllseg_In_nonnull m bs : forall p n b,
  dllseg m p bs n -> In b bs -> addr b <> NULL.
Proof.
  induction bs as [|b0 rest IH]; simpl; intros p n b H Hin; [contradiction|].
  destruct H as (H0 & _ & _ & _ & _ & H5).
  destruct Hin as [->|Hin]; eauto.
Qed.

Lemma vs_malloc_result fuel st bs req :
  blocks st bs -> (length bs < fuel)%nat ->
  vs_malloc memory_pool fuel st req =
    match pick req bs None with
    | None => Some (NULL, say st Out_of_memory)
    | Some b =>
        if addr b + sizeof_MemBlock + req >? memory_pool + POOL_SIZE
        then Some (NULL, say st Out_of_memory)
        else Some (addr b + sizeof_MemBlock,
                   with_mem st (grant_mem (mem st) (addr b) req))
    end.
Proof.
  intros (Hhead & Hdll) Hfuel. unfold vs_malloc.
  rewrite Hhead.
  rewrite (find_best_pick (mem st) req bs NULL fuel NULL None Hdll Hfuel eq_refl).
  destruct (pick req bs None) as [b|] eqn:Epick; simpl; [|reflexivity].
  apply pick_In in Epick. destruct Epick as [Epick|(Hin & _)]; [discriminate|].
  pose proof (dllseg_In_nonnull _ _ _ _ _ Hdll Hin) as Hnz.
  destruct (Z.eqb_spec (addr b) NULL); [contradiction|]. simpl.
  reflexivity.
Qed.

Lemma ordered_resized l1 b l2 new u lo h :
  ordered lo (l1 ++ b :: l2) h -> 0 <= new <= size b ->
  ordered lo (l1 ++ resized b new u ++ l2) h.
Proof.
  intros H Hreq. apply ordered_app in H. destruct H as (mid & H1 & H2 & H3 & H4).
  apply ordered_app. exists mid. split; [assumption|].
  unfold resized. destruct (Z.geb_spec (size b) (new + sizeof_MemBlock)); simpl.
  - repeat split; try (unfold_fields; lia).
    eapply ordered_weaken; eauto; unfold_fields; lia.
  - repeat split; try (unfold_fields; lia).
    eapply ordered_weaken; eauto; unfold_fields; lia.
Qed.

Lemma first_addr_resized l1 b l2 new u d :
  first_addr (l1 ++ resized b new u ++ l2) d = first_addr (l1 ++ b :: l2) d.
Proof.
  rewrite !first_addr_app. unfold resized.
  destruct (size b >=? new + sizeof_MemBlock); reflexivity.
Qed.

Lemma grant_spec st l1 b l2 req :
  well_formed st (l1 ++ b :: l2) ->
  0 <= req <= size b ->
  size b < req + sizeof_MemBlock \/ l2 = [] ->
  well_formed (with_mem st (grant_mem (mem st) (addr b) req))
    (l1 ++ granted b req ++ l2).
Proof.
  intros (Hfirst & (Hhead & Hdll) & Hord) Hreq Hguard.
  destruct b as [[a s] u].
  pose proof (ordered_In _ _ _ (a, s, u) Hord ltac:(apply in_elt)) as (Hlo & Hs & Hhi).
  pose proof Hdll as Hdll0.
  apply dllseg_app in Hdll0. destruct Hdll0 as (_ & Hd2).
  simpl in Hd2. destruct Hd2 as (Ha & Hsz & _).
  simpl in *.
  split; [|split].
  - unfold granted. rewrite first_addr_resized. exact Hfirst.
  - split; simpl; [unfold granted; rewrite first_addr_resized; exact Hhead|].
    unfold grant_mem, granted, resized. simpl. rewrite Hsz.
    rewrite size_add_small by (unfold_fields; lia).
    destruct (Z.geb_spec s (req + sizeof_MemBlock)).
    + destruct Hguard as [Hguard| ->]; [lia|].
      apply grant_split with (u := u); auto; lia.
    + apply grant_whole with (s := s) (u := u); auto. unfold_fields; lia.
  - apply ordered_resized; auto.
Qed.

(** *** Adjacent free blocks *)

Lemma naf_from_app l1 : forall l2 f,
  naf_from f (l1 ++ l2) <-> naf_from f l1 /\ naf_from (last_free f l1) l2.
Proof.
  induction l1 as [|b rest IH]; simpl; intros l2 f; [tauto|].
  rewrite IH. tauto.
Qed.

Lemma naf_from_weaken bs f : naf_from f bs -> naf_from false bs.
Proof. destruct bs; simpl; [tauto|]. intros (_ & H). split; [discriminate | exact H]. Qed.

Lemma no_adjacent_free_naf bs : no_adjacent_free bs <-> naf_from false bs.
Proof.
  induction bs as [|b rest IH]; simpl; [tauto|].
  rewrite IH. destruct rest as [|b' rest']; simpl.
  - intuition discriminate.
  - destruct (Z.eqb_spec (used b) 0) as [E|E].
    + split.
      * intros (H1 & _ & H2). repeat split; try discriminate; auto.
      * intros (_ & H1 & H2). repeat split; try discriminate; auto. tauto.
    + split.
      * intros (H1 & _ & H2). repeat split; try discriminate; auto.
      * intros (_ & H1 & H2). repeat split; try discriminate; auto. tauto.
Qed.

Lemma last_free_app l1 : forall l2 f,
  last_free f (l1 ++ l2) = last_free (last_free f l1) l2.
Proof. induction l1 as [|b rest IH]; simpl; intros; [reflexivity | apply IH]. Qed.

Lemma naf_released l1 b l2 :
  naf_from false (l1 ++ b :: l2) -> used b <> 0 ->
  naf_from false (released l1 b l2).
Proof.
  intros H Hb. unfold released.
  apply naf_from_app in H. destruct H as (H1 & H2). simpl in H2.
  destruct H2 as (_ & H2).
  destruct (Z.eqb_spec (used b) 0) as [|_]; [contradiction|].
  assert (Hnext : exists b' l3,
             absorb_next (addr b, size b, 0) l2 = b' :: l3
             /\ used b' = 0 /\ naf_from true l3).
  { destruct l2 as [|b2 l3]; simpl.
    - exists (addr b, size b, 0), []. simpl. auto.
    - simpl in H2. destruct H2 as (_ & H2).
      destruct (Z.eqb_spec (used b2) 0) as [E|E].
      + eexists _, l3. split; [reflexivity|]. split; [reflexivity | exact H2].
      + exists (addr b, size b, 0), (b2 :: l3). split; [reflexivity|].
        split; [reflexivity|]. simpl. split; [auto|].
        destruct (Z.eqb_spec (used b2) 0); [contradiction | exact H2]. }
  destruct Hnext as (b' & l3 & -> & Hb' & H3).
  destruct (snoc_case l1) as [->|(l0 & b0 & ->)].
  - simpl. split; [discriminate|]. rewrite Hb'. exact H3.
  - rewrite absorb_prev_snoc.
    apply naf_from_app in H1. destruct H1 as (H0 & H1). simpl in H1.
    destruct H1 as (H1 & _).
    apply naf_from_app. split; [assumption|].
    destruct (Z.eqb_spec (used b0) 0) as [E|E]; simpl.
    + split; [intros Hf; apply H1 in Hf; contradiction|].
      rewrite E. exact H3.
    + split; [auto|].
      destruct (Z.eqb_spec (used b0) 0); [contradiction|].
      split; [discriminate|]. rewrite Hb'. exact H3.
Qed.

Lemma is_used_free b : used b = 0 -> is_used b = false.
Proof. unfold is_used. intros ->. reflexivity. Qed.

Lemma is_used_used b : used b <> 0 -> is_used b = true.
Proof. unfold is_used. intros H. destruct (Z.eqb_spec (used b) 0); [contradiction | reflexivity]. Qed.

Lemma filter_used_absorb_next b l2 :
  used b = 0 -> filter is_used (absorb_next b l2) = filter is_used l2.
Proof.
  intros Hb. destruct l2 as [|b2 l3]; simpl.
  - rewrite is_used_free by exact Hb. reflexivity.
  - destruct (Z.eqb_spec (used b2) 0) as [E|E]; simpl.
    + rewrite (is_used_free b2) by exact E.
      rewrite is_used_free by exact Hb. reflexivity.
    + rewrite is_used_free by exact Hb. reflexivity.
Qed.

Lemma filter_used_absorb_prev l1 b l3 :
  used b = 0 ->
  filter is_used (absorb_prev l1 (b :: l3)) = filter is_used (l1 ++ l3).
Proof.
  intros Hb.
  destruct (snoc_case l1) as [->|(l0 & b0 & ->)].
  - simpl. rewrite is_used_free by exact Hb. reflexivity.
  - rewrite absorb_prev_snoc, <- app_assoc, !filter_app. f_equal.
    destruct (Z.eqb_spec (used b0) 0) as [E|E]; simpl.
    + rewrite (is_used_free b0) by exact E.
      rewrite is_used_free by exact E. reflexivity.
    + rewrite (is_used_free b) by exact Hb.
      rewrite (is_used_used b0) by exact E. reflexivity.
Qed.

Lemma filter_used_released l1 b l2 :
  filter is_used (released l1 b l2) = filter is_used (l1 ++ l2).
Proof.
  unfold released.
  destruct (absorb_next_cons (addr b, size b, 0) l2) as (b' & l3 & E & Ea & Eu).
  pose proof (filter_used_absorb_next (addr b, size b, 0) l2 eq_refl) as H.
  rewrite E in *. rewrite filter_used_absorb_prev by exact Eu.
  rewrite !filter_app. f_equal.
  rewrite <- H. simpl. rewrite is_used_free by exact Eu. reflexivity.
Qed.

Lemma all_free_single bs :
  naf_from false bs -> filter is_used bs = [] -> (length bs <= 1)%nat.
Proof.
  destruct bs as [|b [|b' rest]]; simpl; try lia.
  intros (_ & H1 & _). unfold is_used.
  destruct (Z.eqb_spec (used b) 0) as [E|E]; simpl; [|discriminate].
  destruct (Z.eqb_spec (used b') 0) as [E'|E']; simpl; [|discriminate].
  exfalso. apply H1; auto.
Qed.

Lemma tiled_length bs : forall lo h,
  tiled lo bs h -> sizeof_MemBlock * Z.of_nat (length bs) <= h - lo.
Proof.
  induction bs as [|b rest IH]; intros lo h H.
  - simpl in *. lia.
  - destruct H as (H1 & H2 & H3). apply IH in H3.
    change (length (b :: rest)) with (S (length rest)).
    rewrite Nat2Z.inj_succ. unfold_fields. lia.
Qed.

Lemma pick_last_free req us : forall f ob,
  Forall (fun b => used b <> 0) us -> used f = 0 ->
  (forall b0, ob = Some b0 -> False) ->
  pick req (us ++ [f]) ob = Some f.
Proof.
  induction us as [|b rest IH]; intros f ob Hus Hf Hob.
  - simpl. rewrite Hf. destruct ob as [b0|]; [exfalso; eauto|]. reflexivity.
  - inversion Hus as [|? ? Hb Hrest]; subst. simpl.
    destruct (Z.eqb_spec (used b) 0); [contradiction|]. simpl.
    apply IH; auto.
Qed.

(** *** Full reclamation *)

Lemma tiled_last us f lo h :
  tiled lo (us ++ [f]) h ->
  lo <= addr f /\ 0 <= size f /\ addr f + sizeof_MemBlock + size f = h.
Proof.
  intros H. pose proof (tiled_ordered _ _ _ H) as Ho.
  apply ordered_app in Ho. destruct Ho as (mid & Ho & Hmid & _).
  apply ordered_bounds in Ho.
  apply tiled_app in H. destruct H as (mid' & _ & H1 & H2 & H3).
  simpl in H3. lia.
Qed.

Lemma alloc_phase fuel sizes : forall st us f,
  well_formed st (us ++ [f]) ->
  tiled memory_pool (us ++ [f]) LIMIT ->
  Forall (fun b => used b <> 0) us -> used f = 0 ->
  (10 <= fuel)%nat ->
  Forall (fun s => 0 <= s < SIZE_MODULUS) sizes ->
  exists ptrs st' us' f',
    vs_malloc_all memory_pool fuel st sizes = Some (ptrs, st')
    /\ well_formed st' (us ++ us' ++ [f'])
    /\ tiled memory_pool (us ++ us' ++ [f']) LIMIT
    /\ Forall (fun b => used b <> 0) us' /\ used f' = 0
    /\ (Forall (fun p => p <> NULL) ptrs -> ptrs = map payload us').
Proof.
  induction sizes as [|req rest IH]; intros st us f Hwf Htiled Hus Hf Hfuel Hsizes.
  - exists [], st, [], f. simpl. conj_split; auto.
  - inversion Hsizes as [|? ? Hreq Hrest]; subst.
    pose proof (tiled_length _ _ _ Htiled) as Hlen.
    pose proof (tiled_last _ _ _ _ Htiled) as (Hlo & Hs & Hend).
    simpl.
    rewrite (vs_malloc_result fuel st (us ++ [f]) req)
      by (try apply Hwf; unfold_fields; lia).
    rewrite pick_last_free by (auto; discriminate).
    destruct (Z.gtb_spec (addr f + sizeof_MemBlock + req) (memory_pool + POOL_SIZE)) as [Hoom|Hok].
    + destruct (IH (say st Out_of_memory) us f) as (ptrs & st' & us' & f' & E & H1 & H2 & H3 & H4 & H5);
        auto.
      rewrite E. exists (NULL :: ptrs), st', us', f'.
      conj_split; auto.
      intros Hnn. inversion Hnn; subst. contradiction.
    + assert (Hsplit : granted f req =
                [(addr f, req, 1);
                 (addr f + sizeof_MemBlock + req, size f - req - sizeof_MemBlock, 0)]).
      { unfold granted, resized. destruct (Z.geb_spec (size f) (req + sizeof_MemBlock)); [reflexivity|].
        unfold_fields. lia. }
      pose proof (grant_spec st us f [] req Hwf
                    ltac:(unfold_fields; lia) ltac:(right; reflexivity)) as Hwf'.
      rewrite Hsplit in Hwf'.
      set (b1 := (addr f, req, 1)) in *.
      set (f1 := (addr f + sizeof_MemBlock + req, size f - req - sizeof_MemBlock, 0)) in *.
      change (us ++ [b1; f1] ++ []) with (us ++ [b1; f1]) in Hwf'.
      replace (us ++ [b1; f1]) with ((us ++ [b1]) ++ [f1]) in Hwf'
        by (rewrite <- app_assoc; reflexivity).
      destruct (IH _ (us ++ [b1]) f1 Hwf') as (ptrs & st' & us' & f' & E & H1 & H2 & H3 & H4 & H5);
        auto.
      * apply tiled_app in Htiled. destruct Htiled as (mid & Ht1 & Ht2 & Ht3 & Ht4).
        rewrite <- app_assoc. apply tiled_app. exists mid. split; [assumption|].
        subst b1 f1. simpl in *. unfold_fields. repeat split; lia.
      * apply Forall_app. split; [assumption|]. constructor; [|constructor].
        subst b1. simpl. lia.
      * rewrite E. exists (addr f + sizeof_MemBlock :: ptrs), st', (b1 :: us'), f'.
        rewrite <- app_assoc in H1, H2.
        conj_split; auto.
        -- constructor; [subst b1; simpl; lia | assumption].
        -- intros Hnn. inversion Hnn; subst. simpl. f_equal. auto.
Qed.

Lemma free_phase order : forall st bs,
  well_formed st bs ->
  tiled memory_pool bs LIMIT ->
  naf_from false bs ->
  Permutation order (map payload (filter is_used bs)) ->
  exists bs',
    well_formed (vs_free_all memory_pool st order) bs'
    /\ tiled memory_pool bs' LIMIT
    /\ naf_from false bs'
    /\ filter is_used bs' = [].
Proof.
  induction order as [|p rest IH]; intros st bs Hwf Htiled Hnaf Hperm.
  - exists bs. conj_split; auto.
    apply Permutation_nil in Hperm.
    destruct (filter is_used bs); [reflexivity | discriminate].
  - assert (Hin : In p (map payload (filter is_used bs))).
    { eapply Permutation_in; [exact Hperm | left; reflexivity]. }
    apply in_map_iff in Hin. destruct Hin as (b & Hp & Hin).
    apply filter_In in Hin. destruct Hin as (Hin & Hused).
    apply in_split in Hin. destruct Hin as (l1 & l2 & ->).
    destruct b as [[a s] u].
    assert (Hu : u <> 0).
    { unfold is_used in Hused. simpl in Hused.
      destruct (Z.eqb_spec u 0); [discriminate | assumption]. }
    destruct (vs_free_spec st l1 a s u l2 Hwf Hu) as (m' & E & Hwf').
    simpl. unfold payload in Hp. simpl in Hp. subst p. rewrite E.
    apply (IH _ _ Hwf').
    + apply tiled_released. exact Htiled.
    + apply naf_released; auto.
    + rewrite filter_used_released.
      rewrite filter_app in Hperm. simpl in Hperm. rewrite Hused in Hperm.
      rewrite map_app in Hperm. simpl in Hperm.
      apply Permutation_cons_app_inv in Hperm.
      rewrite filter_app, map_app. exact Hperm.
Qed.

Lemma naf_all_used us f :
  Forall (fun b => used b <> 0) us -> naf_from false (us ++ [f]).
Proof.
  intros H. apply naf_from_app. split.
  - clear f. generalize false.
    induction H as [|b rest Hb Hrest IH]; intros fl; simpl; [exact I|].
    split; [auto | apply IH].
  - simpl. split; [|exact I].
    intros Hl Hf. clear Hf.
    destruct (snoc_case us) as [->|(l0 & b0 & ->)]; [discriminate|].
    rewrite last_free_app in Hl. simpl in Hl.
    apply Forall_app in H. destruct H as (_ & H). inversion H; subst.
    destruct (Z.eqb_spec (used b0) 0); [contradiction | discriminate].
Qed.

Lemma filter_all_used us f :
  Forall (fun b => used b <> 0) us -> used f = 0 ->
  filter is_used (us ++ [f]) = us.
Proof.
  intros H Hf. rewrite filter_app. simpl. rewrite (is_used_free f) by exact Hf.
  rewrite app_nil_r. induction H as [|b rest Hb Hrest IH]; simpl; [reflexivity|].
  rewrite is_used_used by exact Hb. f_equal. exact IH.
Qed.


(** *** Resizing in place *)

Lemma carve_spec m l1 a s u l2 new :
  dllseg m NULL (l1 ++ (a, s, u) :: l2) NULL ->
  ordered memory_pool (l1 ++ (a, s, u) :: l2) LIMIT ->
  0 <= new -> new + sizeof_MemBlock <= s ->
  dllseg (set_size (carve_remainder m a new) a new) NULL
    (l1 ++ (a, new, u)
        :: (a + sizeof_MemBlock + new, s - new - sizeof_MemBlock, 0) :: l2)
    NULL.
Proof.
  intros Hdll Hord Hnew Hfit.
  apply ordered_split in Hord. destruct Hord as (mid & Ho1 & Hmid & Hs & Ho2).
  apply dllseg_app in Hdll. destruct Hdll as (Hd1 & Hd2).
  simpl in Hd2. destruct Hd2 as (Ha & Hsz & Hu & Hp & Hn & Hd2).
  pose proof (ordered_bounds _ _ _ Ho1) as Hb1.
  pose proof (ordered_bounds _ _ _ Ho2) as Hb2.
  simpl in *. unfold carve_remainder. cbv zeta.
  rewrite Hsz.
  rewrite (size_sub_small s) by (unfold_fields; lia).
  rewrite size_sub_small by (unfold_fields; lia).
  unfold_fields. mem_simpl. rewrite Hn.
  assert (Hl1 : forall m',
             (forall x, memory_pool <= x -> x + 32 <= mid -> same_header m m' x) ->
             dllseg m' 0 l1 a).
  { intros m' Hsame. apply dllseg_frame_range with (m := m) (lo := memory_pool) (hi := mid); auto. }
  destruct l2 as [|[[a2 s2] u2] l3]; simpl.
  - apply dllseg_app. split; simpl.
    + apply Hl1. frame_tac.
    + unfold_fields. mem_simpl. conj_split; auto; lia.
  - simpl in Hd2. destruct Hd2 as (Ha2 & Hsz2 & Hu2 & Hp2 & Hn2 & Hd3).
    simpl in Ho2. destruct Ho2 as (Hlo2 & Hs2 & Ho3).
    pose proof (ordered_bounds _ _ _ Ho3) as Hb3.
    simpl in *. unfold_fields.
    destruct (Z.eqb_spec a2 0); [contradiction|]. simpl.
    apply dllseg_app. split; simpl.
    + apply Hl1. frame_tac.
    + unfold_fields. mem_simpl.
      conj_split; auto; try lia.
      apply dllseg_frame_range with (m := m) (lo := a2 + 32 + s2) (hi := memory_pool + 64 * 4 + 32); auto.
      frame_tac.
Qed.

Lemma resize_whole m l1 a s u l2 new :
  dllseg m NULL (l1 ++ (a, s, u) :: l2) NULL ->
  ordered memory_pool (l1 ++ (a, s, u) :: l2) LIMIT ->
  0 <= new < SIZE_MODULUS ->
  dllseg (set_size m a new) NULL (l1 ++ (a, new, u) :: l2) NULL.
Proof.
  intros Hdll Hord Hnew.
  apply ordered_split in Hord. destruct Hord as (mid & Ho1 & Hmid & Hs & Ho2).
  apply dllseg_app in Hdll. destruct Hdll as (Hd1 & Hd2).
  simpl in Hd2. destruct Hd2 as (Ha & Hsz & Hu & Hp & Hn & Hd2).
  simpl in *.
  apply dllseg_app. split.
  - simpl. apply (dllseg_frame_range m _ l1 memory_pool mid); auto. frame_tac.
  - simpl. unfold_fields. mem_simpl.
    conj_split; auto.
    apply dllseg_frame_range with (m := m) (lo := a + 32 + s) (hi := memory_pool + 64 * 4 + 32); auto.
    frame_tac.
Qed.

Lemma mark_used m l1 a s u l2 :
  dllseg m NULL (l1 ++ (a, s, u) :: l2) NULL ->
  ordered memory_pool (l1 ++ (a, s, u) :: l2) LIMIT ->
  dllseg (set_used m a 1) NULL (l1 ++ (a, s, 1) :: l2) NULL.
Proof.
  intros Hdll Hord.
  apply ordered_split in Hord. destruct Hord as (mid & Ho1 & Hmid & Hs & Ho2).
  apply dllseg_app in Hdll. destruct Hdll as (Hd1 & Hd2).
  simpl in Hd2. destruct Hd2 as (Ha & Hsz & Hu & Hp & Hn & Hd2).
  simpl in *.
  apply dllseg_app. split.
  - simpl. apply (dllseg_frame_range m _ l1 memory_pool mid); auto. frame_tac.
  - simpl. unfold_fields. mem_simpl.
    conj_split; auto.
    apply dllseg_frame_range with (m := m) (lo := a + 32 + s) (hi := memory_pool + 64 * 4 + 32); auto.
    frame_tac.
Qed.

Lemma memcpy_payload m l1 a s u l2 src len :
  dllseg m NULL (l1 ++ (a, s, u) :: l2) NULL ->
  ordered memory_pool (l1 ++ (a, s, u) :: l2) LIMIT ->
  len <= s ->
  dllseg (memcpy m (a + sizeof_MemBlock) src len) NULL (l1 ++ (a, s, u) :: l2) NULL.
Proof.
  intros Hdll Hord Hlen.
  apply dllseg_frame with (m := m); [|exact Hdll].
  intros b Hin. apply in_app_or in Hin.
  apply ordered_split in Hord. destruct Hord as (mid & Ho1 & Hmid & Hs & Ho2).
  unfold same_header. unfold_fields. simpl in *.
  destruct Hin as [Hin|[<-|Hin]].
  - pose proof (ordered_In _ _ _ _ Ho1 Hin) as (H1 & H2 & H3). unfold_fields.
    rewrite !load_memcpy_other by lia. auto.
  - simpl. rewrite !load_memcpy_other by lia. auto.
  - pose proof (ordered_In _ _ _ _ Ho2 Hin) as (H1 & H2 & H3). unfold_fields.
    rewrite !load_memcpy_other by lia. auto.
Qed.

Lemma realloc_shrink_spec fuel st l1 a s u l2 new :
  well_formed st (l1 ++ (a, s, u) :: l2) ->
  0 < new < s ->
  exists m',
    vs_realloc memory_pool expand_marks_used fuel st (a + sizeof_MemBlock) new
      = Some (a + sizeof_MemBlock, with_mem st m')
    /\ well_formed (with_mem st m') (l1 ++ resized (a, s, u) new u ++ l2).
Proof.
  intros (Hfirst & (Hhead & Hdll) & Hord) Hnew.
  pose proof (ordered_In _ _ _ (a, s, u) Hord ltac:(apply in_elt)) as (Hlo & Hs & Hhi).
  pose proof Hdll as Hdll0.
  apply dllseg_app in Hdll0. destruct Hdll0 as (_ & Hd2).
  simpl in Hd2. destruct Hd2 as (Ha & Hsz & _).
  simpl in *.
  unfold vs_realloc.
  replace (a + sizeof_MemBlock - sizeof_MemBlock) with a by lia.
  destruct (Z.eqb_spec (a + sizeof_MemBlock) NULL); [unfold_fields; lia|].
  destruct (Z.leb_spec new 0); [lia|].
  rewrite Hsz. destruct (Z.ltb_spec new s); [|lia].
  rewrite size_sub_small by (unfold_fields; lia).
  eexists. split; [reflexivity|].
  split; [|split].
  - rewrite first_addr_resized. exact Hfirst.
  - split; simpl; [rewrite first_addr_resized; exact Hhead|].
    unfold resized. simpl.
    destruct (Z.geb_spec (s - new) sizeof_MemBlock);
      destruct (Z.geb_spec s (new + sizeof_MemBlock)); try lia; simpl.
    + apply carve_spec; auto; lia.
    + apply resize_whole with (s := s); auto. unfold_fields; lia.
  - apply ordered_resized; auto. simpl. lia.
Qed.

Lemma realloc_expand_spec fuel st l1 a s u a2 s2 l3 new :
  well_formed st (l1 ++ (a, s, u) :: (a2, s2, 0) :: l3) ->
  0 < new -> s <= new -> new <= s + s2 ->
  exists m',
    vs_realloc memory_pool expand_marks_used fuel st (a + sizeof_MemBlock) new
      = Some (a + sizeof_MemBlock, with_mem st m')
    /\ well_formed (with_mem st m')
         (l1 ++ resized (a, s + s2 + sizeof_MemBlock, u) new
                  (if expand_marks_used then 1 else u) ++ l3).
Proof.
  intros (Hfirst & (Hhead & Hdll) & Hord) Hpos Hge Hle.
  pose proof (ordered_In _ _ _ (a, s, u) Hord ltac:(apply in_elt)) as (Hlo & Hs & Hhi).
  pose proof Hord as Hord0.
  apply ordered_split in Hord0. destruct Hord0 as (mid & Ho1 & Hmid & _ & Ho2).
  simpl in Ho2. destruct Ho2 as (Hlo2 & Hs2 & Ho3).
  pose proof (ordered_bounds _ _ _ Ho3) as Hb3.
  pose proof Hdll as Hdll0.
  apply dllseg_app in Hdll0. destruct Hdll0 as (_ & Hd2).
  simpl in Hd2. destruct Hd2 as (Ha & Hsz & Hu & Hp & Hn & Ha2 & Hsz2 & Hu2 & _).
  simpl in *.
  assert (Hcond : negb (get_next (mem st) a =? NULL)
                  && (get_used (mem st) (get_next (mem st) a) =? 0) = true).
  { rewrite Hn, Hu2. destruct (Z.eqb_spec a2 NULL); [contradiction | reflexivity]. }
  unfold vs_realloc.
  replace (a + sizeof_MemBlock - sizeof_MemBlock) with a by lia.
  destruct (Z.eqb_spec (a + sizeof_MemBlock) NULL); [unfold_fields; lia|].
  destruct (Z.leb_spec new 0); [zlia|].
  rewrite Hsz. destruct (Z.ltb_spec new s); [zlia|].
  unfold can_expand. rewrite Hcond. rewrite Hsz, Hn, Hsz2.
  rewrite (size_add_small s s2) by (unfold_fields; lia).
  rewrite size_add_small by (unfold_fields; lia).
  destruct (Z.geb_spec (s + s2 + sizeof_MemBlock) new); [|zlia]. simpl.
  eexists. split; [reflexivity|].
  assert (Hmerge : dllseg (merge_next (mem st) a) NULL
                     (l1 ++ (a, s + s2 + sizeof_MemBlock, u) :: l3) NULL).
  { pose proof (merge_next_spec _ _ _ _ Hdll Hord) as Hm. simpl in Hm. exact Hm. }
  assert (Hord1 : ordered memory_pool
                    (l1 ++ (a, s + s2 + sizeof_MemBlock, u) :: l3) LIMIT).
  { apply ordered_app. exists mid. split; [assumption|]. simpl.
    conj_split; try zlia. eapply ordered_weaken; eauto; unfold_fields; zlia. }
  assert (Hres : resized (a, s + s2 + sizeof_MemBlock, u) new
                   (if expand_marks_used then 1 else u)
                 = [(a, new, if expand_marks_used then 1 else u);
                    (a + sizeof_MemBlock + new,
                     s + s2 + sizeof_MemBlock - new - sizeof_MemBlock, 0)]).
  { unfold resized. simpl.
    destruct (Z.geb_spec (s + s2 + sizeof_MemBlock) (new + sizeof_MemBlock)); [reflexivity | zlia]. }
  split; [|split].
  - rewrite first_addr_resized. rewrite !first_addr_app in *. exact Hfirst.
  - split; simpl.
    + rewrite first_addr_resized. rewrite !first_addr_app in *. exact Hhead.
    + rewrite Hres. simpl.
      assert (Hcarve : dllseg
                 (set_size (carve_remainder (merge_next (mem st) a) a new) a new)
                 NULL
                 (l1 ++ (a, new, u)
                     :: (a + sizeof_MemBlock + new,
                         s + s2 + sizeof_MemBlock - new - sizeof_MemBlock, 0) :: l3)
                 NULL).
      { apply carve_spec; auto; zlia. }
      assert (Hsame : expand_in_place expand_marks_used (mem st) a new =
                let m := set_size (carve_remainder (merge_next (mem st) a) a new) a new in
                if expand_marks_used then set_used m a 1 else m).
      { unfold expand_in_place, merge_next. rewrite Hcond. reflexivity. }
      rewrite Hsame. cbv zeta.
      destruct expand_marks_used; [|exact Hcarve].
      apply mark_used with (u := u); [exact Hcarve|].
      apply (ordered_resized l1 (a, s + s2 + sizeof_MemBlock, u) l3 new u) in Hord1;
        [|simpl; zlia].
      unfold resized in Hord1. simpl in Hord1.
      destruct (Z.geb_spec (s + s2 + sizeof_MemBlock) (new + sizeof_MemBlock)); [|zlia].
      exact Hord1.
  - apply ordered_resized; auto. simpl. zlia.
Qed.

(** *** Every call by design keeps the list well formed *)

Lemma find_best_fuel m req : forall fuel fuel' curr best r,
  find_best fuel m req curr best = Some r -> (fuel <= fuel')%nat ->
  find_best fuel' m req curr best = Some r.
Proof.
  induction fuel as [|f IH]; intros fuel' curr best r H Hle; [discriminate|].
  destruct fuel' as [|f']; [lia|].
  simpl in *. destruct (curr =? NULL); [assumption|].
  apply IH with (fuel' := f') in H; [assumption | lia].
Qed.

Lemma vs_malloc_fuel fuel fuel' st req r :
  vs_malloc memory_pool fuel st req = Some r -> (fuel <= fuel')%nat ->
  vs_malloc memory_pool fuel' st req = Some r.
Proof.
  unfold vs_malloc. intros H Hle.
  destruct (find_best fuel (mem st) req (head st) NULL) as [best|] eqn:E; [|discriminate].
  rewrite (find_best_fuel _ _ _ _ _ _ _ E Hle). exact H.
Qed.

Lemma dump_unique m bs : forall p fuel bs',
  dllseg m p bs NULL ->
  dump_from fuel m (first_addr bs NULL) = Some bs' -> bs' = bs.
Proof.
  induction bs as [|b rest IH]; intros p fuel bs' Hdll Hdump.
  - destruct fuel; [discriminate|]. simpl in Hdump. inversion Hdump. reflexivity.
  - destruct fuel as [|fuel]; [discriminate|].
    simpl in Hdll. destruct Hdll as (H0 & H1 & H2 & H3 & H4 & H5).
    simpl in Hdump. destruct (Z.eqb_spec (addr b) NULL); [contradiction|].
    rewrite H4 in Hdump.
    destruct (dump_from fuel m (first_addr rest NULL)) as [l|] eqn:E; [|discriminate].
    apply (IH _ _ _ H5) in E. subst l. inversion Hdump.
    rewrite H1, H2. destruct b as [[a s] u]. reflexivity.
Qed.

Lemma valid_handle_split st bs ptr :
  well_formed st bs -> valid_handle st ptr ->
  exists l1 a s u l2,
    bs = l1 ++ (a, s, u) :: l2 /\ u <> 0 /\ ptr = a + sizeof_MemBlock.
Proof.
  intros (Hfirst & (Hhead & Hdll) & Hord) (fuel & bs' & s & u & Hdump & Hin & Hu).
  unfold dump_memory in Hdump. rewrite Hhead in Hdump.
  apply (dump_unique _ _ _ _ _ Hdll) in Hdump. subst bs'.
  apply in_split in Hin. destruct Hin as (l1 & l2 & ->).
  exists l1, (ptr - sizeof_MemBlock), s, u, l2. conj_split; auto. lia.
Qed.

Lemma naf_from_true f l2 :
  naf_from f l2 ->
  match l2 with [] => True | b2 :: _ => used b2 <> 0 end ->
  naf_from true l2.
Proof. destruct l2; simpl; [tauto|]. intros (_ & H) Hu. auto. Qed.

Lemma naf_resized l1 b l2 new u' :
  naf_from false (l1 ++ b :: l2) -> u' <> 0 ->
  (size b >= new + sizeof_MemBlock -> naf_from true l2) ->
  naf_from false (l1 ++ resized b new u' ++ l2).
Proof.
  intros H Hu Hsplit.
  apply naf_from_app in H. destruct H as (H1 & _ & H2).
  apply naf_from_app. split; [assumption|].
  unfold resized. destruct (Z.geb_spec (size b) (new + sizeof_MemBlock)); simpl;
    destruct (Z.eqb_spec u' 0); try contradiction.
  - conj_split; auto; try discriminate. apply Hsplit. lia.
  - conj_split; auto. eapply naf_from_weaken; eauto.
Qed.

Lemma first_addr_nonnull m p b rest n :
  dllseg m p (b :: rest) n -> first_addr (b :: rest) n <> NULL.
Proof. simpl. tauto. Qed.

Lemma malloc_granted fuel st bs req ptr st' :
  well_formed st bs ->
  0 <= req < SIZE_MODULUS ->
  vs_malloc memory_pool fuel st req = Some (ptr, st') ->
  fits st req ptr ->
  (ptr = NULL /\ st' = say st Out_of_memory)
  \/ exists l1 b l2,
       bs = l1 ++ b :: l2 /\ used b = 0 /\ ptr = addr b + sizeof_MemBlock
       /\ 0 <= req <= size b
       /\ st' = with_mem st (grant_mem (mem st) (addr b) req)
       /\ well_formed st' (l1 ++ granted b req ++ l2).
Proof.
  intros Hwf Hreq Hcall Hfits.
  pose proof Hwf as (Hfirst & Hblocks & Hord).
  apply vs_malloc_fuel with (fuel' := (fuel + S (length bs))%nat) in Hcall; [|lia].
  rewrite (vs_malloc_result _ st bs req Hblocks) in Hcall by lia.
  destruct (pick req bs None) as [b|] eqn:Epick.
  - destruct (Z.gtb_spec (addr b + sizeof_MemBlock + req) (memory_pool + POOL_SIZE)).
    + inversion Hcall. left. auto.
    + inversion Hcall; subst ptr st'. right.
      apply pick_In in Epick. destruct Epick as [Epick|(Hin & Hfree)]; [discriminate|].
      apply in_split in Hin. destruct Hin as (l1 & l2 & ->).
      destruct Hblocks as (Hhead & Hdll).
      pose proof Hdll as Hdll0.
      apply dllseg_app in Hdll0. destruct Hdll0 as (_ & Hd2).
      pose proof Hd2 as (Ha & Hsz & Hu & Hp & Hn & Hd3).
      pose proof (ordered_In _ _ _ b Hord ltac:(apply in_elt)) as (Hlo & Hs & Hhi).
      destruct Hfits as [Hnull|(Hsize & Htail)]; [zlia|].
      replace (addr b + sizeof_MemBlock - sizeof_MemBlock) with (addr b) in * by lia.
      rewrite Hsz in *. rewrite Hn in Htail.
      exists l1, b, l2. conj_split; auto; try lia.
      apply grant_spec; auto; [lia|].
      destruct (Z.ltb_spec (size b) (req + sizeof_MemBlock)); [left; assumption|right].
      destruct l2 as [|b2 l3]; [reflexivity|].
      exfalso. apply (first_addr_nonnull _ _ _ _ _ Hd3). apply Htail. lia.
  - inversion Hcall. left. auto.
Qed.

Lemma naf_granted l1 b l2 req :
  naf_from false (l1 ++ b :: l2) -> used b = 0 ->
  naf_from false (l1 ++ granted b req ++ l2).
Proof.
  intros H Hb. apply naf_resized; [assumption | discriminate |].
  intros _. apply naf_from_app in H. destruct H as (_ & _ & H).
  rewrite Hb in H. exact H.
Qed.

Lemma malloc_step c fuel st req ptr st' :
  invariant c st ->
  0 <= req < SIZE_MODULUS ->
  vs_malloc memory_pool fuel st req = Some (ptr, st') ->
  fits st req ptr ->
  invariant c st'.
Proof.
  intros (bs & Hwf & Hnaf) Hreq Hcall Hfits.
  destruct (malloc_granted _ _ _ _ _ _ Hwf Hreq Hcall Hfits)
    as [(_ & ->)|(l1 & b & l2 & -> & Hfree & _ & _ & _ & Hwf')].
  - exists bs. auto.
  - exists (l1 ++ granted b req ++ l2). split; [assumption|].
    intros Hc. apply naf_granted; auto.
Qed.

Lemma free_step c st ptr :
  invariant c st -> valid_handle st ptr ->
  invariant c (vs_free memory_pool st ptr).
Proof.
  intros (bs & Hwf & Hnaf) Hvalid.
  destruct (valid_handle_split _ _ _ Hwf Hvalid) as (l1 & a & s & u & l2 & -> & Hu & ->).
  destruct (vs_free_spec st l1 a s u l2 Hwf Hu) as (m' & -> & Hwf').
  exists (released l1 (a, s, u) l2). split; [assumption|].
  intros Hc. apply naf_released; auto.
Qed.

Lemma well_formed_header st l1 a s u l2 :
  well_formed st (l1 ++ (a, s, u) :: l2) ->
  0 < a /\ get_size (mem st) a = s /\ get_used (mem st) a = u
  /\ get_next (mem st) a = first_addr l2 NULL
  /\ dllseg (mem st) a l2 NULL.
Proof.
  intros (Hfirst & (Hhead & Hdll) & Hord).
  pose proof (ordered_In _ _ _ (a, s, u) Hord ltac:(apply in_elt)) as (Hlo & _).
  apply dllseg_app in Hdll. destruct Hdll as (_ & Hd2).
  simpl in *. destruct Hd2 as (Ha & Hsz & Hu & Hp & Hn & Hd3).
  conj_split; auto. lia.
Qed.

Lemma relocate_step c st l1 b l2 a s u new :
  well_formed st (l1 ++ granted b new ++ l2) ->
  (c = true -> naf_from false (l1 ++ granted b new ++ l2)) ->
  In (a, s, u) (l1 ++ granted b new ++ l2) -> u <> 0 -> s <= new ->
  invariant c
    (vs_free memory_pool
       (with_mem st (memcpy (mem st) (addr b + sizeof_MemBlock)
                       (a + sizeof_MemBlock) (get_size (mem st) a)))
       (a + sizeof_MemBlock)).
Proof.
  intros Hwf Hnaf Hin Hu Hle.
  set (bs1 := l1 ++ granted b new ++ l2) in *.
  pose proof Hin as Hsplit. apply in_split in Hsplit.
  destruct Hsplit as (k1 & k2 & Hk).
  assert (Hsz : get_size (mem st) a = s).
  { rewrite Hk in Hwf. apply well_formed_header in Hwf. tauto. }
  rewrite Hsz.
  assert (Hwf2 : well_formed
                   (with_mem st (memcpy (mem st) (addr b + sizeof_MemBlock)
                                   (a + sizeof_MemBlock) s)) bs1).
  { destruct Hwf as (Hfirst & (Hhead & Hdll) & Hord).
    split; [assumption|]. split; [|assumption]. split; [exact Hhead|]. simpl.
    assert (Hg : exists tl, bs1 = l1 ++ (addr b, new, 1) :: tl).
    { subst bs1. unfold granted, resized.
      destruct (size b >=? new + sizeof_MemBlock); simpl; eauto. }
    destruct Hg as (tl & Hg). rewrite Hg in *.
    apply memcpy_payload; auto. }
  rewrite Hk in Hwf2.
  destruct (vs_free_spec _ k1 a s u k2 Hwf2 Hu) as (m' & -> & Hwf3).
  exists (released k1 (a, s, u) k2). split; [assumption|].
  intros Hc. apply naf_released; auto.
  specialize (Hnaf Hc). rewrite Hk in Hnaf. exact Hnaf.
Qed.

Lemma realloc_step c fuel st ptr new result st' :
  invariant c st ->
  0 <= new < SIZE_MODULUS ->
  vs_realloc memory_pool expand_marks_used fuel st ptr new = Some (result, st') ->
  resize_by_design c st ptr new result ->
  invariant c st'.
Proof.
  intros Hinv Hnew Hcall Hguard.
  unfold resize_by_design in Hguard.
  destruct (Z.eqb_spec ptr NULL) as [Hnull|Hnonnull].
  { unfold vs_realloc in Hcall. subst ptr. simpl in Hcall.
    eapply malloc_step; eauto. }
  destruct Hguard as (Hvalid & Hguard).
  destruct (Z.leb_spec new 0) as [Hzero|Hpos].
  { unfold vs_realloc in Hcall.
    destruct (Z.eqb_spec ptr NULL); [contradiction|].
    destruct (Z.leb_spec new 0); [|lia].
    inversion Hcall; subst. apply free_step; auto. }
  pose proof Hinv as (bs & Hwf & Hnaf).
  destruct (valid_handle_split _ _ _ Hwf Hvalid) as (l1 & a & s & u & l2 & -> & Hu & ->).
  pose proof (well_formed_header _ _ _ _ _ _ Hwf) as (Ha & Hsz & Hused & Hn & Hd3).
  cbv zeta in Hguard.
  replace (a + sizeof_MemBlock - sizeof_MemBlock) with a in Hguard by lia.
  rewrite Hsz in Hguard.
  destruct (Z.ltb_spec new s) as [Hshrink|Hgrow].
  - (* shrink in place *)
    destruct (realloc_shrink_spec fuel st l1 a s u l2 new Hwf ltac:(lia))
      as (m' & E & Hwf').
    rewrite E in Hcall. inversion Hcall; subst result st'.
    eexists. split; [exact Hwf'|].
    intros Hc. apply naf_resized; auto. simpl. intros Hsplit.
    apply naf_from_app in Hnaf; auto. destruct Hnaf as (_ & _ & Hnaf).
    apply naf_from_true with (f := (u =? 0)); [assumption|].
    destruct l2 as [|b2 l3]; [exact I|].
    pose proof Hd3 as (Ha2 & _ & Hu2 & _).
    rewrite Hn in Hguard. simpl in Hguard. rewrite Hu2 in Hguard.
    apply Hguard; auto. lia.
  - destruct (can_expand (mem st) a new) eqn:Hexp.
    + (* expand in place *)
      unfold can_expand in Hexp. rewrite Hn in Hexp, Hguard.
      destruct l2 as [|[[a2 s2] u2] l3];
        [simpl in Hexp; discriminate|].
      pose proof Hd3 as (Ha2 & Hsz2 & Hu2 & _).
      simpl in *. rewrite Hu2, Hsz2 in *.
      destruct (Z.eqb_spec u2 0) as [->|];
        [|rewrite andb_false_r in Hexp; discriminate].
      destruct (realloc_expand_spec fuel st l1 a s u a2 s2 l3 new Hwf
                  ltac:(lia) ltac:(lia) ltac:(lia))
        as (m' & E & Hwf').
      rewrite E in Hcall. inversion Hcall; subst result st'.
      eexists. split; [exact Hwf'|].
      intros Hc. specialize (Hnaf Hc).
      apply naf_from_app in Hnaf. destruct Hnaf as (Hn1 & Hn2 & _ & Hn3).
      simpl in Hn3.
      apply naf_resized.
      * apply naf_from_app. split; [assumption|]. simpl.
        split; [intros _; exact Hu|].
        destruct (Z.eqb_spec u 0); [contradiction|].
        eapply naf_from_weaken; eauto.
      * destruct expand_marks_used; [discriminate | assumption].
      * intros _. exact Hn3.
    + (* fallback *)
      unfold vs_realloc in Hcall.
      destruct (Z.eqb_spec (a + sizeof_MemBlock) NULL); [contradiction|].
      destruct (Z.leb_spec new 0); [lia|].
      replace (a + sizeof_MemBlock - sizeof_MemBlock) with a in Hcall by lia.
      rewrite Hsz, Hexp in Hcall.
      destruct (Z.ltb_spec new s); [lia|].
      destruct (vs_malloc memory_pool fuel st new) as [[np st1]|] eqn:Emalloc;
        [|discriminate].
      destruct (Z.eqb_spec np NULL) as [Hnp|Hnp].
      * inversion Hcall; subst result st1.
        eapply malloc_step; eauto.
      * inversion Hcall; subst result st'. clear Hcall.
        destruct (malloc_granted _ _ _ _ _ _ Hwf Hnew Emalloc Hguard)
          as [(Hcontra & _)|(k1 & b & k2 & Hk & Hfree & -> & Hreq & -> & Hwf1)];
          [contradiction|].
        assert (Hin : In (a, s, u) (k1 ++ granted b new ++ k2)).
        { assert (Hin0 : In (a, s, u) (k1 ++ b :: k2))
            by (rewrite <- Hk; apply in_elt).
          apply in_app_or in Hin0. apply in_or_app.
          destruct Hin0 as [Hin0|[Hin0|Hin0]]; [left; assumption | | right].
          - subst b. simpl in Hfree. contradiction.
          - apply in_or_app. right. assumption. }
        apply (relocate_step c _ k1 b k2 a s u new Hwf1); auto.
        intros Hc. apply naf_granted; auto. rewrite <- Hk. auto.
Qed.

Lemma reachable_invariant c st :
  reachable memory_pool expand_marks_used c st -> invariant c st.
Proof.
  induction 1 as [st0|st fuel req ptr st' _ IH Hreq Hcall Hfits
                  |st ptr _ IH Hvalid
                  |st fuel ptr new result st' _ IH Hnew Hcall Hguard].
  - exists [(memory_pool, POOL_SIZE, 0)]. split; [apply init_well_formed|].
    intros _. simpl. split; [discriminate | exact I].
  - eapply malloc_step; eauto.
  - apply free_step; auto.
  - eapply realloc_step; eauto.
Qed.

(** *** What holds in every state reached by design *)

Lemma ordered_length bs : forall lo h,
  ordered lo bs h -> sizeof_MemBlock * Z.of_nat (length bs) <= h - lo.
Proof.
  induction bs as [|b rest IH]; intros lo h H.
  - simpl in *. lia.
  - destruct H as (H1 & H2 & H3). apply IH in H3.
    change (length (b :: rest)) with (S (length rest)).
    rewrite Nat2Z.inj_succ. unfold_fields. lia.
Qed.

Lemma ordered_address_ordered bs : forall lo h,
  ordered lo bs h -> address_ordered bs.
Proof.
  induction bs as [|b rest IH]; intros lo h H; [exact I|].
  destruct H as (H1 & H2 & H3). simpl. conj_split; auto.
  - destruct rest as [|b' rest']; [exact I|]. simpl in H3. tauto.
  - eapply IH; eauto.
Qed.

Lemma well_formed_dump st bs fuel :
  well_formed st bs -> (10 <= fuel)%nat -> dump_memory fuel st = Some bs.
Proof.
  intros (Hfirst & (Hhead & Hdll) & Hord) Hfuel.
  pose proof (ordered_length _ _ _ Hord) as Hlen.
  unfold dump_memory. rewrite Hhead.
  apply (dllseg_dump _ _ NULL); [exact Hdll | unfold_fields; lia].
Qed.

(** C2 (amended).  In every state reached from [vs_init_allocator] by
    calls that stay within what the code is written for ([vs_malloc]
    calls that select a block at least as large as the request and split
    only the last block; [vs_free] and [vs_realloc] of used blocks of
    the list; growth in place only when the excess has room for a
    header), the list that [dump_memory] walks starts at the base of the
    pool and is in address order without overlap: every next header
    starts at or after the end of the payload before it. *)
Theorem block_list_stays_ordered st :
  reachable memory_pool expand_marks_used false st ->
  exists bs,
    (forall fuel, (10 <= fuel)%nat -> dump_memory fuel st = Some bs)
    /\ head st = memory_pool
    /\ first_addr bs NULL = memory_pool
    /\ address_ordered bs.
Proof.
  intros Hreach. apply reachable_invariant in Hreach.
  destruct Hreach as (bs & Hwf & _).
  exists bs. conj_split.
  - intros fuel Hfuel. apply well_formed_dump; assumption.
  - destruct Hwf as (Hfirst & (Hhead & _) & _). congruence.
  - apply Hwf.
  - destruct Hwf as (_ & _ & Hord). eapply ordered_address_ordered; eauto.
Qed.

(** C7 (amended).  In every state reached from [vs_init_allocator] by
    calls that stay within what the code is written for, where moreover
    no [vs_realloc] shrinks a block by a header or more in front of a
    free block, no two neighbours in the list are both free. *)
Theorem no_adjacent_free_after_calls st :
  reachable memory_pool expand_marks_used true st ->
  exists bs,
    (forall fuel, (10 <= fuel)%nat -> dump_memory fuel st = Some bs)
    /\ no_adjacent_free bs.
Proof.
  intros Hreach. apply reachable_invariant in Hreach.
  destruct Hreach as (bs & Hwf & Hnaf).
  exists bs. split.
  - intros fuel Hfuel. apply well_formed_dump; assumption.
  - apply no_adjacent_free_naf. auto.
Qed.

(** *** Relocation that fails *)

Lemma find_best_nonneg m req : forall fuel curr best r,
  0 <= curr -> 0 <= best ->
  find_best fuel m req curr best = Some r -> 0 <= r.
Proof.
  induction fuel as [|f IH]; intros curr best r Hc Hb H; [discriminate|].
  simpl in H. destruct (curr =? NULL); [inversion H; subst; assumption|].
  apply IH in H; auto.
  - unfold get_next. pose proof (load8_range m (curr + 24)). lia.
  - destruct (_ && _); assumption.
Qed.

Lemma vs_malloc_null fuel st req st1 :
  0 <= head st ->
  vs_malloc memory_pool fuel st req = Some (NULL, st1) ->
  st1 = say st Out_of_memory.
Proof.
  intros Hhead H. unfold vs_malloc in H.
  destruct (find_best fuel (mem st) req (head st) NULL) as [best|] eqn:E;
    [|discriminate].
  apply find_best_nonneg in E; [|assumption|unfold NULL; lia].
  destruct (_ || _); inversion H; [reflexivity | zlia].
Qed.

(** C8.  When [vs_realloc] takes its fallback path (the handle is not
    null, the new size is neither zero nor below the block's size, and
    the block cannot expand in place) and the fresh [vs_malloc] returns
    [NULL], [vs_realloc] returns [NULL] and not a byte of memory has
    changed: the old block is still used, has its size and its payload,
    and [vs_free] was not called on it.  Only the [Out_of_memory] line
    was printed. *)
Theorem failed_relocation_keeps_block fuel st ptr new st1 :
  0 <= head st ->
  ptr <> NULL -> 0 < new ->
  get_size (mem st) (ptr - sizeof_MemBlock) <= new ->
  can_expand (mem st) (ptr - sizeof_MemBlock) new = false ->
  vs_malloc memory_pool fuel st new = Some (NULL, st1) ->
  vs_realloc memory_pool expand_marks_used fuel st ptr new = Some (NULL, st1)
  /\ mem st1 = mem st /\ head st1 = head st
  /\ out st1 = out st ++ [Out_of_memory].
Proof.
  intros Hhead Hptr Hnew Hsize Hexp Hmalloc.
  pose proof (vs_malloc_null _ _ _ _ Hhead Hmalloc) as ->.
  split; [|conj_split; reflexivity].
  unfold vs_realloc.
  destruct (Z.eqb_spec ptr NULL); [contradiction|].
  destruct (Z.leb_spec new 0); [lia|].
  destruct (Z.ltb_spec new (get_size (mem st) (ptr - sizeof_MemBlock))); [lia|].
  rewrite Hexp, Hmalloc. reflexivity.
Qed.

(** *** The bounds check of [vs_free] *)

(** C9.  The bounds check of [vs_free] compares with [>]: a header
    address equal to [memory_pool + POOL_SIZE] passes it, every header
    address beyond that is refused, and such a pointer is rejected
    only if the [used] field read there is zero. *)
Theorem bounds_check_is_strict st ptr :
  ptr <> NULL ->
  ptr - sizeof_MemBlock = memory_pool + POOL_SIZE ->
  NULL < head st <= memory_pool + POOL_SIZE ->
  out_of_pool memory_pool st (ptr - sizeof_MemBlock) = false
  /\ (forall block, memory_pool + POOL_SIZE < block ->
        out_of_pool memory_pool st block = true)
  /\ rejected memory_pool st (ptr - sizeof_MemBlock)
     = (get_used (mem st) (ptr - sizeof_MemBlock) =? 0).
Proof.
  clear pool_low pool_high. intros Hptr Hblock Hhead.
  assert (Hpass : out_of_pool memory_pool st (ptr - sizeof_MemBlock) = false).
  { unfold out_of_pool. rewrite Hblock.
    destruct (Z.ltb_spec (memory_pool + POOL_SIZE) (head st)); [lia|].
    destruct (Z.gtb_spec (memory_pool + POOL_SIZE) (memory_pool + POOL_SIZE)); [lia|].
    reflexivity. }
  conj_split.
  - exact Hpass.
  - intros block Hpast. unfold out_of_pool.
    destruct (Z.gtb_spec block (memory_pool + POOL_SIZE)); [|lia].
    apply orb_true_r.
  - unfold rejected. rewrite Hpass, orb_false_r.
    destruct (Z.eqb_spec (ptr - sizeof_MemBlock) NULL); [zlia | reflexivity].
Qed.

(** *** Requests of size zero *)

Lemma dllseg_sizes m bs : forall p n,
  dllseg m p bs n -> Forall (fun b => 0 <= size b) bs.
Proof.
  induction bs as [|b rest IH]; intros p n H; constructor.
  - destruct H as (_ & Hsz & _). rewrite <- Hsz.
    unfold get_size. pose proof (load8_range m (addr b)). lia.
  - destruct H as (_ & _ & _ & _ & _ & H). eauto.
Qed.

Lemma pick_some_stays req bs : forall b0, pick req bs (Some b0) <> None.
Proof.
  induction bs as [|b rest IH]; intros b0; simpl; [discriminate|].
  destruct (_ && _); apply IH.
Qed.

Lemma pick_none_all_used req bs :
  pick req bs None = None -> Forall (fun b => used b <> 0) bs.
Proof.
  induction bs as [|b rest IH]; simpl; intros H; constructor.
  - destruct (Z.eqb_spec (used b) 0); [|assumption].
    simpl in H. exfalso. eapply pick_some_stays; eauto.
  - destruct (Z.eqb_spec (used b) 0); simpl in H; [|auto].
    exfalso. eapply pick_some_stays; eauto.
Qed.

Lemma pick_zero_smallest bs : forall ob b,
  Forall (fun x => 0 <= size x) bs ->
  pick 0 bs ob = Some b ->
  (forall b0, ob = Some b0 -> size b <= size b0)
  /\ (forall x, In x bs -> used x = 0 -> size b <= size x).
Proof.
  induction bs as [|h rest IH]; intros ob b Hsizes Hpick.
  - simpl in Hpick. subst ob. split.
    + intros b0 E. inversion E. lia.
    + intros x [].
  - inversion Hsizes as [|? ? Hh Hrest]; subst. simpl in Hpick.
    apply IH in Hpick; [|assumption]. destruct Hpick as (Hbest & Hall).
    destruct (Z.eqb_spec (used h) 0) as [Hfree|Hused]; simpl in Hbest.
    + destruct ob as [b0|].
      * destruct (Z.ltb_spec (size h) (size b0)); simpl in Hbest.
        -- destruct (Z.geb_spec (size h) 0); [|lia].
           specialize (Hbest h eq_refl). split.
           ++ intros b1 E. inversion E; subst. lia.
           ++ intros x [<-|Hin] Hx; [lia | auto].
        -- specialize (Hbest b0 eq_refl). split.
           ++ intros b1 E. inversion E; subst. lia.
           ++ intros x [<-|Hin] Hx; [lia | auto].
      * specialize (Hbest h eq_refl). split.
        -- intros b1 E. discriminate.
        -- intros x [<-|Hin] Hx; [lia | auto].
    + split.
      * intros b0 E. auto.
      * intros x [<-|Hin] Hx; [contradiction | auto].
Qed.

Lemma find_best_dump m req : forall fuel curr bs best ob,
  dump_from fuel m curr = Some bs -> best_matches m best ob ->
  find_best fuel m req curr best = Some (addr_of (pick req bs ob)).
Proof.
  induction fuel as [|fuel IH]; intros curr bs best ob Hdump Hbest; [discriminate|].
  simpl in Hdump. simpl.
  destruct (Z.eqb_spec curr NULL) as [Hnull|Hnz].
  - inversion Hdump; subst bs. simpl.
    destruct ob as [b0|]; simpl in Hbest; [destruct Hbest as (-> & _)|subst];
      reflexivity.
  - destruct (dump_from fuel m (get_next m curr)) as [l|] eqn:E; [|discriminate].
    inversion Hdump; subst bs. simpl.
    apply (IH _ _ _ _ E).
    destruct ob as [b0|]; simpl in Hbest.
    + destruct Hbest as (-> & Hb0 & Hsz). rewrite Hsz.
      destruct (Z.eqb_spec (addr b0) NULL); [contradiction|]. simpl.
      destruct ((get_used m curr =? 0)
                && ((get_size m curr <? size b0) && (get_size m curr >=? req)));
        simpl; auto.
    + subst best. rewrite Z.eqb_refl. simpl.
      destruct (get_used m curr =? 0); simpl; auto.
Qed.

Lemma dump_listed m : forall fuel curr bs,
  dump_from fuel m curr = Some bs ->
  Forall (fun b => addr b <> NULL /\ 0 <= size b) bs.
Proof.
  induction fuel as [|fuel IH]; intros curr bs Hdump; [discriminate|].
  simpl in Hdump. destruct (Z.eqb_spec curr NULL) as [Hnull|Hnz].
  - inversion Hdump. constructor.
  - destruct (dump_from fuel m (get_next m curr)) as [l|] eqn:E; [|discriminate].
    inversion Hdump; subst bs. constructor; [|eauto].
    simpl. split; [assumption|].
    unfold get_size. pose proof (load8_range m curr). lia.
Qed.

Lemma vs_malloc_of_dump fuel st bs req :
  dump_memory fuel st = Some bs ->
  vs_malloc memory_pool fuel st req =
    match pick req bs None with
    | None => Some (NULL, say st Out_of_memory)
    | Some b =>
        if addr b + sizeof_MemBlock + req >? memory_pool + POOL_SIZE
        then Some (NULL, say st Out_of_memory)
        else Some (addr b + sizeof_MemBlock,
                   with_mem st (grant_mem (mem st) (addr b) req))
    end.
Proof.
  intros Hdump. unfold vs_malloc.
  rewrite (find_best_dump (mem st) req fuel (head st) bs NULL None Hdump eq_refl).
  destruct (pick req bs None) as [b|] eqn:Epick; simpl; [|reflexivity].
  apply pick_In in Epick. destruct Epick as [Epick|(Hin & _)]; [discriminate|].
  pose proof (dump_listed _ _ _ _ Hdump) as Hall.
  rewrite Forall_forall in Hall. destruct (Hall _ Hin) as (Hnz & _).
  destruct (Z.eqb_spec (addr b) NULL); [contradiction|]. simpl.
  reflexivity.
Qed.

(** C10 (amended).  On a freshly initialised pool [vs_malloc(0)]
    returns [memory_pool + sizeof(MemBlock)] without printing, and leaves
    a used block of size 0 followed by a free block of
    [POOL_SIZE - sizeof(MemBlock)] bytes.  In any state whose list
    [dump_memory] can print, [vs_malloc(0)] returns, and it answers
    [Out_of_memory] only when no block is free, or when a smallest free
    block has the end of its header past the end of the pool. *)
Theorem zero_size_request :
  (forall st0 fuel, (2 <= fuel)%nat ->
     exists st1,
       vs_malloc memory_pool fuel (vs_init_allocator memory_pool st0) 0
         = Some (memory_pool + sizeof_MemBlock, st1)
       /\ out st1 = out (vs_init_allocator memory_pool st0)
       /\ forall fuel', (3 <= fuel')%nat ->
            dump_memory fuel' st1
              = Some [(memory_pool, 0, 1);
                      (memory_pool + sizeof_MemBlock,
                       POOL_SIZE - sizeof_MemBlock, 0)])
  /\ (forall st bs fuel,
        dump_memory fuel st = Some bs ->
        exists ptr st',
          vs_malloc memory_pool fuel st 0 = Some (ptr, st')
          /\ (out st' = out st ++ [Out_of_memory] ->
              Forall (fun b => used b <> 0) bs
              \/ exists b,
                   In b bs /\ used b = 0
                   /\ (forall x, In x bs -> used x = 0 -> size b <= size x)
                   /\ memory_pool + POOL_SIZE < addr b + sizeof_MemBlock)).
Proof.
  split.
  - intros st0 fuel Hfuel.
    pose proof (init_well_formed st0) as Hwf.
    pose proof Hwf as (_ & Hblocks & _).
    rewrite (vs_malloc_result fuel _ _ 0 Hblocks) by (simpl; lia).
    change (pick 0 [(memory_pool, POOL_SIZE, 0)] None)
      with (Some (memory_pool, POOL_SIZE, 0)).
    cbv beta iota.
    change (addr (memory_pool, POOL_SIZE, 0)) with memory_pool.
    destruct (Z.gtb_spec (memory_pool + sizeof_MemBlock + 0) (memory_pool + POOL_SIZE));
      [zlia|].
    eexists. split; [reflexivity|]. split; [reflexivity|].
    intros fuel' Hfuel'.
    pose proof (grant_spec _ [] (memory_pool, POOL_SIZE, 0) [] 0 Hwf
                  ltac:(simpl; zlia) ltac:(right; reflexivity)) as Hwf'.
    destruct Hwf' as (_ & (Hhead & Hdll) & _).
    change (addr (memory_pool, POOL_SIZE, 0)) with memory_pool in Hhead, Hdll.
    replace [(memory_pool, 0, 1);
             (memory_pool + sizeof_MemBlock, POOL_SIZE - sizeof_MemBlock, 0)]
      with ([] ++ granted (memory_pool, POOL_SIZE, 0) 0 ++ []).
    + unfold dump_memory. rewrite Hhead.
      apply (dllseg_dump _ _ NULL); [exact Hdll | simpl; lia].
    + unfold granted, resized, POOL_SIZE, sizeof_MemBlock. simpl.
      rewrite Z.add_0_r. reflexivity.
  - intros st bs fuel Hdump.
    rewrite (vs_malloc_of_dump fuel _ _ 0 Hdump).
    pose proof (dump_listed _ _ _ _ Hdump) as Hall.
    assert (Hsizes : Forall (fun x => 0 <= size x) bs).
    { eapply Forall_impl; [|exact Hall]. intros x (_ & Hx). exact Hx. }
    destruct (pick 0 bs None) as [b|] eqn:Epick.
    + pose proof (pick_zero_smallest _ _ _ Hsizes Epick) as (_ & Hsmallest).
      apply pick_In in Epick. destruct Epick as [Epick|(Hin & Hfree)]; [discriminate|].
      destruct (Z.gtb_spec (addr b + sizeof_MemBlock + 0) (memory_pool + POOL_SIZE)).
      * eexists _, _. split; [reflexivity|]. intros _.
        right. exists b. conj_split; auto. lia.
      * eexists _, _. split; [reflexivity|]. simpl. intros Hout.
        exfalso. apply (f_equal (@length message)) in Hout.
        rewrite length_app in Hout. simpl in Hout. lia.
    + eexists _, _. split; [reflexivity|]. intros _.
      left. apply pick_none_all_used with (req := 0). exact Epick.
Qed.

(** *** What the selection and the validation let through *)

Lemma pick_keeps_too_small req bs : forall b0,
  size b0 < req -> pick req bs (Some b0) = Some b0.
Proof.
  induction bs as [|b rest IH]; intros b0 Hsmall; simpl; [reflexivity|].
  replace ((size b <? size b0) && (size b >=? req)) with false.
  - rewrite andb_false_r. apply IH. exact Hsmall.
  - symmetry. apply andb_false_iff.
    destruct (Z.ltb_spec (size b) (size b0)); [right|left; reflexivity].
    destruct (Z.geb_spec (size b) req); [lia|reflexivity].
Qed.

Lemma pick_skips_used req l1 : forall bs,
  Forall (fun b => used b <> 0) l1 ->
  pick req (l1 ++ bs) None = pick req bs None.
Proof.
  induction l1 as [|b rest IH]; intros bs Hused; [reflexivity|].
  inversion Hused as [|? ? Hb Hrest]; subst. simpl.
  destruct (Z.eqb_spec (used b) 0); [contradiction|]. simpl.
  apply IH. exact Hrest.
Qed.

(** Once the first free block is in [best], a later block replaces it
    only when it is smaller and large enough: when the first free block
    is smaller than the request, nothing replaces it and [vs_malloc]
    grants it. *)
Lemma too_small_first_free_block_is_granted fuel st l1 b0 l2 req :
  dump_memory fuel st = Some (l1 ++ b0 :: l2) ->
  Forall (fun b => used b <> 0) l1 -> used b0 = 0 -> size b0 < req ->
  addr b0 + sizeof_MemBlock + req <= memory_pool + POOL_SIZE ->
  exists st',
    vs_malloc memory_pool fuel st req = Some (addr b0 + sizeof_MemBlock, st').
Proof.
  intros Hdump Hused Hfree Hsmall Hroom.
  rewrite (vs_malloc_of_dump fuel _ _ req Hdump).
  rewrite (pick_skips_used _ _ _ Hused). simpl.
  rewrite Hfree. simpl. rewrite (pick_keeps_too_small _ _ _ Hsmall).
  destruct (Z.gtb_spec (addr b0 + sizeof_MemBlock + req) (memory_pool + POOL_SIZE));
    [lia|].
  eexists. reflexivity.
Qed.

(** [vs_free] lets through every address between [head] and the end of
    the pool at which the four bytes of a [used] field are not all
    zero. *)
Lemma vs_free_lets_through st ptr :
  ptr <> NULL -> ptr - sizeof_MemBlock <> NULL ->
  get_used (mem st) (ptr - sizeof_MemBlock) <> 0 ->
  head st <= ptr - sizeof_MemBlock <= memory_pool + POOL_SIZE ->
  out (vs_free memory_pool st ptr) = out st.
Proof.
  intros Hptr Hblock Hused Hrange. unfold vs_free, rejected, out_of_pool.
  destruct (Z.eqb_spec ptr NULL); [contradiction|].
  destruct (Z.eqb_spec (ptr - sizeof_MemBlock) NULL); [contradiction|].
  destruct (Z.eqb_spec (get_used (mem st) (ptr - sizeof_MemBlock)) 0);
    [contradiction|].
  destruct (Z.ltb_spec (ptr - sizeof_MemBlock) (head st)); [lia|].
  destruct (Z.gtb_spec (ptr - sizeof_MemBlock) (memory_pool + POOL_SIZE)); [lia|].
  reflexivity.
Qed.

(** *** What the calls leave alone *)

Lemma split_block_frame m best req x :
  0 < best -> 0 <= req -> best + sizeof_MemBlock + req < SIZE_MODULUS ->
  x < best \/ best + sizeof_MemBlock <= x ->
  x < best + sizeof_MemBlock + req
  \/ best + sizeof_MemBlock + req + sizeof_MemBlock <= x ->
  split_block m best req x = m x.
Proof.
  intros Hbest Hreq Hnew Hx1 Hx2.
  rewrite split_block_chain by assumption. cbv zeta.
  unfold_fields. rewrite !store_outside by lia. reflexivity.
Qed.

Lemma grant_mem_frame m best req x :
  0 < best -> 0 <= req -> best + sizeof_MemBlock + req < SIZE_MODULUS ->
  x < best \/ best + sizeof_MemBlock <= x ->
  (req + sizeof_MemBlock <= get_size m best ->
   x < best + sizeof_MemBlock + req
   \/ best + sizeof_MemBlock + req + sizeof_MemBlock <= x) ->
  grant_mem m best req x = m x.
Proof.
  intros Hbest Hreq Hnew Hx1 Hx2. unfold grant_mem.
  rewrite size_add_small by (unfold_fields; lia).
  destruct (Z.geb_spec (get_size m best) (req + sizeof_MemBlock)).
  - unfold set_size, set_used.
    rewrite !store_outside by (unfold_fields; lia).
    apply split_block_frame; auto; apply Hx2; lia.
  - unfold set_size, set_used.
    rewrite !store_outside by (unfold_fields; lia). reflexivity.
Qed.

Lemma merge_next_frame m a x :
  x < a \/ a + sizeof_MemBlock <= x ->
  (get_next m a <> NULL -> a + sizeof_MemBlock <= get_next m a) ->
  (get_next m a <> NULL -> get_next m (get_next m a) <> NULL ->
   x < get_next m (get_next m a)
   \/ get_next m (get_next m a) + sizeof_MemBlock <= x) ->
  merge_next m a x = m x.
Proof.
  intros Hx Hna Hnn. unfold merge_next.
  destruct (Z.eqb_spec (get_next m a) NULL) as [|Hn]; [reflexivity|].
  cbn [negb andb].
  destruct (get_used m (get_next m a) =? 0); [|reflexivity].
  cbv zeta. specialize (Hnn Hn). specialize (Hna Hn).
  unfold_fields. mem_simpl.
  destruct (Z.eqb_spec (load 8 m (load 8 m (a + 24) + 24)) 0); cbn [negb];
    rewrite !store_outside by lia; reflexivity.
Qed.

Lemma merge_prev_frame m a x :
  (get_prev m a <> NULL ->
   (x < get_prev m a \/ get_prev m a + sizeof_MemBlock <= x)
   /\ (get_prev m a + sizeof_MemBlock <= a
       \/ a + sizeof_MemBlock <= get_prev m a)) ->
  (get_next m a <> NULL ->
   x < get_next m a \/ get_next m a + sizeof_MemBlock <= x) ->
  merge_prev m a x = m x.
Proof.
  intros Hp Hn. unfold merge_prev.
  destruct (Z.eqb_spec (get_prev m a) NULL) as [|Hpz]; [reflexivity|].
  cbn [negb andb].
  destruct (get_used m (get_prev m a) =? 0); [|reflexivity].
  cbv zeta. specialize (Hp Hpz). destruct Hp as (Hpx & Hpa).
  unfold_fields. mem_simpl.
  destruct (Z.eqb_spec (load 8 m (a + 24)) 0); cbn [negb];
    rewrite !store_outside by lia; reflexivity.
Qed.

Lemma last_addr_snoc l0 : forall b0 d, last_addr (l0 ++ [b0]) d = addr b0.
Proof. induction l0 as [|b rest IH]; intros b0 d; simpl; auto. Qed.

Lemma dllseg_links m l1 b l2 :
  dllseg m NULL (l1 ++ b :: l2) NULL ->
  get_prev m (addr b) = last_addr l1 NULL
  /\ get_next m (addr b) = first_addr l2 NULL
  /\ get_used m (addr b) = used b
  /\ get_size m (addr b) = size b.
Proof.
  intros H. apply dllseg_app in H. destruct H as (_ & H).
  simpl in H. tauto.
Qed.

Lemma off_headers_first bs l d x :
  off_headers bs x -> incl l bs -> first_addr l d <> d ->
  x < first_addr l d \/ first_addr l d + sizeof_MemBlock <= x.
Proof.
  intros Hoff Hincl Hne. destruct l as [|b rest]; [contradiction|].
  simpl. apply Hoff. apply Hincl. left. reflexivity.
Qed.

Lemma off_headers_last bs l d x :
  off_headers bs x -> incl l bs -> last_addr l d <> d ->
  x < last_addr l d \/ last_addr l d + sizeof_MemBlock <= x.
Proof.
  intros Hoff Hincl Hne.
  destruct (snoc_case l) as [->|(l0 & b0 & ->)]; [contradiction|].
  rewrite last_addr_snoc. apply Hoff. apply Hincl.
  apply in_or_app. right. left. reflexivity.
Qed.

Lemma ordered_before l1 b l2 lo h :
  ordered lo (l1 ++ b :: l2) h -> last_addr l1 NULL <> NULL ->
  last_addr l1 NULL + sizeof_MemBlock <= addr b.
Proof.
  intros Hord Hne.
  destruct (snoc_case l1) as [->|(l0 & b0 & ->)]; [contradiction|].
  rewrite last_addr_snoc. rewrite <- app_assoc in Hord. simpl in Hord.
  apply ordered_split in Hord. destruct Hord as (_ & _ & _ & Hs & Ho).
  simpl in Ho. unfold_fields. lia.
Qed.

(** A byte within the extent of one block lies in no header of the
    others. *)
Lemma ordered_others_off l1 b l2 lo h x :
  ordered lo (l1 ++ b :: l2) h ->
  addr b <= x < addr b + sizeof_MemBlock + size b ->
  off_headers (l1 ++ l2) x.
Proof.
  intros Hord Hx b' Hin.
  apply ordered_split in Hord. destruct Hord as (mid & Ho1 & Hmid & Hs & Ho2).
  apply in_app_or in Hin. destruct Hin as [Hin|Hin].
  - pose proof (ordered_In _ _ _ _ Ho1 Hin). unfold_fields. lia.
  - pose proof (ordered_In _ _ _ _ Ho2 Hin). unfold_fields. lia.
Qed.

Lemma off_headers_app l1 l2 x :
  off_headers (l1 ++ l2) x <-> off_headers l1 x /\ off_headers l2 x.
Proof.
  unfold off_headers. split.
  - intros H. split; intros b Hb; apply H; apply in_or_app; auto.
  - intros (H1 & H2) b Hb. apply in_app_or in Hb. destruct Hb; auto.
Qed.

Lemma merge_next_frame_list m l1 b l2 x :
  dllseg m NULL (l1 ++ b :: l2) NULL ->
  ordered memory_pool (l1 ++ b :: l2) LIMIT ->
  off_headers (b :: l2) x ->
  merge_next m (addr b) x = m x.
Proof.
  intros Hdll Hord Hoff.
  pose proof (dllseg_links _ _ _ _ Hdll) as (_ & Hn & _).
  apply merge_next_frame.
  - apply Hoff. left. reflexivity.
  - rewrite Hn. intros Hne.
    destruct l2 as [|b2 l3]; [contradiction|]. simpl.
    apply ordered_split in Hord. destruct Hord as (_ & _ & _ & Hs & Ho).
    simpl in Ho. unfold_fields. lia.
  - rewrite Hn. intros Hne.
    destruct l2 as [|b2 l3]; [contradiction|]. simpl.
    replace (l1 ++ b :: b2 :: l3) with ((l1 ++ [b]) ++ b2 :: l3) in Hdll
      by (rewrite <- app_assoc; reflexivity).
    pose proof (dllseg_links _ _ _ _ Hdll) as (_ & Hn2 & _).
    rewrite Hn2. intros Hne2.
    apply (off_headers_first (b :: b2 :: l3)); auto.
    intros y Hy. right. right. exact Hy.
Qed.

Lemma merge_prev_frame_list m l1 b l2 x :
  dllseg m NULL (l1 ++ b :: l2) NULL ->
  ordered memory_pool (l1 ++ b :: l2) LIMIT ->
  off_headers (l1 ++ l2) x ->
  merge_prev m (addr b) x = m x.
Proof.
  intros Hdll Hord Hoff.
  pose proof (dllseg_links _ _ _ _ Hdll) as (Hp & Hn & _).
  apply off_headers_app in Hoff. destruct Hoff as (Hoff1 & Hoff2).
  apply merge_prev_frame.
  - rewrite Hp. intros Hne. split.
    + apply (off_headers_last l1); auto. apply incl_refl.
    + left. eapply ordered_before; eauto.
  - rewrite Hn. intros Hne.
    apply (off_headers_first l2); auto. apply incl_refl.
Qed.

Lemma absorb_next_off b l2 x :
  off_headers (b :: l2) x -> off_headers (absorb_next b l2) x.
Proof.
  intros Hoff. destruct l2 as [|b2 l3]; simpl; [exact Hoff|].
  destruct (used b2 =? 0); [|exact Hoff].
  intros y [<-|Hy].
  - simpl. apply (Hoff b). left. reflexivity.
  - apply Hoff. right. right. exact Hy.
Qed.

Lemma absorb_next_tail_off b l2 x :
  off_headers l2 x ->
  forall b' l3, absorb_next b l2 = b' :: l3 -> off_headers l3 x.
Proof.
  intros Hoff b' l3 E. destruct l2 as [|b2 l4]; simpl in E.
  - inversion E. intros y [].
  - destruct (used b2 =? 0); inversion E; subst.
    + intros y Hy. apply Hoff. right. exact Hy.
    + exact Hoff.
Qed.

Lemma vs_free_valid st l1 a s u l2 :
  well_formed st (l1 ++ (a, s, u) :: l2) -> u <> 0 ->
  vs_free memory_pool st (a + sizeof_MemBlock)
  = with_mem st (merge_prev (merge_next (set_used (mem st) a 0) a) a).
Proof.
  intros (Hfirst & (Hhead & Hdll) & Hord) Hu.
  pose proof (ordered_In _ _ _ (a, s, u) Hord ltac:(apply in_elt)) as (Hlo & Hs & Hhi).
  pose proof (dllseg_links _ _ _ _ Hdll) as (_ & _ & Hused & _).
  simpl in *.
  unfold vs_free, rejected, out_of_pool.
  replace (a + sizeof_MemBlock - sizeof_MemBlock) with a by lia.
  rewrite Hused, Hhead, Hfirst.
  destruct (Z.eqb_spec (a + sizeof_MemBlock) NULL); [unfold_fields; lia|].
  destruct (Z.eqb_spec a NULL); [unfold_fields; lia|].
  destruct (Z.eqb_spec u 0); [contradiction|].
  destruct (Z.ltb_spec a memory_pool); [lia|].
  destruct (Z.gtb_spec a (memory_pool + POOL_SIZE)); [unfold_fields; lia|].
  reflexivity.
Qed.

(** The list after [set_used] and [merge_next], in [vs_free]. *)
Lemma vs_free_halfway st l1 a s u l2 :
  well_formed st (l1 ++ (a, s, u) :: l2) ->
  exists b' l3,
    absorb_next (a, s, 0) l2 = b' :: l3 /\ addr b' = a /\ used b' = 0
    /\ dllseg (merge_next (set_used (mem st) a 0) a) NULL (l1 ++ b' :: l3) NULL
    /\ ordered memory_pool (l1 ++ b' :: l3) LIMIT
    /\ dllseg (set_used (mem st) a 0) NULL (l1 ++ (a, s, 0) :: l2) NULL.
Proof.
  intros (Hfirst & (Hhead & Hdll) & Hord).
  assert (Hord1 : ordered memory_pool (l1 ++ (a, s, 0) :: l2) LIMIT).
  { apply ordered_app in Hord. destruct Hord as (mid' & H1 & H2).
    apply ordered_app. exists mid'. split; [assumption|]. exact H2. }
  pose proof (mark_free _ _ _ _ _ _ Hdll Hord) as Hd1.
  pose proof (merge_next_spec _ _ _ _ Hd1 Hord1) as Hd2. simpl in Hd2.
  destruct (absorb_next_cons (a, s, 0) l2) as (b' & l3 & E & Ea & Eu).
  exists b', l3. rewrite E in Hd2. simpl in Ea, Eu. conj_split; auto.
  rewrite <- E. apply ordered_app in Hord1. destruct Hord1 as (mid' & H1 & H2).
  apply ordered_app. exists mid'. split; [assumption|].
  apply ordered_absorb_next. exact H2.
Qed.

Lemma vs_free_frame st l1 a s u l2 x :
  well_formed st (l1 ++ (a, s, u) :: l2) -> u <> 0 ->
  off_headers (l1 ++ (a, s, u) :: l2) x ->
  mem (vs_free memory_pool st (a + sizeof_MemBlock)) x = mem st x.
Proof.
  intros Hwf Hu Hoff.
  rewrite (vs_free_valid _ _ _ _ _ _ Hwf Hu). cbn [mem with_mem].
  destruct (vs_free_halfway _ _ _ _ _ _ Hwf)
    as (b' & l3 & E & Ea & Eu & Hd2 & Hord2 & Hd1).
  apply off_headers_app in Hoff. destruct Hoff as (Hoff1 & Hoff2).
  assert (Hoffa : x < a \/ a + sizeof_MemBlock <= x).
  { apply (Hoff2 (a, s, u)). left. reflexivity. }
  assert (Hoffl2 : off_headers l2 x).
  { intros y Hy. apply Hoff2. right. exact Hy. }
  rewrite <- Ea.
  rewrite (merge_prev_frame_list _ l1 b' l3); auto.
  2:{ rewrite Ea. exact Hd2. }
  2:{ apply off_headers_app. split; [exact Hoff1|].
      eapply absorb_next_tail_off; eauto. }
  rewrite Ea.
  change a with (addr (a, s, 0)) at 2.
  rewrite (merge_next_frame_list _ l1 (a, s, 0) l2); auto.
  2:{ destruct Hwf as (_ & _ & Hord).
      apply ordered_app in Hord. destruct Hord as (mid' & H1 & H2).
      apply ordered_app. exists mid'. split; [assumption|]. exact H2. }
  2:{ intros y [<-|Hy]; [exact Hoffa | apply Hoffl2; exact Hy]. }
  unfold set_used. rewrite store_outside by (unfold_fields; lia). reflexivity.
Qed.

Lemma payload_off_headers bs lo h b x :
  ordered lo bs h -> In b bs ->
  addr b + sizeof_MemBlock <= x < addr b + sizeof_MemBlock + size b ->
  off_headers bs x.
Proof.
  intros Hord Hin Hx. apply in_split in Hin. destruct Hin as (l1 & l2 & ->).
  pose proof (ordered_others_off l1 b l2 lo h x Hord ltac:(unfold_fields; lia))
    as Hoff.
  apply off_headers_app in Hoff. destruct Hoff as (H1 & H2).
  apply off_headers_app. split; [exact H1|].
  intros y [<-|Hy]; [unfold_fields; lia | apply H2; exact Hy].
Qed.

Lemma vs_malloc_in_bounds fuel st req ptr st' :
  vs_malloc memory_pool fuel st req = Some (ptr, st') -> ptr <> NULL ->
  ptr + req <= memory_pool + POOL_SIZE /\ out st' = out st
  /\ head st' = head st.
Proof.
  unfold vs_malloc. intros Hcall Hptr.
  destruct (find_best fuel (mem st) req (head st) NULL) as [best|];
    [|discriminate].
  destruct (Z.eqb_spec best NULL); simpl in Hcall.
  - inversion Hcall. congruence.
  - destruct (Z.gtb_spec (best + sizeof_MemBlock + req) (memory_pool + POOL_SIZE)).
    + inversion Hcall. congruence.
    + inversion Hcall; subst. simpl. conj_split; auto; lia.
Qed.

Lemma malloc_selected fuel st bs req ptr st' :
  well_formed st bs ->
  vs_malloc memory_pool fuel st req = Some (ptr, st') ->
  (ptr = NULL /\ st' = say st Out_of_memory)
  \/ exists l1 b l2,
       bs = l1 ++ b :: l2 /\ used b = 0 /\ ptr = addr b + sizeof_MemBlock
       /\ addr b + sizeof_MemBlock + req <= memory_pool + POOL_SIZE
       /\ st' = with_mem st (grant_mem (mem st) (addr b) req).
Proof.
  intros Hwf Hcall.
  pose proof Hwf as (Hfirst & Hblocks & Hord).
  apply vs_malloc_fuel with (fuel' := (fuel + S (length bs))%nat) in Hcall; [|lia].
  rewrite (vs_malloc_result _ st bs req Hblocks) in Hcall by lia.
  destruct (pick req bs None) as [b|] eqn:Epick.
  - destruct (Z.gtb_spec (addr b + sizeof_MemBlock + req) (memory_pool + POOL_SIZE)).
    + inversion Hcall. left. auto.
    + inversion Hcall; subst ptr st'. right.
      apply pick_In in Epick. destruct Epick as [Epick|(Hin & Hfree)]; [discriminate|].
      apply in_split in Hin. destruct Hin as (l1 & l2 & ->).
      exists l1, b, l2. conj_split; auto; lia.
  - inversion Hcall. left. auto.
Qed.


(** X2.  [vs_free] of a used block of the list marks it free,
    merges it with the block after it when that one is free, and then
    with the block before it when that one is free; each merge adds the
    size of the absorbed block and of one header.  It prints nothing. *)
Theorem vs_free_coalesces fuel st l1 a s u l2 :
  well_formed st (l1 ++ (a, s, u) :: l2) -> u <> 0 -> (10 <= fuel)%nat ->
  dump_memory fuel (vs_free memory_pool st (a + sizeof_MemBlock))
    = Some (released l1 (a, s, u) l2)
  /\ out (vs_free memory_pool st (a + sizeof_MemBlock)) = out st.
Proof.
  intros Hwf Hu Hfuel.
  destruct (vs_free_spec st l1 a s u l2 Hwf Hu) as (m' & -> & Hwf').
  split; [|reflexivity].
  apply well_formed_dump; assumption.
Qed.

(** X3.  [vs_free] of a used block of the list writes to
    headers only: the payload bytes of every block of the list are as
    before. *)
Theorem vs_free_keeps_every_payload st l1 a s u l2 b x :
  well_formed st (l1 ++ (a, s, u) :: l2) -> u <> 0 ->
  In b (l1 ++ (a, s, u) :: l2) ->
  addr b + sizeof_MemBlock <= x < addr b + sizeof_MemBlock + size b ->
  mem (vs_free memory_pool st (a + sizeof_MemBlock)) x = mem st x.
Proof.
  intros Hwf Hu Hin Hx. apply (vs_free_frame st l1 a s u l2 x); auto.
  destruct Hwf as (_ & _ & Hord).
  eapply payload_off_headers; eauto.
Qed.

Lemma vs_free_clears_flag st l1 a s u l2 :
  well_formed st (l1 ++ (a, s, u) :: l2) -> u <> 0 ->
  get_used (mem (vs_free memory_pool st (a + sizeof_MemBlock))) a = 0.
Proof.
  intros Hwf Hu.
  rewrite (vs_free_valid _ _ _ _ _ _ Hwf Hu). cbn [mem with_mem].
  destruct (vs_free_halfway _ _ _ _ _ _ Hwf)
    as (b' & l3 & E & Ea & Eu & Hd2 & Hord2 & Hd1).
  pose proof (ordered_In _ _ _ b' Hord2 ltac:(apply in_elt)) as (_ & Hs' & _).
  set (m2 := merge_next (set_used (mem st) a 0) a) in *.
  pose proof (dllseg_links _ _ _ _ Hd2) as (_ & _ & Hused & _).
  rewrite Ea, Eu in Hused. rewrite <- Hused.
  unfold get_used. apply load_ext. intros x Hx.
  rewrite <- Ea. apply (merge_prev_frame_list m2 l1 b' l3); auto.
  apply (ordered_others_off l1 b' l3 memory_pool LIMIT); auto.
  rewrite Ea. unfold_fields. simpl in Hx. lia.
Qed.

(** X4.  A second [vs_free] of the same pointer finds the
    [used] flag at 0, prints [Invalid_pointer] and changes nothing
    else. *)
Theorem vs_free_rejects_second_release st l1 a s u l2 :
  well_formed st (l1 ++ (a, s, u) :: l2) -> u <> 0 ->
  vs_free memory_pool (vs_free memory_pool st (a + sizeof_MemBlock))
    (a + sizeof_MemBlock)
  = say (vs_free memory_pool st (a + sizeof_MemBlock)) Invalid_pointer.
Proof.
  intros Hwf Hu.
  pose proof (vs_free_clears_flag _ _ _ _ _ _ Hwf Hu) as Hcleared.
  unfold vs_free at 1. unfold rejected.
  replace (a + sizeof_MemBlock - sizeof_MemBlock) with a by lia.
  rewrite Hcleared.
  destruct (Z.eqb_spec (a + sizeof_MemBlock) NULL); [reflexivity|].
  destruct (a =? NULL); reflexivity.
Qed.

(** *** Requests on a fresh pool *)


Lemma malloc_at_tail fuel st us f req :
  well_formed st (us ++ [f]) ->
  tiled memory_pool (us ++ [f]) LIMIT ->
  Forall (fun b => used b <> 0) us -> used f = 0 ->
  (10 <= fuel)%nat -> 0 <= req < SIZE_MODULUS ->
  (memory_pool + POOL_SIZE < addr f + sizeof_MemBlock + req ->
   vs_malloc memory_pool fuel st req = Some (NULL, say st Out_of_memory))
  /\ (addr f + sizeof_MemBlock + req <= memory_pool + POOL_SIZE ->
      exists st',
        vs_malloc memory_pool fuel st req
          = Some (addr f + sizeof_MemBlock, st')
        /\ out st' = out st
        /\ well_formed st'
             ((us ++ [(addr f, req, 1)])
              ++ [(addr f + sizeof_MemBlock + req,
                   size f - req - sizeof_MemBlock, 0)])
        /\ tiled memory_pool
             ((us ++ [(addr f, req, 1)])
              ++ [(addr f + sizeof_MemBlock + req,
                   size f - req - sizeof_MemBlock, 0)]) LIMIT).
Proof.
  intros Hwf Htiled Hus Hf Hfuel Hreq.
  pose proof (tiled_length _ _ _ Htiled) as Hlen.
  pose proof (tiled_last _ _ _ _ Htiled) as (Hlo & Hs & Hend).
  rewrite (vs_malloc_result fuel st (us ++ [f]) req)
    by (try apply Hwf; unfold_fields; lia).
  rewrite pick_last_free by (auto; discriminate).
  destruct (Z.gtb_spec (addr f + sizeof_MemBlock + req) (memory_pool + POOL_SIZE))
    as [Hoom|Hok].
  - split; [reflexivity | lia].
  - split; [lia|]. intros _.
    eexists. split; [reflexivity|]. split; [reflexivity|].
    assert (Hsplit : granted f req =
              [(addr f, req, 1);
               (addr f + sizeof_MemBlock + req, size f - req - sizeof_MemBlock, 0)]).
    { unfold granted, resized.
      destruct (Z.geb_spec (size f) (req + sizeof_MemBlock)); [reflexivity|].
      unfold_fields. lia. }
    pose proof (grant_spec st us f [] req Hwf
                  ltac:(unfold_fields; lia) ltac:(right; reflexivity)) as Hwf'.
    rewrite Hsplit in Hwf'.
    rewrite <- app_assoc. simpl.
    rewrite app_nil_r in Hwf'. split; [exact Hwf'|].
    apply tiled_app in Htiled. destruct Htiled as (mid & Ht1 & Ht2 & Ht3 & Ht4).
    apply tiled_app. exists mid. split; [assumption|].
    simpl in *. unfold_fields. repeat split; lia.
Qed.

Lemma vs_malloc_all_cons fuel st size rest :
  vs_malloc_all memory_pool fuel st (size :: rest)
  = match vs_malloc memory_pool fuel st size with
    | None => None
    | Some (ptr, st1) =>
        match vs_malloc_all memory_pool fuel st1 rest with
        | None => None
        | Some (ptrs, st2) => Some (ptr :: ptrs, st2)
        end
    end.
Proof. reflexivity. Qed.

Lemma repeated_at_tail fuel n :
  (10 <= fuel)%nat -> 0 <= n < SIZE_MODULUS ->
  forall r st us f,
    well_formed st (us ++ [f]) ->
    tiled memory_pool (us ++ [f]) LIMIT ->
    Forall (fun b => used b <> 0) us -> used f = 0 ->
    addr f + Z.of_nat r * (n + sizeof_MemBlock) <= memory_pool + POOL_SIZE ->
    memory_pool + POOL_SIZE
      < addr f + Z.of_nat r * (n + sizeof_MemBlock) + (n + sizeof_MemBlock) ->
    exists st1,
      vs_malloc_all memory_pool fuel st (repeat n (S r))
        = Some (map (fun i => addr f + sizeof_MemBlock
                              + Z.of_nat i * (n + sizeof_MemBlock)) (seq 0 r)
                ++ [NULL], st1)
      /\ out st1 = out st ++ [Out_of_memory].
Proof.
  intros Hfuel Hn. induction r as [|r IH]; intros st us f Hwf Htiled Hus Hf Hlast Hnext.
  - destruct (malloc_at_tail fuel st us f n Hwf Htiled Hus Hf Hfuel Hn)
      as (Hoom & _).
    change (repeat n 1) with [n].
    rewrite vs_malloc_all_cons, Hoom by lia. eexists. split; reflexivity.
  - destruct (malloc_at_tail fuel st us f n Hwf Htiled Hus Hf Hfuel Hn)
      as (_ & Hok).
    destruct Hok as (st' & E & Hout & Hwf' & Htiled'); [nia|].
    destruct (IH st' (us ++ [(addr f, n, 1)])
                (addr f + sizeof_MemBlock + n, size f - n - sizeof_MemBlock, 0)
                Hwf' Htiled')
      as (st1 & E1 & Hout1).
    + apply Forall_app. split; [assumption|].
      constructor; [simpl; lia | constructor].
    + reflexivity.
    + simpl. lia.
    + simpl. lia.
    + exists st1. split; [|congruence].
      change (repeat n (S (S r))) with (n :: repeat n (S r)).
      rewrite vs_malloc_all_cons, E, E1.
      f_equal. f_equal.
      change (seq 0 (S r)) with (0%nat :: seq 1 r).
      rewrite <- seq_shift, map_cons, map_map. cbn [app].
      f_equal; [cbn [Z.of_nat]; lia|]. f_equal.
      apply map_ext. intros i. cbn [addr fst]. lia.
Qed.


(** *** Which block is selected *)

Lemma pick_best_fit req bs : forall b0 b,
  req <= size b0 -> pick req bs (Some b0) = Some b ->
  (b = b0
   /\ forall x, In x bs -> used x = 0 -> req <= size x -> size b0 <= size x)
  \/ (exists l3 l4,
        bs = l3 ++ b :: l4 /\ used b = 0 /\ req <= size b
        /\ size b < size b0
        /\ (forall x, In x l3 -> used x = 0 -> req <= size x ->
              size b < size x)
        /\ (forall x, In x l4 -> used x = 0 -> req <= size x ->
              size b <= size x)).
Proof.
  induction bs as [|h rest IH]; intros b0 b Hfit Hpick.
  - simpl in Hpick. inversion Hpick; subst. left. split; [reflexivity|].
    intros x [].
  - simpl in Hpick.
    destruct (Z.eqb_spec (used h) 0) as [Hfree|Hused];
      [destruct (Z.ltb_spec (size h) (size b0)) as [Hlt|Hge];
       [destruct (Z.geb_spec (size h) req) as [Hbig|Hsmall]|]|];
      simpl in Hpick.
    + (* [h] replaces [b0] *)
      destruct (IH h b ltac:(lia) Hpick)
        as [(-> & Hmin)|(l3 & l4 & -> & Hb & Hbfit & Hblt & Hl3 & Hl4)].
      * right. exists [], rest. conj_split; auto; try lia.
        intros x [].
      * right. exists (h :: l3), l4. conj_split; auto; try lia.
        intros x [<-|Hx]; [lia | auto].
    + destruct (IH b0 b Hfit Hpick)
        as [(-> & Hmin)|(l3 & l4 & -> & Hb & Hbfit & Hblt & Hl3 & Hl4)].
      * left. split; [reflexivity|].
        intros x [<-|Hx]; [lia | auto].
      * right. exists (h :: l3), l4. conj_split; auto.
        intros x [<-|Hx]; [lia | auto].
    + destruct (IH b0 b Hfit Hpick)
        as [(-> & Hmin)|(l3 & l4 & -> & Hb & Hbfit & Hblt & Hl3 & Hl4)].
      * left. split; [reflexivity|].
        intros x [<-|Hx]; [lia | auto].
      * right. exists (h :: l3), l4. conj_split; auto.
        intros x [<-|Hx]; [lia | auto].
    + destruct (IH b0 b Hfit Hpick)
        as [(-> & Hmin)|(l3 & l4 & -> & Hb & Hbfit & Hblt & Hl3 & Hl4)].
      * left. split; [reflexivity|].
        intros x [<-|Hx]; [contradiction | auto].
      * right. exists (h :: l3), l4. conj_split; auto.
        intros x [<-|Hx]; [contradiction | auto].
Qed.



(** *** A request and its release *)

Lemma absorb_prev_keeps l1 b l3 :
  last_free false l1 = false ->
  absorb_prev l1 (b :: l3) = l1 ++ b :: l3.
Proof.
  intros Hlast.
  destruct (snoc_case l1) as [->|(l0 & b0 & ->)]; [reflexivity|].
  rewrite absorb_prev_snoc. rewrite last_free_app in Hlast. simpl in Hlast.
  rewrite Hlast. rewrite <- app_assoc. reflexivity.
Qed.


(** *** What [vs_realloc] does to the payload *)

Lemma carve_remainder_frame m a new x :
  0 <= new ->
  x < a \/ a + sizeof_MemBlock <= x ->
  x < a + sizeof_MemBlock + new
  \/ a + sizeof_MemBlock + new + sizeof_MemBlock <= x ->
  (get_next m a <> NULL ->
   x < get_next m a \/ get_next m a + sizeof_MemBlock <= x) ->
  carve_remainder m a new x = m x.
Proof.
  intros Hnew Hxa Hxrem Hxn. unfold carve_remainder. cbv zeta.
  unfold_fields. mem_simpl.
  destruct (Z.eqb_spec (load 8 m (a + 24)) 0); cbn [negb];
    rewrite !store_outside by lia; reflexivity.
Qed.

Lemma realloc_shrink_eq fuel st l1 a s u l2 new :
  well_formed st (l1 ++ (a, s, u) :: l2) ->
  0 < new < s ->
  vs_realloc memory_pool expand_marks_used fuel st (a + sizeof_MemBlock) new
  = Some (a + sizeof_MemBlock,
          with_mem st
            (set_size
               (if s - new >=? sizeof_MemBlock
                then carve_remainder (mem st) a new else mem st) a new)).
Proof.
  intros (Hfirst & (Hhead & Hdll) & Hord) Hnew.
  pose proof (ordered_In _ _ _ (a, s, u) Hord ltac:(apply in_elt)) as (Hlo & Hs & Hhi).
  pose proof (dllseg_links _ _ _ _ Hdll) as (_ & _ & _ & Hsz).
  simpl in *.
  unfold vs_realloc.
  replace (a + sizeof_MemBlock - sizeof_MemBlock) with a by lia.
  destruct (Z.eqb_spec (a + sizeof_MemBlock) NULL); [unfold_fields; lia|].
  destruct (Z.leb_spec new 0); [lia|].
  rewrite Hsz. destruct (Z.ltb_spec new s); [|lia].
  rewrite size_sub_small by (unfold_fields; lia).
  reflexivity.
Qed.

(** X10.  [vs_realloc] to a smaller size, at least 1, returns the
    same pointer and prints nothing; the block gets the new size, the
    rest becomes a free block when it has room for a header, and the
    first [new_size] bytes of the payload are as before. *)
Theorem shrink_in_place_keeps_data fuel fuel' st l1 a s u l2 new :
  well_formed st (l1 ++ (a, s, u) :: l2) -> 0 < new < s ->
  (10 <= fuel')%nat ->
  exists st',
    vs_realloc memory_pool expand_marks_used fuel st (a + sizeof_MemBlock) new
      = Some (a + sizeof_MemBlock, st')
    /\ out st' = out st
    /\ dump_memory fuel' st' = Some (l1 ++ resized (a, s, u) new u ++ l2)
    /\ forall x, a + sizeof_MemBlock <= x < a + sizeof_MemBlock + new ->
         mem st' x = mem st x.
Proof.
  intros Hwf Hnew Hfuel.
  destruct (realloc_shrink_spec fuel st l1 a s u l2 new Hwf Hnew)
    as (m' & E & Hwf').
  pose proof (realloc_shrink_eq fuel st l1 a s u l2 new Hwf Hnew) as E2.
  rewrite E2 in E. injection E as Em.
  exists (with_mem st m'). rewrite E2, Em.
  conj_split; try reflexivity.
  - apply well_formed_dump; assumption.
  - intros x Hx. cbn [mem with_mem]. rewrite <- Em.
    pose proof Hwf as (_ & (_ & Hdll) & Hord).
    pose proof (dllseg_links _ _ _ _ Hdll) as (_ & Hn & _).
    cbn [addr fst] in Hn.
    unfold set_size. rewrite store_outside by (unfold_fields; lia).
    destruct (s - new >=? sizeof_MemBlock); [|reflexivity].
    apply carve_remainder_frame; try (unfold_fields; lia).
    rewrite Hn. intros Hne.
    destruct l2 as [|b2 l3]; [contradiction|]. cbn [first_addr].
    apply ordered_split in Hord. destruct Hord as (_ & _ & _ & _ & Ho).
    simpl in Ho. unfold_fields. lia.
Qed.

Lemma realloc_expand_eq fuel st l1 a s u a2 s2 l3 new :
  well_formed st (l1 ++ (a, s, u) :: (a2, s2, 0) :: l3) ->
  0 < new -> s <= new -> new <= s + s2 ->
  vs_realloc memory_pool expand_marks_used fuel st (a + sizeof_MemBlock) new
  = Some (a + sizeof_MemBlock,
          with_mem st
            (let m := set_size
                        (carve_remainder (merge_next (mem st) a) a new) a new in
             if expand_marks_used then set_used m a 1 else m)).
Proof.
  intros (Hfirst & (Hhead & Hdll) & Hord) Hpos Hge Hle.
  pose proof (ordered_In _ _ _ (a, s, u) Hord ltac:(apply in_elt)) as (Hlo & Hs & Hhi).
  pose proof Hord as Hord0.
  apply ordered_split in Hord0. destruct Hord0 as (mid & Ho1 & Hmid & _ & Ho2).
  simpl in Ho2. destruct Ho2 as (Hlo2 & Hs2 & Ho3).
  pose proof (ordered_bounds _ _ _ Ho3) as Hb3.
  pose proof Hdll as Hdll0.
  apply dllseg_app in Hdll0. destruct Hdll0 as (_ & Hd2).
  simpl in Hd2. destruct Hd2 as (Ha & Hsz & Hu & Hp & Hn & Ha2 & Hsz2 & Hu2 & _).
  simpl in *.
  assert (Hcond : negb (get_next (mem st) a =? NULL)
                  && (get_used (mem st) (get_next (mem st) a) =? 0) = true).
  { rewrite Hn, Hu2. destruct (Z.eqb_spec a2 NULL); [contradiction | reflexivity]. }
  unfold vs_realloc.
  replace (a + sizeof_MemBlock - sizeof_MemBlock) with a by lia.
  destruct (Z.eqb_spec (a + sizeof_MemBlock) NULL); [unfold_fields; lia|].
  destruct (Z.leb_spec new 0); [zlia|].
  rewrite Hsz. destruct (Z.ltb_spec new s); [zlia|].
  unfold can_expand. rewrite Hcond. rewrite Hsz, Hn, Hsz2.
  rewrite (size_add_small s s2) by (unfold_fields; lia).
  rewrite size_add_small by (unfold_fields; lia).
  destruct (Z.geb_spec (s + s2 + sizeof_MemBlock) new); [|zlia]. simpl.
  unfold expand_in_place, merge_next. rewrite Hcond. reflexivity.
Qed.

(** X11.  When the block after a used block is free and the two
    together exceed the new size by at least a header, [vs_realloc]
    grows the block in place: it returns the same pointer, prints
    nothing, the block gets the new size, the rest of the neighbour
    stays a free block, and the payload the block had is as before. *)
Theorem expand_in_place_keeps_data fuel fuel' st l1 a s u a2 s2 l3 new :
  well_formed st (l1 ++ (a, s, u) :: (a2, s2, 0) :: l3) ->
  0 < new -> s <= new -> new <= s + s2 ->
  (10 <= fuel')%nat ->
  exists st',
    vs_realloc memory_pool expand_marks_used fuel st (a + sizeof_MemBlock) new
      = Some (a + sizeof_MemBlock, st')
    /\ out st' = out st
    /\ dump_memory fuel' st'
       = Some (l1 ++ [(a, new, if expand_marks_used then 1 else u);
                      (a + sizeof_MemBlock + new, s + s2 - new, 0)] ++ l3)
    /\ forall x, a + sizeof_MemBlock <= x < a + sizeof_MemBlock + s ->
         mem st' x = mem st x.
Proof.
  intros Hwf Hpos Hge Hle Hfuel.
  destruct (realloc_expand_spec fuel st l1 a s u a2 s2 l3 new Hwf Hpos Hge Hle)
    as (m' & E & Hwf').
  pose proof (realloc_expand_eq fuel st l1 a s u a2 s2 l3 new Hwf Hpos Hge Hle)
    as E2.
  cbv zeta in E2. rewrite E2 in E. injection E as Em.
  exists (with_mem st m'). rewrite E2, Em.
  pose proof Hwf as (_ & (_ & Hdll) & Hord).
  pose proof (ordered_In _ _ _ (a, s, u) Hord ltac:(apply in_elt))
    as (Hlo & Hs & Hhi).
  pose proof Hord as Hord0.
  apply ordered_split in Hord0. destruct Hord0 as (_ & _ & _ & _ & Ho2).
  simpl in Ho2. destruct Ho2 as (Hlo2 & Hs2 & Ho3).
  conj_split; try reflexivity.
  - rewrite (well_formed_dump _ _ fuel' Hwf' Hfuel). do 2 f_equal.
    unfold resized. cbn [addr size fst snd].
    destruct (Z.geb_spec (s + s2 + sizeof_MemBlock) (new + sizeof_MemBlock));
      [|lia].
    replace (s + s2 + sizeof_MemBlock - new - sizeof_MemBlock)
      with (s + s2 - new) by lia.
    reflexivity.
  - intros x Hx. cbn [mem with_mem]. rewrite <- Em.
    assert (Hinner : set_size
                       (carve_remainder (merge_next (mem st) a) a new) a new x
                     = mem st x).
    { unfold set_size. rewrite store_outside by (unfold_fields; lia).
      pose proof (merge_next_spec _ _ _ _ Hdll Hord) as Hmerge.
      cbn [addr fst absorb_next used snd] in Hmerge.
      cbn [Z.eqb] in Hmerge.
      pose proof (dllseg_links _ _ _ _ Hmerge) as (_ & Hn & _).
      cbn [addr fst] in Hn.
      rewrite carve_remainder_frame; try (unfold_fields; lia).
      - change a with (addr (a, s, u)) at 1.
        apply (merge_next_frame_list _ l1 (a, s, u) ((a2, s2, 0) :: l3));
          auto.
        intros y [<-|[<-|Hy]]; cbn [addr fst].
        + unfold_fields. lia.
        + unfold_fields. simpl in *. lia.
        + pose proof (ordered_In _ _ _ _ Ho3 Hy). unfold_fields. simpl in *. lia.
      - rewrite Hn. intros Hne.
        destruct l3 as [|b3 l4]; [contradiction|]. cbn [first_addr].
        simpl in Ho3. unfold_fields. simpl in *. lia. }
    destruct expand_marks_used; [|exact Hinner].
    unfold set_used. rewrite store_outside by (unfold_fields; lia).
    exact Hinner.
Qed.

Lemma extents_disjoint bs lo h b1 b2 :
  ordered lo bs h -> In b1 bs -> In b2 bs -> b1 <> b2 ->
  addr b1 + sizeof_MemBlock + size b1 <= addr b2
  \/ addr b2 + sizeof_MemBlock + size b2 <= addr b1.
Proof.
  intros Hord H1 H2 Hne. apply in_split in H1. destruct H1 as (l1 & l2 & ->).
  apply ordered_split in Hord. destruct Hord as (mid & Ho1 & Hmid & Hs & Ho2).
  apply in_app_or in H2. destruct H2 as [H2|[H2|H2]].
  - right. pose proof (ordered_In _ _ _ _ Ho1 H2). lia.
  - congruence.
  - left. pose proof (ordered_In _ _ _ _ Ho2 H2). lia.
Qed.

Lemma absorb_next_keeps_used b l2 x :
  In x l2 -> used x <> 0 -> In x (absorb_next b l2).
Proof.
  destruct l2 as [|b2 l3]; [intros []|]. simpl.
  intros [Hb2|Hx] Hu; destruct (Z.eqb_spec (used b2) 0).
  - subst b2. contradiction.
  - right. left. exact Hb2.
  - right. exact Hx.
  - right. right. exact Hx.
Qed.

Lemma absorb_prev_keeps_used l1 y l3 x :
  used y = 0 -> In x (l1 ++ y :: l3) -> used x <> 0 ->
  In x (absorb_prev l1 (y :: l3)).
Proof.
  intros Hy Hin Hu.
  destruct (snoc_case l1) as [->|(l0 & p & ->)]; [exact Hin|].
  rewrite absorb_prev_snoc. rewrite <- app_assoc in Hin.
  apply in_app_or in Hin. apply in_or_app.
  destruct Hin as [Hin|[Hp|[Hyx|Hin]]].
  - left. exact Hin.
  - right. subst p. destruct (Z.eqb_spec (used x) 0); [contradiction|].
    left. reflexivity.
  - subst y. contradiction.
  - right. destruct (used p =? 0); [right | right; right]; exact Hin.
Qed.

Lemma released_keeps_used l1 b l2 x :
  In x (l1 ++ l2) -> used x <> 0 -> In x (released l1 b l2).
Proof.
  intros Hin Hu. unfold released.
  destruct (absorb_next_cons (addr b, size b, 0) l2) as (b' & l3 & E & _ & Eu).
  rewrite E. apply absorb_prev_keeps_used; auto.
  apply in_app_or in Hin. apply in_or_app.
  destruct Hin as [Hin|Hin]; [left; exact Hin | right].
  rewrite <- E. apply absorb_next_keeps_used; auto.
Qed.


(** *** Payloads stay within the pool *)

Lemma absorb_next_used b l2 x :
  used b = 0 -> In x (absorb_next b l2) -> used x <> 0 -> In x l2.
Proof.
  intros Hb. destruct l2 as [|b2 l3]; simpl.
  - intros [Hx|[]] Hu. subst x. contradiction.
  - destruct (used b2 =? 0); simpl.
    + intros [Hx|Hx] Hu; [subst x; simpl in Hu; contradiction | right; exact Hx].
    + intros [Hx|Hx] Hu; [subst x; contradiction | exact Hx].
Qed.

Lemma absorb_prev_used l1 y l3 x :
  In x (absorb_prev l1 (y :: l3)) -> used x <> 0 -> In x (l1 ++ y :: l3).
Proof.
  destruct (snoc_case l1) as [->|(l0 & p & ->)]; [auto|].
  rewrite absorb_prev_snoc. rewrite <- app_assoc. simpl.
  intros Hin Hu. apply in_app_or in Hin. apply in_or_app.
  destruct Hin as [Hin|Hin]; [left; exact Hin | right].
  destruct (Z.eqb_spec (used p) 0) as [Hp|Hp].
  - destruct Hin as [Hx|Hx]; [subst x; simpl in Hu; contradiction|].
    right. right. exact Hx.
  - exact Hin.
Qed.

Lemma released_used l1 b l2 x :
  In x (released l1 b l2) -> used x <> 0 -> In x (l1 ++ l2).
Proof.
  unfold released. intros Hin Hu.
  destruct (absorb_next_cons (addr b, size b, 0) l2) as (b' & l3 & E & _ & Eu).
  rewrite E in Hin. apply absorb_prev_used in Hin; [|exact Hu].
  apply in_app_or in Hin. apply in_or_app.
  destruct Hin as [Hin|Hin]; [left; exact Hin | right].
  rewrite <- E in Hin. apply absorb_next_used in Hin; auto.
Qed.

Lemma payloads_released limit l1 b l2 :
  payloads_inside limit (l1 ++ b :: l2) ->
  payloads_inside limit (released l1 b l2).
Proof.
  intros H x Hx Hu. apply H; [|exact Hu].
  apply released_used in Hx; [|exact Hu].
  apply in_app_or in Hx. apply in_or_app.
  destruct Hx; [left | right; right]; assumption.
Qed.

Lemma payloads_around limit l1 (bs : list block) l2 :
  payloads_inside limit (l1 ++ bs ++ l2) ->
  payloads_inside limit (l1 ++ l2).
Proof.
  intros H x Hx Hu. apply H; [|exact Hu].
  apply in_app_or in Hx. apply in_or_app.
  destruct Hx; [left | right; apply in_or_app; right]; assumption.
Qed.

Lemma payloads_resized limit l1 b l2 new u' :
  payloads_inside limit (l1 ++ l2) ->
  (u' <> 0 -> addr b + sizeof_MemBlock + new <= limit) ->
  payloads_inside limit (l1 ++ resized b new u' ++ l2).
Proof.
  intros H Hnew x Hx Hu.
  apply in_app_or in Hx. destruct Hx as [Hx|Hx].
  - apply H; [apply in_or_app; left; exact Hx | exact Hu].
  - apply in_app_or in Hx. destruct Hx as [Hx|Hx].
    + unfold resized in Hx.
      destruct (size b >=? new + sizeof_MemBlock); simpl in Hx.
      * destruct Hx as [Hx|[Hx|[]]]; subst x; simpl in *; [auto | contradiction].
      * destruct Hx as [Hx|[]]; subst x; simpl in *; auto.
    + apply H; [apply in_or_app; right; exact Hx | exact Hu].
Qed.

Local Abbreviation safe st :=
  (exists bs, well_formed st bs
              /\ payloads_inside (memory_pool + POOL_SIZE) bs).

Lemma malloc_step_safe fuel st req ptr st' :
  safe st -> 0 <= req < SIZE_MODULUS ->
  vs_malloc memory_pool fuel st req = Some (ptr, st') ->
  fits st req ptr ->
  safe st'.
Proof.
  intros (bs & Hwf & Hin) Hreq Hcall Hfits.
  destruct (malloc_granted _ _ _ _ _ _ Hwf Hreq Hcall Hfits)
    as [(_ & ->)|(l1 & b & l2 & -> & Hfree & Hptr & _ & _ & Hwf')].
  - exists bs. auto.
  - exists (l1 ++ granted b req ++ l2). split; [assumption|].
    pose proof Hwf as (_ & _ & Hord).
    pose proof (ordered_In _ _ _ b Hord ltac:(apply in_elt)) as (Hlo & _).
    assert (Hnz : ptr <> NULL) by (unfold_fields; lia).
    pose proof (vs_malloc_in_bounds _ _ _ _ _ Hcall Hnz) as (Hend & _).
    apply payloads_resized; [|intros _; lia].
    apply (payloads_around _ l1 [b] l2). exact Hin.
Qed.

Lemma free_step_safe st ptr :
  safe st -> valid_handle st ptr -> safe (vs_free memory_pool st ptr).
Proof.
  intros (bs & Hwf & Hin) Hvalid.
  destruct (valid_handle_split _ _ _ Hwf Hvalid)
    as (l1 & a & s & u & l2 & -> & Hu & ->).
  destruct (vs_free_spec st l1 a s u l2 Hwf Hu) as (m' & -> & Hwf').
  exists (released l1 (a, s, u) l2). split; [assumption|].
  apply payloads_released. exact Hin.
Qed.

Lemma relocate_step_safe st l1 b l2 a s u new :
  well_formed st (l1 ++ granted b new ++ l2) ->
  payloads_inside (memory_pool + POOL_SIZE) (l1 ++ granted b new ++ l2) ->
  In (a, s, u) (l1 ++ granted b new ++ l2) -> u <> 0 -> s <= new ->
  safe
    (vs_free memory_pool
       (with_mem st (memcpy (mem st) (addr b + sizeof_MemBlock)
                       (a + sizeof_MemBlock) (get_size (mem st) a)))
       (a + sizeof_MemBlock)).
Proof.
  intros Hwf Hinside Hin Hu Hle.
  set (bs1 := l1 ++ granted b new ++ l2) in *.
  pose proof Hin as Hsplit. apply in_split in Hsplit.
  destruct Hsplit as (k1 & k2 & Hk).
  assert (Hsz : get_size (mem st) a = s).
  { rewrite Hk in Hwf. apply well_formed_header in Hwf. tauto. }
  rewrite Hsz.
  assert (Hwf2 : well_formed
                   (with_mem st (memcpy (mem st) (addr b + sizeof_MemBlock)
                                   (a + sizeof_MemBlock) s)) bs1).
  { destruct Hwf as (Hfirst & (Hhead & Hdll) & Hord).
    split; [assumption|]. split; [|assumption]. split; [exact Hhead|]. simpl.
    assert (Hg : exists tl, bs1 = l1 ++ (addr b, new, 1) :: tl).
    { subst bs1. unfold granted, resized.
      destruct (size b >=? new + sizeof_MemBlock); simpl; eauto. }
    destruct Hg as (tl & Hg). rewrite Hg in *.
    apply memcpy_payload; auto. }
  rewrite Hk in Hwf2.
  destruct (vs_free_spec _ k1 a s u k2 Hwf2 Hu) as (m' & -> & Hwf3).
  exists (released k1 (a, s, u) k2). split; [assumption|].
  rewrite Hk in Hinside. apply payloads_released. exact Hinside.
Qed.

Lemma realloc_step_safe fuel st ptr new result st' :
  safe st ->
  0 <= new < SIZE_MODULUS ->
  vs_realloc memory_pool expand_marks_used fuel st ptr new = Some (result, st') ->
  resize_by_design false st ptr new result ->
  safe st'.
Proof.
  intros Hsafe Hnew Hcall Hguard.
  unfold resize_by_design in Hguard.
  destruct (Z.eqb_spec ptr NULL) as [Hnull|Hnonnull].
  { unfold vs_realloc in Hcall. subst ptr. simpl in Hcall.
    eapply malloc_step_safe; eauto. }
  destruct Hguard as (Hvalid & Hguard).
  destruct (Z.leb_spec new 0) as [Hzero|Hpos].
  { unfold vs_realloc in Hcall.
    destruct (Z.eqb_spec ptr NULL); [contradiction|].
    destruct (Z.leb_spec new 0); [|lia].
    inversion Hcall; subst. apply free_step_safe; auto. }
  pose proof Hsafe as (bs & Hwf & Hinside).
  destruct (valid_handle_split _ _ _ Hwf Hvalid)
    as (l1 & a & s & u & l2 & -> & Hu & ->).
  pose proof (well_formed_header _ _ _ _ _ _ Hwf) as (Ha & Hsz & Hused & Hn & Hd3).
  pose proof Hwf as (_ & _ & Hord).
  cbv zeta in Hguard.
  replace (a + sizeof_MemBlock - sizeof_MemBlock) with a in Hguard by lia.
  rewrite Hsz in Hguard.
  assert (Hself : a + sizeof_MemBlock + s <= memory_pool + POOL_SIZE).
  { apply (Hinside (a, s, u)); [apply in_elt | exact Hu]. }
  destruct (Z.ltb_spec new s) as [Hshrink|Hgrow].
  - (* shrink in place *)
    destruct (realloc_shrink_spec fuel st l1 a s u l2 new Hwf ltac:(lia))
      as (m' & E & Hwf').
    rewrite E in Hcall. inversion Hcall; subst result st'.
    eexists. split; [exact Hwf'|].
    apply payloads_resized; [|intros _; simpl; lia].
    apply (payloads_around _ l1 [(a, s, u)] l2). exact Hinside.
  - destruct (can_expand (mem st) a new) eqn:Hexp.
    + (* expand in place *)
      unfold can_expand in Hexp. rewrite Hn in Hexp, Hguard.
      destruct l2 as [|[[a2 s2] u2] l3];
        [simpl in Hexp; discriminate|].
      pose proof Hd3 as (Ha2 & Hsz2 & Hu2 & _).
      simpl in *. rewrite Hu2, Hsz2 in *.
      destruct (Z.eqb_spec u2 0) as [->|];
        [|rewrite andb_false_r in Hexp; discriminate].
      destruct (realloc_expand_spec fuel st l1 a s u a2 s2 l3 new Hwf
                  ltac:(lia) ltac:(lia) ltac:(lia))
        as (m' & E & Hwf').
      rewrite E in Hcall. inversion Hcall; subst result st'.
      eexists. split; [exact Hwf'|].
      apply ordered_split in Hord. destruct Hord as (_ & _ & _ & _ & Ho2).
      simpl in Ho2. destruct Ho2 as (Hlo2 & Hs2 & Ho3).
      apply ordered_bounds in Ho3.
      apply payloads_resized.
      * apply (payloads_around _ l1 [(a, s, u); (a2, s2, 0)] l3). exact Hinside.
      * intros _. simpl. unfold_fields. lia.
    + (* fallback *)
      unfold vs_realloc in Hcall.
      destruct (Z.eqb_spec (a + sizeof_MemBlock) NULL); [contradiction|].
      destruct (Z.leb_spec new 0); [lia|].
      replace (a + sizeof_MemBlock - sizeof_MemBlock) with a in Hcall by lia.
      rewrite Hsz, Hexp in Hcall.
      destruct (Z.ltb_spec new s); [lia|].
      destruct (vs_malloc memory_pool fuel st new) as [[np st1]|] eqn:Emalloc;
        [|discriminate].
      destruct (Z.eqb_spec np NULL) as [Hnp|Hnp].
      * inversion Hcall; subst result st1.
        eapply malloc_step_safe; eauto.
      * inversion Hcall; subst result st'. clear Hcall.
        pose proof (vs_malloc_in_bounds _ _ _ _ _ Emalloc Hnp) as (Hend & _).
        destruct (malloc_granted _ _ _ _ _ _ Hwf Hnew Emalloc Hguard)
          as [(Hcontra & _)|(k1 & b & k2 & Hk & Hfree & -> & Hreq & -> & Hwf1)];
          [contradiction|].
        assert (Hin : In (a, s, u) (k1 ++ granted b new ++ k2)).
        { assert (Hin0 : In (a, s, u) (k1 ++ b :: k2))
            by (rewrite <- Hk; apply in_elt).
          apply in_app_or in Hin0. apply in_or_app.
          destruct Hin0 as [Hin0|[Hin0|Hin0]]; [left; assumption | | right].
          - subst b. simpl in Hfree. contradiction.
          - apply in_or_app. right. assumption. }
        apply (relocate_step_safe _ k1 b k2 a s u new Hwf1); auto.
        apply payloads_resized; [|intros _; lia].
        apply (payloads_around _ k1 [b] k2). cbn [app].
        rewrite <- Hk. exact Hinside.
Qed.

Lemma reachable_safe st :
  reachable memory_pool expand_marks_used false st -> safe st.
Proof.
  induction 1 as [st0|st fuel req ptr st' _ IH Hreq Hcall Hfits
                  |st ptr _ IH Hvalid
                  |st fuel ptr new result st' _ IH Hnew Hcall Hguard].
  - exists [(memory_pool, POOL_SIZE, 0)]. split; [apply init_well_formed|].
    intros b [<-|[]] Hu. simpl in Hu. contradiction.
  - eapply malloc_step_safe; eauto.
  - apply free_step_safe; auto.
  - eapply realloc_step_safe; eauto.
Qed.


End Proofs.

(** *** The claims at a concrete pool *)

Ltac by_computation :=
  vm_compute;
  first [ reflexivity | discriminate | (intro; discriminate)
        | (split; by_computation) ].


Lemma example_run_by_design c :
  reachable example_pool true c after_free_of_second.
Proof.
  apply reach_free.
  - apply reach_malloc
      with (st := after_second_malloc) (fuel := 10%nat) (size := 8)
           (ptr := example_pool + 128).
    + apply reach_malloc
        with (st := after_first_malloc) (fuel := 10%nat) (size := 16)
             (ptr := example_pool + 80).
      * apply reach_malloc
          with (st := fresh) (fuel := 10%nat) (size := 16)
               (ptr := example_pool + 32).
        -- apply reach_init.
        -- by_computation.
        -- vm_compute. reflexivity.
        -- right. by_computation.
      * by_computation.
      * vm_compute. reflexivity.
      * right. by_computation.
    + by_computation.
    + vm_compute. reflexivity.
    + right. by_computation.
  - exists 10%nat,
      [(4096, 16, 1); (4144, 16, 1); (4192, 8, 1); (4232, 120, 0)], 16, 1.
    split; [vm_compute; reflexivity|].
    split; [right; left; reflexivity | discriminate].
Qed.

Lemma block_list_stays_ordered_witness :
  exists bs,
    (forall fuel, (10 <= fuel)%nat ->
       dump_memory fuel after_free_of_second = Some bs)
    /\ head after_free_of_second = example_pool
    /\ first_addr bs NULL = example_pool
    /\ address_ordered bs.
Proof.
  apply (block_list_stays_ordered example_pool true).
  - reflexivity.
  - reflexivity.
  - apply example_run_by_design.
Defined.

Lemma no_adjacent_free_after_calls_witness :
  exists bs,
    (forall fuel, (10 <= fuel)%nat ->
       dump_memory fuel after_free_of_second = Some bs)
    /\ no_adjacent_free bs.
Proof.
  apply (no_adjacent_free_after_calls example_pool true).
  - reflexivity.
  - reflexivity.
  - apply example_run_by_design.
Defined.

Lemma failed_relocation_keeps_block_witness :
  vs_realloc example_pool true 10 before_failed_relocation
    (example_pool + 32) 300
    = Some (NULL, say before_failed_relocation Out_of_memory)
  /\ mem (say before_failed_relocation Out_of_memory)
     = mem before_failed_relocation
  /\ head (say before_failed_relocation Out_of_memory)
     = head before_failed_relocation
  /\ out (say before_failed_relocation Out_of_memory)
     = out before_failed_relocation ++ [Out_of_memory].
Proof.
  apply (failed_relocation_keeps_block example_pool true 10
           before_failed_relocation (example_pool + 32) 300).
  - by_computation.
  - by_computation.
  - reflexivity.
  - by_computation.
  - vm_compute. reflexivity.
  - vm_compute. reflexivity.
Defined.

Lemma bounds_check_is_strict_witness :
  out_of_pool example_pool fresh
    (example_pool + POOL_SIZE + sizeof_MemBlock - sizeof_MemBlock) = false
  /\ (forall block, example_pool + POOL_SIZE < block ->
        out_of_pool example_pool fresh block = true)
  /\ rejected example_pool fresh
       (example_pool + POOL_SIZE + sizeof_MemBlock - sizeof_MemBlock)
     = (get_used (mem fresh)
          (example_pool + POOL_SIZE + sizeof_MemBlock - sizeof_MemBlock) =? 0).
Proof.
  apply (bounds_check_is_strict example_pool fresh
           (example_pool + POOL_SIZE + sizeof_MemBlock)).
  - by_computation.
  - reflexivity.
  - by_computation.
Defined.

Lemma zero_size_request_witness :
  exists st1,
    vs_malloc example_pool 2 fresh 0 = Some (example_pool + sizeof_MemBlock, st1)
    /\ out st1 = out fresh
    /\ forall fuel', (3 <= fuel')%nat ->
         dump_memory fuel' st1
           = Some [(example_pool, 0, 1);
                   (example_pool + sizeof_MemBlock,
                    POOL_SIZE - sizeof_MemBlock, 0)].
Proof.
  apply (proj1 (zero_size_request example_pool eq_refl eq_refl) blank 2%nat).
  lia.
Defined.

(** *** Where the code departs from the specification *)

(** C1.  After [a = malloc(8); b = malloc(16); free(a)] the first free
    block has 8 bytes and the last 168.  [malloc(100)] does not take the
    block of 168 bytes: it grants the first free block, of 8 bytes, and
    records 100 as its size, so that its payload runs over the header and
    the payload of [b]. *)
Theorem first_free_block_granted_though_too_small :
  run_first_free_block_too_small
  = Some (Some [(4096, 8, 0); (4136, 16, 1); (4184, 168, 0)],
          4128,
          Some [(4096, 100, 1); (4136, 16, 1); (4184, 168, 0)]).
Proof. vm_compute. reflexivity. Qed.

(** C2, as stated, fails: after [p = malloc(16); realloc(p, 8)] the block
    at the base has size 8 and its successor is not at the end of its
    payload, whatever the end of the last block is taken to be. *)
Lemma shrink_leaves_a_gap :
  exists st,
    run_shrink_by_less_than_a_header = Some (4128, st)
    /\ dump_memory 10 st = Some [(4096, 8, 1); (4144, 208, 0)]
    /\ forall hi, ~ tiled example_pool [(4096, 8, 1); (4144, 208, 0)] hi.
Proof.
  exists (state_of run_shrink_by_less_than_a_header).
  split; [vm_compute; reflexivity|].
  split; [vm_compute; reflexivity|].
  intros hi (_ & _ & H & _). vm_compute in H. discriminate H.
Qed.

(** C7, as stated, fails: after [p = malloc(100); realloc(p, 8)] the
    remainder that [vs_realloc] split off and the block after it are both
    free. *)
Lemma shrink_leaves_adjacent_free_blocks :
  exists st,
    run_shrink_before_free_block = Some (4128, st)
    /\ dump_memory 10 st = Some [(4096, 8, 1); (4136, 60, 0); (4228, 124, 0)]
    /\ ~ no_adjacent_free [(4096, 8, 1); (4136, 60, 0); (4228, 124, 0)].
Proof.
  exists (state_of run_shrink_before_free_block).
  split; [vm_compute; reflexivity|].
  split; [vm_compute; reflexivity|].
  intros (_ & H & _). apply H. split; reflexivity.
Qed.

(** [vs_malloc] does not set the back link of the block after a split:
    after [a = malloc(64); b = malloc(8); free(a); c = malloc(8); free(b)]
    the block of [b] does not coalesce with the free remainder before
    it. *)
Lemma release_misses_free_neighbour :
  exists st,
    run_release_after_split_in_the_middle = Some (4128, st)
    /\ dump_memory 10 st = Some [(4096, 8, 1); (4136, 24, 0); (4192, 160, 0)].
Proof.
  exists (state_of run_release_after_split_in_the_middle).
  split; vm_compute; reflexivity.
Qed.

Lemma dump_self_loop m a :
  a <> NULL -> get_next m a = a -> forall fuel, dump_from fuel m a = None.
Proof.
  intros Ha Hloop. induction fuel as [|f IH]; [reflexivity|].
  simpl. destruct (Z.eqb_spec a NULL); [contradiction|].
  rewrite Hloop, IH. reflexivity.
Qed.

(** C4.  In [a(16) ; free(16) ; c(8) ; ...], [realloc(a, 64)] expands in
    place with no excess at all.  It still writes a remainder header: at
    the address of [c]'s header, with size [0 - 32] wrapped, marked free
    and linked to itself.  The payload address is kept, but the list is
    no longer well formed: [dump_memory] and the next [vs_malloc] never
    end. *)
Theorem expand_without_room_overwrites_next_header :
  (exists a st,
     before_tight_expand = Some (a, st) /\ a = 4128
     /\ dump_memory 10 st
        = Some [(4096, 16, 1); (4144, 16, 0); (4192, 8, 1); (4232, 120, 0)])
  /\ forall marks_used,
       exists st',
         run_tight_expand marks_used = Some (4128, st')
         /\ get_size (mem st') 4192 = SIZE_MODULUS - 32
         /\ get_used (mem st') 4192 = 0
         /\ get_next (mem st') 4192 = 4192
         /\ (forall fuel, dump_memory fuel st' = None)
         /\ (forall fuel size, vs_malloc example_pool fuel st' size = None).
Proof.
  split.
  - exists 4128, (state_of before_tight_expand).
    split; [vm_compute; reflexivity|]. split; vm_compute; reflexivity.
  - intros marks_used.
    assert (Hrun : run_tight_expand marks_used
                   = Some (4128, state_of (run_tight_expand marks_used)))
      by (destruct marks_used; vm_compute; reflexivity).
    assert (Hsize : get_size (mem (state_of (run_tight_expand marks_used))) 4192
                    = SIZE_MODULUS - 32)
      by (destruct marks_used; vm_compute; reflexivity).
    assert (Hused : get_used (mem (state_of (run_tight_expand marks_used))) 4192 = 0)
      by (destruct marks_used; vm_compute; reflexivity).
    assert (Hloop : get_next (mem (state_of (run_tight_expand marks_used))) 4192 = 4192)
      by (destruct marks_used; vm_compute; reflexivity).
    assert (Hfirst : get_next (mem (state_of (run_tight_expand marks_used))) 4096 = 4192)
      by (destruct marks_used; vm_compute; reflexivity).
    assert (Hhead : head (state_of (run_tight_expand marks_used)) = 4096)
      by (destruct marks_used; vm_compute; reflexivity).
    revert Hrun Hsize Hused Hloop Hfirst Hhead.
    generalize (state_of (run_tight_expand marks_used)).
    intros st' Hrun Hsize Hused Hloop Hfirst Hhead.
    exists st'. conj_split; auto.
    + intros [|fuel]; [reflexivity|].
      unfold dump_memory. rewrite Hhead.
      change (dump_from (S fuel) (mem st') 4096)
        with (match dump_from fuel (mem st') (get_next (mem st') 4096) with
              | Some l => Some ((4096, get_size (mem st') 4096,
                                 get_used (mem st') 4096) :: l)
              | None => None
              end).
      rewrite Hfirst, dump_self_loop; [reflexivity | discriminate | exact Hloop].
    + intros fuel size. unfold vs_malloc. rewrite Hhead.
      assert (Hspin : forall f best,
                 find_best f (mem st') size 4192 best = None).
      { induction f as [|f IH]; intros best; [reflexivity|].
        change (find_best (S f) (mem st') size 4192 best)
          with (find_best f (mem st') size (get_next (mem st') 4192)
                  (if (get_used (mem st') 4192 =? 0)
                      && ((best =? NULL)
                          || ((get_size (mem st') 4192 <? get_size (mem st') best)
                              && (get_size (mem st') 4192 >=? size)))
                   then 4192 else best)).
        rewrite Hloop. apply IH. }
      destruct fuel as [|fuel]; [reflexivity|].
      change (find_best (S fuel) (mem st') size 4096 NULL)
        with (find_best fuel (mem st') size (get_next (mem st') 4096)
                (if (get_used (mem st') 4096 =? 0)
                    && ((NULL =? NULL)
                        || ((get_size (mem st') 4096 <? get_size (mem st') NULL)
                            && (get_size (mem st') 4096 >=? size)))
                 then 4096 else NULL)).
      rewrite Hfirst, Hspin. reflexivity.
Qed.

Lemma vs_free_rejects_null st :
  vs_free example_pool st NULL = say st Invalid_pointer.
Proof. reflexivity. Qed.

(** C5.  After [a = malloc(8)], whose payload is at 4128, [vs_free] is
    called on 4160, an address inside the pool that [vs_malloc] never
    returned.  [vs_free] reads the low half of the next header's size as a
    [used] flag, finds it non-zero, prints nothing and clears it: the free
    block of 216 bytes has become a block of 0 bytes. *)
Theorem stray_pointer_is_freed :
  dump_memory 10 before_stray_free = Some [(4096, 8, 1); (4136, 216, 0)]
  /\ out before_stray_free = [Initializing_Allocator]
  /\ dump_memory 10 run_stray_free = Some [(4096, 8, 1); (4136, 0, 0)]
  /\ out run_stray_free = [Initializing_Allocator].
Proof. repeat split; vm_compute; reflexivity. Qed.

(** C10, as stated, fails: after [malloc(200)] the list ends in a free
    block of 24 bytes, and [malloc(0)] is answered [Out_of_memory]. *)
Lemma zero_size_request_refused_beside_free_block :
  dump_memory 10 before_zero_size_request
    = Some [(4096, 200, 1); (4328, 24, 0)]
  /\ vs_malloc example_pool 10 before_zero_size_request 0
     = Some (NULL, say before_zero_size_request Out_of_memory).
Proof. split; vm_compute; reflexivity. Qed.

(** *** Further properties at a concrete pool *)

(** *** The same properties at a concrete pool *)

Lemma after_first_malloc_well_formed :
  well_formed example_pool after_first_malloc [(4096, 16, 1); (4144, 208, 0)].
Proof. by_computation. Qed.

Lemma after_second_malloc_well_formed :
  well_formed example_pool after_second_malloc
    [(4096, 16, 1); (4144, 16, 1); (4192, 160, 0)].
Proof. by_computation. Qed.

Lemma pool_fits : example_pool + POOL_SIZE + sizeof_MemBlock < SIZE_MODULUS.
Proof. reflexivity. Qed.


Lemma vs_free_coalesces_witness :
  dump_memory 10 (vs_free example_pool after_first_malloc (4096 + sizeof_MemBlock))
    = Some (released [] (4096, 16, 1) [(4144, 208, 0)])
  /\ out (vs_free example_pool after_first_malloc (4096 + sizeof_MemBlock))
     = out after_first_malloc.
Proof.
  apply (vs_free_coalesces example_pool eq_refl pool_fits 10
           after_first_malloc [] 4096 16 1 [(4144, 208, 0)]).
  - apply after_first_malloc_well_formed.
  - discriminate.
  - lia.
Defined.

Lemma vs_free_keeps_every_payload_witness :
  mem (vs_free example_pool after_second_malloc (4096 + sizeof_MemBlock)) 4180
  = mem after_second_malloc 4180.
Proof.
  apply (vs_free_keeps_every_payload example_pool eq_refl pool_fits
           after_second_malloc [] 4096 16 1 [(4144, 16, 1); (4192, 160, 0)]
           (4144, 16, 1) 4180).
  - apply after_second_malloc_well_formed.
  - discriminate.
  - right. left. reflexivity.
  - by_computation.
Defined.

Lemma vs_free_rejects_second_release_witness :
  vs_free example_pool
    (vs_free example_pool after_first_malloc (4096 + sizeof_MemBlock))
    (4096 + sizeof_MemBlock)
  = say (vs_free example_pool after_first_malloc (4096 + sizeof_MemBlock))
      Invalid_pointer.
Proof.
  apply (vs_free_rejects_second_release example_pool eq_refl pool_fits
           after_first_malloc [] 4096 16 1 [(4144, 208, 0)]).
  - apply after_first_malloc_well_formed.
  - discriminate.
Defined.






Lemma shrink_in_place_keeps_data_witness :
  exists st',
    vs_realloc example_pool true 10 after_first_malloc (4096 + sizeof_MemBlock) 8
      = Some (4096 + sizeof_MemBlock, st')
    /\ out st' = out after_first_malloc
    /\ dump_memory 10 st'
       = Some ([] ++ resized (4096, 16, 1) 8 1 ++ [(4144, 208, 0)])
    /\ forall x, 4096 + sizeof_MemBlock <= x < 4096 + sizeof_MemBlock + 8 ->
         mem st' x = mem after_first_malloc x.
Proof.
  apply (shrink_in_place_keeps_data example_pool true eq_refl pool_fits 10 10
           after_first_malloc [] 4096 16 1 [(4144, 208, 0)] 8).
  - apply after_first_malloc_well_formed.
  - lia.
  - lia.
Defined.

Lemma expand_in_place_keeps_data_witness :
  exists st',
    vs_realloc example_pool true 10 after_first_malloc (4096 + sizeof_MemBlock) 64
      = Some (4096 + sizeof_MemBlock, st')
    /\ out st' = out after_first_malloc
    /\ dump_memory 10 st'
       = Some ([] ++ [(4096, 64, 1);
                      (4096 + sizeof_MemBlock + 64, 16 + 208 - 64, 0)] ++ [])
    /\ forall x, 4096 + sizeof_MemBlock <= x < 4096 + sizeof_MemBlock + 16 ->
         mem st' x = mem after_first_malloc x.
Proof.
  apply (expand_in_place_keeps_data example_pool true eq_refl pool_fits 10 10
           after_first_malloc [] 4096 16 1 4144 208 [] 64).
  - apply after_first_malloc_well_formed.
  - lia.
  - lia.
  - lia.
  - lia.
Defined.

Lemma after_relocation_result :
  vs_realloc example_pool true 10 after_second_malloc (4096 + sizeof_MemBlock) 64
  = Some (4224, after_relocation).
Proof.
  assert (H : option_map fst
                (vs_realloc example_pool true 10 after_second_malloc
                   (example_pool + 32) 64) = Some 4224)
    by (vm_compute; reflexivity).
  unfold after_relocation.
  change (4096 + sizeof_MemBlock) with (example_pool + 32).
  destruct (vs_realloc example_pool true 10 after_second_malloc
              (example_pool + 32) 64) as [[p st]|];
    [|discriminate H].
  simpl in H. inversion H. reflexivity.
Qed.



End VSFacts.

(** ** The fixed-size allocator *)

Module FSFacts.

Import FS.

Ltac unfold_fs :=
  unfold get_used, get_next, set_used, set_next, NULL in *.

Lemma out_grows (l : list message) (msg : message) : l <> l ++ [msg].
Proof.
  intros H. apply (f_equal (@length message)) in H.
  rewrite length_app in H. simpl in H. lia.
Qed.

Section Proofs.

Variable memory_pool : Z.
Variables BLOCK_SIZE BLOCK_COUNT : Z.

(** [fs_free] rejects the null pointer, a pointer outside the pool and a
    pointer that is not at a multiple of [BLOCK_SIZE] from the base of
    the pool: it prints [Invalid_pointer] and changes neither memory nor
    the free list. *)
Lemma fs_free_rejects_invalid_pointers st ptr :
  ptr = NULL \/ ptr < memory_pool
  \/ memory_pool + POOL_SIZE BLOCK_SIZE BLOCK_COUNT <= ptr
  \/ Z.rem (ptr - memory_pool) BLOCK_SIZE <> 0 ->
  fs_free memory_pool BLOCK_SIZE BLOCK_COUNT st ptr = say st Invalid_pointer.
Proof.
  intros H. unfold fs_free, invalid_pointer.
  destruct (Z.eqb_spec ptr NULL); [reflexivity|].
  destruct (Z.ltb_spec ptr memory_pool); [reflexivity|].
  destruct (Z.geb_spec ptr (memory_pool + POOL_SIZE BLOCK_SIZE BLOCK_COUNT));
    [reflexivity|].
  destruct (Z.eqb_spec (Z.rem (ptr - memory_pool) BLOCK_SIZE) 0); [|reflexivity].
  exfalso. intuition lia.
Qed.

Ltac contract_case :=
  match goal with
  | |- _ <-> _ => split
  | |- _ /\ _ => split
  | |- _ -> _ => intro
  | H : _ /\ _ |- _ => destruct H
  | H : _ \/ _ |- _ => destruct H
  | H : ?l ++ [_] = ?l ++ [_] |- _ => apply app_inv_head in H; discriminate H
  | H : ?l = ?l ++ [_] |- _ => exfalso; exact (out_grows _ _ H)
  | H : ?x <> ?x |- _ => exfalso; apply H; reflexivity
  | |- _ \/ _ => first [left; assumption | right; lia]
  | _ => first [assumption | reflexivity | contradiction | discriminate | lia]
  end.

Lemma fs_malloc_contract :
  malloc_contract BLOCK_SIZE true (fs_malloc BLOCK_SIZE).
Proof.
  intros st size. unfold fs_malloc.
  destruct (Z.eqb_spec (free_list st) NULL) as [Hnull|Hnonnull];
    [|destruct (Z.gtb_spec size BLOCK_SIZE) as [Hbig|Hsmall]];
    simpl; repeat contract_case;
    unfold_fs; mem_simpl; reflexivity.
Qed.

Lemma fs_malloc_early_contract :
  malloc_contract BLOCK_SIZE false (fs_malloc_early BLOCK_SIZE).
Proof.
  intros st size. unfold fs_malloc_early.
  destruct (Z.eqb_spec (free_list st) NULL) as [Hnull|Hnonnull];
    [|destruct (Z.gtb_spec size BLOCK_SIZE) as [Hbig|Hsmall]];
    simpl; repeat contract_case;
    unfold_fs; mem_simpl; reflexivity.
Qed.

(** C6 (amended).  [fs_malloc] tests the free list first.  It reports
    [Out_of_memory] exactly when the free list is empty, and that the
    request is too large exactly when the free list is not empty and
    [size > BLOCK_SIZE]; it returns [NULL] exactly in these two cases,
    and then memory and the free list are as before.  Otherwise it
    returns the head of the free list, makes the head's [next] the new
    head, marks the block used and, in the first listing, clears its
    [next]; the second listing leaves that field. *)
Theorem fs_malloc_checks_free_list_first :
  malloc_contract BLOCK_SIZE true (fs_malloc BLOCK_SIZE)
  /\ malloc_contract BLOCK_SIZE false (fs_malloc_early BLOCK_SIZE).
Proof. split; [apply fs_malloc_contract | apply fs_malloc_early_contract]. Qed.

End Proofs.

(** C6, as stated, fails: when all eight blocks are taken, a request of
    33 bytes, more than [BLOCK_SIZE], is answered [Out_of_memory]; that the
    request is too large is not reported. *)
Lemma oversized_request_on_empty_list_reports_out_of_memory :
  free_list exhausted = NULL
  /\ 33 > 32
  /\ fs_malloc 32 exhausted 33 = (NULL, say exhausted Out_of_memory)
  /\ out (snd (fs_malloc 32 exhausted 33))
     <> out exhausted ++ [Cannot_allocate_more_than 32].
Proof.
  split; [vm_compute; reflexivity|].
  split; [reflexivity|].
  split; [vm_compute; reflexivity|].
  vm_compute. intros H. discriminate H.
Qed.

(** *** The free list *)

Lemma load_frame (n : nat) m m' a :
  (forall x, a <= x < a + Z.of_nat n -> m' x = m x) ->
  load n m' a = load n m a.
Proof. intros H. apply load_ext. exact H. Qed.

Lemma chain_frame m m' l : forall a,
  (forall b, In b l -> get_next m' b = get_next m b) ->
  chain m a l -> chain m' a l.
Proof.
  induction l as [|b rest IH]; simpl; intros a H Hc; [assumption|].
  destruct Hc as (-> & Hnz & Hc). conj_split; auto.
  rewrite H by (left; reflexivity).
  apply IH; [|assumption]. intros c Hin. apply H. right. exact Hin.
Qed.

Ltac fs_mem :=
  unfold_fs; unfold sizeof_FreeBlock, SIZE_MODULUS in *; mem_simpl.

Ltac fs_goal :=
  unfold get_used, get_next, set_used, set_next, NULL; mem_simpl.

Section Blocks.

Variable memory_pool : Z.
Variables BLOCK_SIZE BLOCK_COUNT : Z.
Hypothesis pool_low : 0 < memory_pool.
Hypothesis pool_high : memory_pool + BLOCK_SIZE * BLOCK_COUNT <= SIZE_MODULUS.
Hypothesis block_size : sizeof_FreeBlock <= BLOCK_SIZE.

Local Abbreviation block_at := (FS.block_at memory_pool BLOCK_SIZE).
Local Abbreviation is_block := (FS.is_block memory_pool BLOCK_SIZE BLOCK_COUNT).
Local Abbreviation free_blocks :=
  (FS.free_blocks memory_pool BLOCK_SIZE BLOCK_COUNT).
Local Abbreviation fs_free := (FS.fs_free memory_pool BLOCK_SIZE BLOCK_COUNT).
Local Abbreviation fs_free_all :=
  (FS.fs_free_all memory_pool BLOCK_SIZE BLOCK_COUNT).
Local Abbreviation fs_malloc := (FS.fs_malloc BLOCK_SIZE).
Local Abbreviation fs_malloc_run := (FS.fs_malloc_run BLOCK_SIZE).
Local Abbreviation invalid_pointer :=
  (FS.invalid_pointer memory_pool BLOCK_SIZE BLOCK_COUNT).

Lemma block_at_apart i j :
  i < j -> block_at i + BLOCK_SIZE <= block_at j.
Proof using block_size.
  unfold FS.block_at, sizeof_FreeBlock in *. intros H. nia.
Qed.

Lemma is_block_bounds a :
  is_block a ->
  memory_pool <= a
  /\ a + BLOCK_SIZE <= memory_pool + BLOCK_SIZE * BLOCK_COUNT.
Proof using block_size.
  intros (i & Hi & ->). unfold FS.block_at, sizeof_FreeBlock in *. split; nia.
Qed.

Lemma is_block_fits a :
  is_block a -> 0 < a /\ a + 16 <= 2 ^ 64.
Proof using pool_low pool_high block_size.
  intros H. apply is_block_bounds in H.
  unfold sizeof_FreeBlock, SIZE_MODULUS in *. lia.
Qed.

Lemma blocks_apart a b :
  is_block a -> is_block b -> a <> b ->
  a + 16 <= b \/ b + 16 <= a.
Proof using block_size.
  intros (i & Hi & ->) (j & Hj & ->) Hne.
  destruct (Z.lt_trichotomy i j) as [Hlt|[->|Hgt]].
  - left. apply block_at_apart in Hlt. unfold sizeof_FreeBlock in *. lia.
  - contradiction.
  - right. apply block_at_apart in Hgt. unfold sizeof_FreeBlock in *. lia.
Qed.

Lemma valid_pointer_is_block ptr :
  invalid_pointer ptr = false <-> is_block ptr.
Proof using pool_low block_size.
  unfold FS.invalid_pointer, FS.POOL_SIZE, sizeof_FreeBlock in *. split.
  - intros H.
    destruct (Z.eqb_spec ptr NULL); [discriminate|].
    destruct (Z.ltb_spec ptr memory_pool); [discriminate|].
    destruct (Z.geb_spec ptr (memory_pool + BLOCK_SIZE * BLOCK_COUNT));
      [discriminate|].
    destruct (Z.eqb_spec (Z.rem (ptr - memory_pool) BLOCK_SIZE) 0) as [Hrem|];
      [|discriminate].
    pose proof (Z.quot_rem' (ptr - memory_pool) BLOCK_SIZE) as Hq.
    rewrite Hrem in Hq.
    assert (Hpos : 0 <= Z.quot (ptr - memory_pool) BLOCK_SIZE)
      by (apply Z.quot_pos; lia).
    exists (Z.quot (ptr - memory_pool) BLOCK_SIZE).
    unfold FS.block_at. split; [nia | lia].
  - intros (i & Hi & ->). unfold FS.block_at.
    destruct (Z.eqb_spec (memory_pool + BLOCK_SIZE * i) NULL);
      [unfold NULL in *; nia|].
    destruct (Z.ltb_spec (memory_pool + BLOCK_SIZE * i) memory_pool); [nia|].
    destruct (Z.geb_spec (memory_pool + BLOCK_SIZE * i)
                (memory_pool + BLOCK_SIZE * BLOCK_COUNT)); [nia|].
    replace (memory_pool + BLOCK_SIZE * i - memory_pool) with (i * BLOCK_SIZE)
      by lia.
    rewrite Z.rem_mul by lia. reflexivity.
Qed.

Lemma chain_head_range m a l :
  chain m a l -> (forall b, In b l -> is_block b) -> 0 <= a < 2 ^ 64.
Proof using pool_low pool_high block_size.
  destruct l as [|b rest]; simpl.
  - intros -> _. unfold NULL. lia.
  - intros (-> & _) H. pose proof (is_block_fits b (H b (or_introl eq_refl))). lia.
Qed.

(** A successful [fs_malloc] pops the head of the free list. *)
Lemma fs_malloc_pop st b fl size :
  free_blocks st (b :: fl) -> size <= BLOCK_SIZE ->
  exists st',
    fs_malloc st size = (b, st')
    /\ free_blocks st' fl
    /\ out st' = out st.
Proof using pool_low pool_high block_size.
  intros (Hchain & Hnd & Hblk & Hused) Hsize.
  simpl in Hchain. destruct Hchain as (Hfl & Hnz & Hchain).
  apply NoDup_cons_iff in Hnd. destruct Hnd as (Hnotin & Hnd').
  pose proof (is_block_fits b (Hblk b (or_introl eq_refl))) as Hb.
  unfold FS.fs_malloc. rewrite Hfl.
  destruct (Z.eqb_spec b NULL); [contradiction|].
  destruct (Z.gtb_spec size BLOCK_SIZE); [lia|].
  eexists. split; [reflexivity|]. split; [|reflexivity].
  unfold FS.free_blocks. simpl. conj_split.
  - apply chain_frame with (m := mem st); [|exact Hchain].
    intros c Hc.
    assert (Hcb : c <> b) by (intros ->; contradiction).
    pose proof (blocks_apart c b (Hblk c (or_intror Hc))
                  (Hblk b (or_introl eq_refl)) Hcb).
    fs_mem. reflexivity.
  - exact Hnd'.
  - intros a Ha. apply Hblk. right. exact Ha.
  - intros a Ha. destruct (Z.eq_dec a b) as [->|Hab].
    + right. split; [assumption|]. fs_mem. reflexivity.
    + pose proof (blocks_apart a b Ha (Hblk b (or_introl eq_refl)) Hab).
      destruct (Hused a Ha) as [([Heq|Hin] & Hu)|(Hnin & Hu)].
      * congruence.
      * left. split; [assumption|]. fs_mem. exact Hu.
      * right. split; [intros Hin; apply Hnin; right; exact Hin|].
        fs_mem. exact Hu.
Qed.

Lemma fs_malloc_empty st size :
  free_blocks st [] -> fs_malloc st size = (NULL, say st Out_of_memory).
Proof.
  intros (Hchain & _). simpl in Hchain. unfold FS.fs_malloc.
  rewrite Hchain. reflexivity.
Qed.

Lemma fs_malloc_too_large st b fl size :
  free_blocks st (b :: fl) -> BLOCK_SIZE < size ->
  fs_malloc st size = (NULL, say st (Cannot_allocate_more_than BLOCK_SIZE)).
Proof.
  intros (Hchain & _) Hsize. simpl in Hchain.
  destruct Hchain as (Hfl & Hnz & _).
  unfold FS.fs_malloc. rewrite Hfl.
  destruct (Z.eqb_spec b NULL); [contradiction|].
  destruct (Z.gtb_spec size BLOCK_SIZE); [reflexivity | lia].
Qed.

(** A successful [fs_free] pushes the block on the free list. *)
Lemma fs_free_push st fl p :
  free_blocks st fl -> is_block p -> get_used (mem st) p <> 0 ->
  free_blocks (fs_free st p) (p :: fl)
  /\ out (fs_free st p) = out st.
Proof using pool_low pool_high block_size.
  intros (Hchain & Hnd & Hblk & Hused) Hp Hu.
  pose proof (is_block_fits p Hp) as Hfit.
  pose proof (chain_head_range _ _ _ Hchain Hblk) as Hrange.
  assert (Hnotin : ~ In p fl).
  { destruct (Hused p Hp) as [(_ & H0)|(H & _)]; [contradiction | exact H]. }
  unfold FS.fs_free.
  rewrite (proj2 (valid_pointer_is_block p) Hp).
  destruct (Z.eqb_spec (get_used (mem st) p) 0); [contradiction|].
  split; [|reflexivity].
  unfold FS.free_blocks. simpl. conj_split.
  - reflexivity.
  - unfold NULL. lia.
  - replace (get_next (set_next (set_used (mem st) p 0) p (free_list st)) p)
      with (free_list st) by (fs_mem; reflexivity).
    apply chain_frame with (m := mem st); [|exact Hchain].
    intros c Hc.
    assert (Hcp : c <> p) by (intros ->; contradiction).
    pose proof (blocks_apart c p (Hblk c Hc) Hp Hcp).
    fs_mem. reflexivity.
  - constructor; assumption.
  - intros a [<-|Ha]; [assumption | apply Hblk; exact Ha].
  - intros a Ha. destruct (Z.eq_dec a p) as [->|Hap].
    + left. split; [left; reflexivity|]. fs_mem. reflexivity.
    + pose proof (blocks_apart a p Ha Hp Hap).
      destruct (Hused a Ha) as [(Hin & Hu0)|(Hnin & Hu1)].
      * left. split; [right; exact Hin|]. fs_mem. exact Hu0.
      * right. split; [intros [Heq|Hin]; [congruence | contradiction]|].
        fs_mem. exact Hu1.
Qed.

Lemma fs_free_already_free st p :
  is_block p -> get_used (mem st) p = 0 ->
  fs_free st p = say st Block_already_free.
Proof using pool_low block_size.
  intros Hp Hu. unfold FS.fs_free.
  rewrite (proj2 (valid_pointer_is_block p) Hp), Hu. reflexivity.
Qed.

Lemma fs_free_invalid st p :
  ~ is_block p -> fs_free st p = say st Invalid_pointer.
Proof using pool_low block_size.
  intros Hp. unfold FS.fs_free.
  destruct (invalid_pointer p) eqn:E; [reflexivity|].
  exfalso. apply Hp. apply valid_pointer_is_block. exact E.
Qed.

Lemma is_block_dec a : is_block a \/ ~ is_block a.
Proof using pool_low block_size.
  destruct (invalid_pointer a) eqn:E.
  - right. intros H. apply valid_pointer_is_block in H. congruence.
  - left. apply valid_pointer_is_block. exact E.
Qed.

(** Every call keeps the free list. *)
Lemma fs_malloc_keeps st fl size :
  free_blocks st fl ->
  exists fl', free_blocks (snd (fs_malloc st size)) fl'.
Proof using pool_low pool_high block_size.
  intros H. destruct fl as [|b fl].
  - rewrite (fs_malloc_empty st size H). exists []. exact H.
  - destruct (Z.le_gt_cases size BLOCK_SIZE) as [Hle|Hgt].
    + destruct (fs_malloc_pop st b fl size H Hle) as (st' & -> & H' & _).
      exists fl. exact H'.
    + rewrite (fs_malloc_too_large st b fl size H Hgt). exists (b :: fl). exact H.
Qed.

Lemma fs_free_keeps st fl p :
  free_blocks st fl ->
  exists fl', free_blocks (fs_free st p) fl'.
Proof using pool_low pool_high block_size.
  intros H. destruct (is_block_dec p) as [Hp|Hp].
  - destruct (Z.eq_dec (get_used (mem st) p) 0) as [Hu|Hu].
    + rewrite (fs_free_already_free st p Hp Hu). exists fl. exact H.
    + exists (p :: fl). apply fs_free_push; assumption.
  - rewrite (fs_free_invalid st p Hp). exists fl. exact H.
Qed.

(** Releases stack up: the free list grows at its head. *)
Lemma fs_free_all_pushes order : forall st fl,
  free_blocks st fl -> NoDup order ->
  (forall p, In p order -> is_block p /\ ~ In p fl) ->
  free_blocks (fs_free_all st order) (rev order ++ fl)
  /\ out (fs_free_all st order) = out st.
Proof using pool_low pool_high block_size.
  induction order as [|p rest IH]; intros st fl H Hnd Hall.
  - simpl. auto.
  - apply NoDup_cons_iff in Hnd. destruct Hnd as (Hnotin & Hnd').
    destruct (Hall p (or_introl eq_refl)) as (Hp & Hpfl).
    assert (Hu : get_used (mem st) p <> 0).
    { destruct H as (_ & _ & _ & Hused).
      destruct (Hused p Hp) as [(Hin & _)|(_ & ->)]; [contradiction | discriminate]. }
    destruct (fs_free_push st fl p H Hp Hu) as (H1 & Hout).
    destruct (IH (fs_free st p) (p :: fl) H1 Hnd') as (H2 & Hout2).
    { intros q Hq. split; [apply Hall; right; exact Hq|].
      intros [Heq|Hin]; [subst q; contradiction|].
      apply (proj2 (Hall q (or_intror Hq))). exact Hin. }
    simpl. rewrite <- app_assoc. simpl. split; [exact H2 | congruence].
Qed.

(** A run of [fs_malloc] calls takes the blocks from the head of the
    free list, in order. *)
Lemma fs_malloc_run_pops l1 : forall st l2 size,
  free_blocks st (l1 ++ l2) -> size <= BLOCK_SIZE ->
  exists st',
    fs_malloc_run (length l1) st size = (l1, st')
    /\ free_blocks st' l2 /\ out st' = out st.
Proof using pool_low pool_high block_size.
  induction l1 as [|b rest IH]; intros st l2 size H Hsize.
  - exists st. simpl. auto.
  - destruct (fs_malloc_pop st b (rest ++ l2) size H Hsize)
      as (st1 & E1 & H1 & Hout1).
    destruct (IH st1 l2 size H1 Hsize) as (st2 & E2 & H2 & Hout2).
    exists st2. simpl. rewrite E1, E2. conj_split; auto. congruence.
Qed.


(** X14.  Blocks released one after the other go on the head of the free
    list: [fs_free] prints nothing for them, and the next calls of
    [fs_malloc] return them in the reverse order of their release,
    after which the free list is as it was. *)
Theorem released_blocks_come_back_in_reverse_order st fl order size :
  free_blocks st fl -> NoDup order ->
  (forall p, In p order -> is_block p /\ get_used (mem st) p <> 0) ->
  size <= BLOCK_SIZE ->
  out (fs_free_all st order) = out st
  /\ exists st',
       fs_malloc_run (length order) (fs_free_all st order) size
         = (rev order, st')
       /\ free_blocks st' fl.
Proof using pool_low pool_high block_size.
  intros Hfl Hnd Hall Hsize.
  destruct (fs_free_all_pushes order st fl Hfl Hnd) as (H1 & Hout).
  { intros p Hp. destruct (Hall p Hp) as (Hb & Hu). split; [exact Hb|].
    destruct Hfl as (_ & _ & _ & Hused).
    destruct (Hused p Hb) as [(_ & H0)|(Hnin & _)]; [contradiction | exact Hnin]. }
  split; [exact Hout|].
  destruct (fs_malloc_run_pops (rev order) (fs_free_all st order) fl size H1 Hsize)
    as (st' & E & H2 & _).
  rewrite length_rev in E. exists st'. auto.
Qed.

End Blocks.

Section FromInit.

Variable memory_pool : Z.
Variables BLOCK_SIZE BLOCK_COUNT : Z.

Local Abbreviation block_at := (FS.block_at memory_pool BLOCK_SIZE).
Local Abbreviation is_block := (FS.is_block memory_pool BLOCK_SIZE BLOCK_COUNT).
Local Abbreviation all_blocks :=
  (FS.all_blocks memory_pool BLOCK_SIZE BLOCK_COUNT).
Local Abbreviation free_blocks :=
  (FS.free_blocks memory_pool BLOCK_SIZE BLOCK_COUNT).
Local Abbreviation fs_init_allocator :=
  (FS.fs_init_allocator memory_pool BLOCK_SIZE BLOCK_COUNT).
Local Abbreviation fs_free := (FS.fs_free memory_pool BLOCK_SIZE BLOCK_COUNT).
Local Abbreviation fs_free_all :=
  (FS.fs_free_all memory_pool BLOCK_SIZE BLOCK_COUNT).
Local Abbreviation fs_malloc := (FS.fs_malloc BLOCK_SIZE).
Local Abbreviation fs_malloc_run := (FS.fs_malloc_run BLOCK_SIZE).
Local Abbreviation dump_memory :=
  (FS.dump_memory memory_pool BLOCK_SIZE BLOCK_COUNT).
Local Abbreviation reachable :=
  (FS.reachable memory_pool BLOCK_SIZE BLOCK_COUNT).

Lemma init_accepts st0 :
  fst (fs_init_allocator st0) = 0
  <-> sizeof_FreeBlock < BLOCK_SIZE /\ Z.rem BLOCK_SIZE 8 = 0
      /\ 1 <= BLOCK_COUNT.
Proof.
  unfold FS.fs_init_allocator, FS.POOL_SIZE, sizeof_FreeBlock.
  destruct (Z.ltb_spec (BLOCK_SIZE * BLOCK_COUNT) BLOCK_SIZE);
    destruct (Z.leb_spec BLOCK_SIZE 0);
    destruct (Z.ltb_spec BLOCK_COUNT 0);
    destruct (Z.eqb_spec (Z.rem BLOCK_SIZE 8) 0);
    destruct (Z.leb_spec BLOCK_SIZE 16); simpl;
    try (split; [discriminate | intros (? & ? & ?); exfalso; (lia || nia)]).
  destruct (link_blocks _ _ _ _ _ _) as [m curr]. simpl.
  split; [intros _; conj_split; (lia || nia) | reflexivity].
Qed.

Hypothesis pool_low : 0 < memory_pool.
Hypothesis pool_high : memory_pool + BLOCK_SIZE * BLOCK_COUNT <= SIZE_MODULUS.

Lemma link_blocks_spec (block_size : sizeof_FreeBlock <= BLOCK_SIZE) n :
  forall i m,
    0 <= i -> i + Z.of_nat n < BLOCK_COUNT ->
    exists m',
      link_blocks memory_pool BLOCK_SIZE n i m (block_at i)
        = (m', block_at (i + Z.of_nat n))
      /\ (forall j, i <= j < i + Z.of_nat n ->
            get_used m' (block_at j) = 0
            /\ get_next m' (block_at j) = block_at (j + 1))
      /\ (forall x, x < block_at i \/ block_at (i + Z.of_nat n) <= x ->
            m' x = m x).
Proof using pool_low pool_high.
  induction n as [|n IH]; intros i m Hi Hn.
  - exists m. simpl. replace (i + 0) with i by lia.
    split; [reflexivity|]. split; [intros; lia | auto].
  - assert (Hfit : 0 < block_at i /\ block_at (i + 1) + 16 <= 2 ^ 64
                   /\ block_at (i + 1) = block_at i + BLOCK_SIZE).
    { unfold FS.block_at, sizeof_FreeBlock, SIZE_MODULUS in *. nia. }
    destruct Hfit as (Hlo & Hhi & Hstep).
    unfold sizeof_FreeBlock in *.
    simpl link_blocks.
    change (memory_pool + BLOCK_SIZE * (i + 1)) with (block_at (i + 1)).
    replace (get_next
               (set_next (set_used m (block_at i) 0) (block_at i)
                  (block_at (i + 1))) (block_at i))
      with (block_at (i + 1)) by (fs_goal; reflexivity).
    destruct (IH (i + 1)
                (set_next (set_used m (block_at i) 0) (block_at i)
                   (block_at (i + 1))))
      as (m' & E & Hlinks & Hframe); [lia | lia |].
    replace (i + 1 + Z.of_nat n) with (i + Z.of_nat (S n)) in * by lia.
    assert (Hmono : block_at (i + 1) <= block_at (i + Z.of_nat (S n))).
    { unfold FS.block_at. nia. }
    exists m'. split; [exact E|]. split.
    + intros j Hj. destruct (Z.eq_dec j i) as [->|Hji].
      * split.
        -- unfold get_used.
           rewrite (load_frame 4
                      (set_next (set_used m (block_at i) 0) (block_at i)
                         (block_at (i + 1))) m' (block_at i))
             by (intros x Hx; apply Hframe; lia).
           fs_goal. reflexivity.
        -- unfold get_next.
           rewrite (load_frame 8
                      (set_next (set_used m (block_at i) 0) (block_at i)
                         (block_at (i + 1))) m' (block_at i + 8))
             by (intros x Hx; apply Hframe; lia).
           fs_goal. reflexivity.
      * apply Hlinks. lia.
    + intros x Hx. rewrite Hframe by lia.
      unfold set_next, set_used. rewrite !store_outside by lia. reflexivity.
Qed.

Lemma chain_of_blocks m n :
  0 < BLOCK_SIZE ->
  (forall j, 0 <= j < BLOCK_COUNT - 1 ->
     get_next m (block_at j) = block_at (j + 1)) ->
  get_next m (block_at (BLOCK_COUNT - 1)) = NULL ->
  forall k,
  (k + S n = Z.to_nat BLOCK_COUNT)%nat ->
  chain m (block_at (Z.of_nat k))
    (map (fun i => block_at (Z.of_nat i)) (seq k (S n))).
Proof using pool_low.
  intros Hpos Hnext Hlast.
  assert (Hnz : forall k, block_at (Z.of_nat k) <> NULL).
  { intros k. unfold FS.block_at, NULL. nia. }
  induction n as [|n IH]; intros k Hk.
  - simpl. split; [reflexivity|]. split; [apply Hnz|].
    rewrite <- Hlast. f_equal. f_equal. lia.
  - change (seq k (S (S n))) with (k :: seq (S k) (S n)).
    rewrite map_cons.
    change (chain m (block_at (Z.of_nat k))
              (block_at (Z.of_nat k)
               :: map (fun i => block_at (Z.of_nat i)) (seq (S k) (S n))))
      with (block_at (Z.of_nat k) = block_at (Z.of_nat k)
            /\ block_at (Z.of_nat k) <> NULL
            /\ chain m (get_next m (block_at (Z.of_nat k)))
                 (map (fun i => block_at (Z.of_nat i)) (seq (S k) (S n)))).
    split; [reflexivity|]. split; [apply Hnz|].
    rewrite Hnext by lia.
    replace (Z.of_nat k + 1) with (Z.of_nat (S k)) by lia.
    apply IH. lia.
Qed.

Lemma all_blocks_spec a :
  0 <= BLOCK_COUNT -> (In a all_blocks <-> is_block a).
Proof.
  intros Hc. unfold FS.all_blocks, FS.is_block. rewrite in_map_iff. split.
  - intros (i & <- & Hin). apply in_seq in Hin.
    exists (Z.of_nat i). split; [lia | reflexivity].
  - intros (i & Hi & ->). exists (Z.to_nat i).
    split; [f_equal; lia | apply in_seq; lia].
Qed.

Lemma all_blocks_NoDup : 0 < BLOCK_SIZE -> NoDup all_blocks.
Proof.
  intros Hpos. unfold FS.all_blocks.
  generalize (Z.to_nat BLOCK_COUNT), 0%nat.
  induction n as [|n IH]; intros k; simpl; constructor.
  - rewrite in_map_iff. intros (i & E & Hin). apply in_seq in Hin.
    unfold FS.block_at in E. nia.
  - apply IH.
Qed.

Lemma init_spec st0 :
  fst (fs_init_allocator st0) = 0 ->
  free_blocks (snd (fs_init_allocator st0)) all_blocks
  /\ out (snd (fs_init_allocator st0)) = out st0.
Proof using pool_low pool_high.
  intros Hok. apply init_accepts in Hok. destruct Hok as (Hbs & Hrem & Hcount).
  assert (block_size : sizeof_FreeBlock <= BLOCK_SIZE) by lia.
  unfold FS.fs_init_allocator, FS.POOL_SIZE.
  replace ((BLOCK_SIZE * BLOCK_COUNT <? BLOCK_SIZE)
           || (BLOCK_SIZE <=? 0) || (BLOCK_COUNT <? 0)
           || negb (Z.rem BLOCK_SIZE 8 =? 0)
           || (BLOCK_SIZE <=? sizeof_FreeBlock)) with false.
  2:{ symmetry. unfold sizeof_FreeBlock in *.
      destruct (Z.ltb_spec (BLOCK_SIZE * BLOCK_COUNT) BLOCK_SIZE); [nia|].
      destruct (Z.leb_spec BLOCK_SIZE 0); [lia|].
      destruct (Z.ltb_spec BLOCK_COUNT 0); [lia|].
      destruct (Z.eqb_spec (Z.rem BLOCK_SIZE 8) 0); [|contradiction].
      destruct (Z.leb_spec BLOCK_SIZE 16); [lia | reflexivity]. }
  simpl mem. simpl free_list. simpl out.
  destruct (link_blocks_spec block_size (Z.to_nat (BLOCK_COUNT - 1)) 0 (mem st0))
    as (m' & E & Hlinks & Hframe); [lia | lia |].
  replace (0 + Z.of_nat (Z.to_nat (BLOCK_COUNT - 1))) with (BLOCK_COUNT - 1)
    in * by lia.
  change (block_at 0) with (memory_pool + BLOCK_SIZE * 0) in E.
  replace (memory_pool + BLOCK_SIZE * 0) with memory_pool in E by lia.
  rewrite E. simpl. split; [|reflexivity].
  set (last := block_at (BLOCK_COUNT - 1)) in *.
  set (m := set_next (set_used m' last 0) last NULL).
  assert (Hlast : 0 < last /\ last + 16 <= 2 ^ 64).
  { subst last. unfold FS.block_at, sizeof_FreeBlock, SIZE_MODULUS in *. nia. }
  assert (Hfields : forall j, 0 <= j < BLOCK_COUNT ->
            get_used m (block_at j) = 0
            /\ get_next m (block_at j)
               = if j =? BLOCK_COUNT - 1 then NULL else block_at (j + 1)).
  { intros j Hj. destruct (Z.eqb_spec j (BLOCK_COUNT - 1)) as [->|Hne].
    - fold last. subst m. split; fs_mem; reflexivity.
    - assert (Hapart : block_at j + 16 <= last).
      { subst last. unfold sizeof_FreeBlock in *.
        pose proof (block_at_apart memory_pool BLOCK_SIZE block_size j
                      (BLOCK_COUNT - 1)). unfold sizeof_FreeBlock in *. lia. }
      destruct (Hlinks j) as (Hu & Hn); [lia|].
      subst m. split; fs_mem; assumption. }
  unfold FS.free_blocks. simpl. conj_split.
  - assert (Hc : chain m (block_at (Z.of_nat 0))
                   (map (fun i => block_at (Z.of_nat i))
                      (seq 0 (S (Z.to_nat (BLOCK_COUNT - 1)))))).
    { apply chain_of_blocks.
      + unfold sizeof_FreeBlock in *. lia.
      + intros j Hj. destruct (Hfields j) as (_ & ->); [lia|].
        destruct (Z.eqb_spec j (BLOCK_COUNT - 1)); [lia | reflexivity].
      + destruct (Hfields (BLOCK_COUNT - 1)) as (_ & ->); [lia|].
        rewrite Z.eqb_refl. reflexivity.
      + lia. }
    replace (block_at (Z.of_nat 0)) with memory_pool in Hc
      by (unfold FS.block_at; simpl; lia).
    replace (S (Z.to_nat (BLOCK_COUNT - 1))) with (Z.to_nat BLOCK_COUNT)
      in Hc by lia.
    exact Hc.
  - apply all_blocks_NoDup. unfold sizeof_FreeBlock in *. lia.
  - intros a Ha. apply all_blocks_spec; [lia | exact Ha].
  - intros a Ha. left. split; [apply all_blocks_spec; [lia | exact Ha]|].
    destruct Ha as (j & Hj & ->). apply Hfields. exact Hj.
Qed.

Lemma reachable_valid st :
  reachable st -> sizeof_FreeBlock <= BLOCK_SIZE /\ 0 <= BLOCK_COUNT.
Proof.
  induction 1 as [st0 Hok| |]; auto.
  apply init_accepts in Hok. lia.
Qed.

Lemma reachable_free_blocks st :
  reachable st -> exists fl, free_blocks st fl.
Proof using pool_low pool_high.
  intros Hreach. pose proof (reachable_valid st Hreach) as (Hbs & _).
  induction Hreach as [st0 Hok|st size _ IH|st ptr _ IH].
  - exists all_blocks. apply init_spec. exact Hok.
  - destruct IH as (fl & Hfl).
    exact (fs_malloc_keeps memory_pool BLOCK_SIZE BLOCK_COUNT
             pool_low pool_high Hbs st fl size Hfl).
  - destruct IH as (fl & Hfl).
    exact (fs_free_keeps memory_pool BLOCK_SIZE BLOCK_COUNT
             pool_low pool_high Hbs st fl ptr Hfl).
Qed.

Lemma dump_memory_free_blocks st fl :
  0 <= BLOCK_COUNT ->
  free_blocks st fl ->
  dump_memory st
  = map (fun a => (a, BLOCK_SIZE, if in_dec Z.eq_dec a fl then 0 else 1))
        all_blocks.
Proof.
  intros Hc (_ & _ & _ & Hused).
  unfold FS.dump_memory, FS.all_blocks. rewrite map_map.
  apply map_ext_in. intros i Hi. apply in_seq in Hi.
  fold (block_at (Z.of_nat i)).
  assert (Hb : is_block (block_at (Z.of_nat i))).
  { exists (Z.of_nat i). split; [lia | reflexivity]. }
  destruct (Hused _ Hb) as [(Hin & ->)|(Hnin & ->)];
    destruct (in_dec Z.eq_dec (block_at (Z.of_nat i)) fl);
    try contradiction; reflexivity.
Qed.

Lemma fs_malloc_run_app n : forall k st size,
  fs_malloc_run (n + k) st size
  = let '(p1, st1) := fs_malloc_run n st size in
    let '(p2, st2) := fs_malloc_run k st1 size in
    (p1 ++ p2, st2).
Proof.
  induction n as [|n IH]; intros k st size.
  - simpl. destruct (fs_malloc_run k st size). reflexivity.
  - simpl. destruct (fs_malloc st size) as [p st1].
    rewrite IH. destruct (fs_malloc_run n st1 size) as [p1 st2].
    destruct (fs_malloc_run k st2 size) as [p2 st3]. reflexivity.
Qed.

Lemma all_blocks_length : length all_blocks = Z.to_nat BLOCK_COUNT.
Proof. unfold FS.all_blocks. rewrite length_map, length_seq. reflexivity. Qed.


(** X15.  [fs_init_allocator] returns 0 exactly when [BLOCK_SIZE] is
    larger than [sizeof(FreeBlock)] and a multiple of 8 and
    [BLOCK_COUNT] is at least 1.  Otherwise it returns 1, prints its
    three lines and writes nothing to memory; [free_list] is then the
    base of the pool all the same. *)
Theorem fs_init_allocator_checks_configuration st0 :
  (fst (fs_init_allocator st0) = 0
   <-> sizeof_FreeBlock < BLOCK_SIZE /\ Z.rem BLOCK_SIZE 8 = 0
       /\ 1 <= BLOCK_COUNT)
  /\ (fst (fs_init_allocator st0) <> 0 ->
      fst (fs_init_allocator st0) = 1
      /\ mem (snd (fs_init_allocator st0)) = mem st0
      /\ free_list (snd (fs_init_allocator st0)) = memory_pool
      /\ out (snd (fs_init_allocator st0))
         = out st0 ++ [Invalid_pool_size; Block_size_must_be_aligned_to_8;
                       Block_size_must_be_at_least sizeof_FreeBlock]).
Proof.
  split; [apply init_accepts|].
  unfold FS.fs_init_allocator.
  destruct ((FS.POOL_SIZE BLOCK_SIZE BLOCK_COUNT <? BLOCK_SIZE)
            || (BLOCK_SIZE <=? 0) || (BLOCK_COUNT <? 0)
            || negb (Z.rem BLOCK_SIZE 8 =? 0)
            || (BLOCK_SIZE <=? sizeof_FreeBlock)).
  - intros _. simpl. conj_split; try reflexivity.
    rewrite <- !app_assoc. reflexivity.
  - destruct (link_blocks _ _ _ _ _ _) as [m curr]. simpl.
    intros H. exfalso. apply H. reflexivity.
Qed.

(** X16.  When [fs_init_allocator] returns 0, the free list runs through
    all the blocks of the pool in address order, every block is marked
    free, and nothing has been printed. *)
Theorem fs_init_allocator_links_all_blocks st0 :
  fst (fs_init_allocator st0) = 0 ->
  free_blocks (snd (fs_init_allocator st0)) all_blocks
  /\ free_list (snd (fs_init_allocator st0)) = memory_pool
  /\ out (snd (fs_init_allocator st0)) = out st0
  /\ dump_memory (snd (fs_init_allocator st0))
     = map (fun a => (a, BLOCK_SIZE, 0)) all_blocks.
Proof using pool_low pool_high.
  intros Hok. destruct (init_spec st0 Hok) as (Hfl & Hout).
  pose proof (proj1 (init_accepts st0) Hok) as (_ & _ & Hcount).
  conj_split.
  - exact Hfl.
  - unfold FS.fs_init_allocator.
    destruct (_ || _ || _ || _ || _); [reflexivity|].
    destruct (link_blocks _ _ _ _ _ _) as [m curr]. reflexivity.
  - exact Hout.
  - rewrite (dump_memory_free_blocks _ all_blocks) by (lia || exact Hfl).
    apply map_ext_in. intros a Ha.
    destruct (in_dec Z.eq_dec a all_blocks); [reflexivity | contradiction].
Qed.

(** X17.  After a successful [fs_init_allocator], [BLOCK_COUNT] calls of
    [fs_malloc] with a size of at most [BLOCK_SIZE] return the blocks of
    the pool in address order, and the call after them returns [NULL]
    and prints [Out_of_memory]; every block is then marked used. *)
Theorem fs_malloc_until_exhausted st0 size :
  fst (fs_init_allocator st0) = 0 -> size <= BLOCK_SIZE ->
  exists st1,
    fs_malloc_run (S (Z.to_nat BLOCK_COUNT)) (snd (fs_init_allocator st0)) size
      = (all_blocks ++ [NULL], st1)
    /\ out st1 = out st0 ++ [Out_of_memory]
    /\ free_list st1 = NULL
    /\ dump_memory st1 = map (fun a => (a, BLOCK_SIZE, 1)) all_blocks.
Proof using pool_low pool_high.
  intros Hok Hsize. destruct (init_spec st0 Hok) as (Hfl & Hout).
  pose proof (proj1 (init_accepts st0) Hok) as (Hbs & _ & Hcount).
  assert (block_size : sizeof_FreeBlock <= BLOCK_SIZE) by lia.
  rewrite <- (app_nil_r all_blocks) in Hfl.
  destruct (fs_malloc_run_pops memory_pool BLOCK_SIZE BLOCK_COUNT
              pool_low pool_high block_size all_blocks _ [] size Hfl Hsize)
    as (st1 & E & H1 & Hout1).
  rewrite all_blocks_length in E.
  exists (say st1 Out_of_memory).
  replace (S (Z.to_nat BLOCK_COUNT)) with (Z.to_nat BLOCK_COUNT + 1)%nat by lia.
  rewrite fs_malloc_run_app, E. simpl.
  rewrite (fs_malloc_empty memory_pool BLOCK_SIZE BLOCK_COUNT st1 size H1).
  conj_split.
  - reflexivity.
  - simpl. congruence.
  - simpl. destruct H1 as (Hchain & _). exact Hchain.
  - rewrite (dump_memory_free_blocks (say st1 Out_of_memory) [])
      by (lia || exact H1).
    reflexivity.
Qed.

(** X18.  Whatever sizes are requested and whatever pointers are passed
    to [fs_free], after a successful [fs_init_allocator] the free list
    stays a chain that ends in [NULL], holds no block twice, and holds
    exactly the blocks of the pool that are marked free; the other
    blocks are marked 1. *)
Theorem free_list_is_kept st :
  reachable st -> exists fl, free_blocks st fl.
Proof using pool_low pool_high.
  apply reachable_free_blocks.
Qed.

(** X19.  In every state reached after a successful
    [fs_init_allocator], a [fs_malloc] that does not return
    [NULL] returns a block of the pool that was marked free, marks it
    used and leaves the flag of every other block. *)
Theorem fs_malloc_grants_a_free_block st size :
  reachable st ->
  fst (fs_malloc st size) <> NULL ->
  is_block (fst (fs_malloc st size))
  /\ get_used (mem st) (fst (fs_malloc st size)) = 0
  /\ get_used (mem (snd (fs_malloc st size))) (fst (fs_malloc st size)) = 1
  /\ (forall a, is_block a -> a <> fst (fs_malloc st size) ->
        get_used (mem (snd (fs_malloc st size))) a = get_used (mem st) a).
Proof using pool_low pool_high.
  intros Hreach Hptr.
  pose proof (reachable_valid st Hreach) as (block_size & _).
  destruct (reachable_free_blocks st Hreach) as ([|b fl] & Hfl).
  { rewrite (fs_malloc_empty memory_pool BLOCK_SIZE BLOCK_COUNT st size Hfl) in Hptr.
    exfalso. apply Hptr. reflexivity. }
  destruct (Z.le_gt_cases size BLOCK_SIZE) as [Hle|Hgt].
  2:{ rewrite (fs_malloc_too_large memory_pool BLOCK_SIZE BLOCK_COUNT st b fl size Hfl) in Hptr by lia.
      exfalso. apply Hptr. reflexivity. }
  destruct (fs_malloc_pop memory_pool BLOCK_SIZE BLOCK_COUNT
              pool_low pool_high block_size st b fl size Hfl Hle)
    as (st' & E & Hfl' & _).
  rewrite E. simpl.
  destruct Hfl as (_ & Hnd & Hblk & Hused).
  destruct Hfl' as (_ & _ & _ & Hused').
  apply NoDup_cons_iff in Hnd. destruct Hnd as (Hnotin & _).
  pose proof (Hblk b (or_introl eq_refl)) as Hb.
  conj_split.
  - exact Hb.
  - destruct (Hused b Hb) as [(_ & H0)|(Hnin & _)]; [exact H0|].
    exfalso. apply Hnin. left. reflexivity.
  - destruct (Hused' b Hb) as [(Hin & _)|(_ & H1)]; [contradiction | exact H1].
  - intros a Ha Hab.
    destruct (Hused a Ha) as [([Heq|Hin] & H0)|(Hnin & H1)];
      destruct (Hused' a Ha) as [(Hin' & H0')|(Hnin' & H1')];
      try congruence; try contradiction.
    exfalso. apply Hnin. right. exact Hin'.
Qed.

(** X20.  After a successful [fs_init_allocator] and [BLOCK_COUNT]
    calls of [fs_malloc], the blocks can be released in any order:
    [fs_free] prints nothing, the free list is the releases in reverse,
    and [dump_memory] shows every block free. *)
Theorem every_release_order_frees_the_pool st0 size :
  fst (fs_init_allocator st0) = 0 -> size <= BLOCK_SIZE ->
  exists st1,
    fs_malloc_run (Z.to_nat BLOCK_COUNT) (snd (fs_init_allocator st0)) size
      = (all_blocks, st1)
    /\ forall order, Permutation order all_blocks ->
         free_blocks (fs_free_all st1 order) (rev order)
         /\ out (fs_free_all st1 order) = out st0
         /\ dump_memory (fs_free_all st1 order)
            = map (fun a => (a, BLOCK_SIZE, 0)) all_blocks.
Proof using pool_low pool_high.
  intros Hok Hsize. destruct (init_spec st0 Hok) as (Hfl & Hout).
  pose proof (proj1 (init_accepts st0) Hok) as (Hbs & _ & Hcount).
  assert (block_size : sizeof_FreeBlock <= BLOCK_SIZE) by lia.
  assert (Hnd : NoDup all_blocks).
  { apply all_blocks_NoDup. unfold sizeof_FreeBlock in *. lia. }
  rewrite <- (app_nil_r all_blocks) in Hfl.
  destruct (fs_malloc_run_pops memory_pool BLOCK_SIZE BLOCK_COUNT
              pool_low pool_high block_size all_blocks _ [] size Hfl Hsize)
    as (st1 & E & H1 & Hout1).
  rewrite all_blocks_length in E.
  exists st1. split; [exact E|].
  intros order Hperm.
  destruct (fs_free_all_pushes memory_pool BLOCK_SIZE BLOCK_COUNT
              pool_low pool_high block_size order st1 [] H1) as (H2 & Hout2).
  { eapply Permutation_NoDup; [apply Permutation_sym; exact Hperm | exact Hnd]. }
  { intros p Hp. split; [|intros []].
    apply all_blocks_spec; [lia|].
    eapply Permutation_in; [exact Hperm | exact Hp]. }
  rewrite app_nil_r in H2.
  conj_split.
  - exact H2.
  - congruence.
  - rewrite (dump_memory_free_blocks _ (rev order)) by (lia || exact H2).
    apply map_ext_in. intros a Ha.
    destruct (in_dec Z.eq_dec a (rev order)) as [|Hnin]; [reflexivity|].
    exfalso. apply Hnin. apply in_rev. rewrite rev_involutive.
    eapply Permutation_in; [apply Permutation_sym; exact Hperm | exact Ha].
Qed.

(** *** The second listing's [fs_init_allocator] *)

Local Abbreviation fs_init_allocator_second :=
  (FS.fs_init_allocator_second memory_pool BLOCK_SIZE BLOCK_COUNT).

Lemma link_blocks_next_spec (block_size : sizeof_FreeBlock <= BLOCK_SIZE) n :
  forall i m,
    0 <= i -> i + Z.of_nat n < BLOCK_COUNT ->
    exists m',
      link_blocks_next memory_pool BLOCK_SIZE n i m (block_at i)
        = (m', block_at (i + Z.of_nat n))
      /\ (forall j, i <= j < i + Z.of_nat n ->
            get_next m' (block_at j) = block_at (j + 1))
      /\ (forall x,
            (forall j, i <= j < i + Z.of_nat n ->
               x < block_at j + 8 \/ block_at j + sizeof_FreeBlock <= x) ->
            m' x = m x).
Proof using pool_low pool_high.
  induction n as [|n IH]; intros i m Hi Hn.
  - exists m. simpl. replace (i + 0) with i by lia.
    split; [reflexivity|]. split; [intros; lia | auto].
  - assert (Hfit : 0 < block_at i /\ block_at (i + 1) + 16 <= 2 ^ 64
                   /\ block_at (i + 1) = block_at i + BLOCK_SIZE).
    { unfold FS.block_at, sizeof_FreeBlock, SIZE_MODULUS in *. nia. }
    destruct Hfit as (Hlo & Hhi & Hstep).
    assert (Hmono : forall j, i + 1 <= j -> block_at i + 16 <= block_at j).
    { intros j Hj. unfold FS.block_at, sizeof_FreeBlock in *. nia. }
    unfold sizeof_FreeBlock in *.
    simpl link_blocks_next.
    change (memory_pool + BLOCK_SIZE * (i + 1)) with (block_at (i + 1)).
    replace (get_next (set_next m (block_at i) (block_at (i + 1)))
               (block_at i))
      with (block_at (i + 1)) by (fs_goal; reflexivity).
    destruct (IH (i + 1) (set_next m (block_at i) (block_at (i + 1))))
      as (m' & E & Hlinks & Hframe); [lia | lia |].
    replace (i + 1 + Z.of_nat n) with (i + Z.of_nat (S n)) in * by lia.
    exists m'. split; [exact E|]. split.
    + intros j Hj. destruct (Z.eq_dec j i) as [->|Hji].
      * unfold get_next.
        rewrite (load_frame 8 (set_next m (block_at i) (block_at (i + 1)))
                   m' (block_at i + 8)).
        -- fs_goal. reflexivity.
        -- intros x Hx. apply Hframe. intros j Hj'.
           pose proof (Hmono j ltac:(lia)). lia.
      * apply Hlinks. lia.
    + intros x Hx. rewrite Hframe.
      * unfold set_next. apply store_outside.
        specialize (Hx i ltac:(lia)). simpl. lia.
      * intros j Hj. apply Hx. lia.
Qed.

(** X23.  The second listing's [fs_init_allocator], called with
    [free_list] at the base of the pool and constants that it accepts,
    links all the blocks of the pool in address order and prints
    nothing, but it clears the [used] flag of the last block only: the
    flag of every other block is what memory held before the call.  The
    free list is the one of the first listing when these flags were 0. *)
Theorem second_listing_init_clears_last_flag_only st0 :
  free_list st0 = memory_pool ->
  sizeof_FreeBlock <= BLOCK_SIZE -> Z.rem BLOCK_SIZE 8 = 0 ->
  1 <= BLOCK_COUNT ->
  chain (mem (fs_init_allocator_second st0))
    (free_list (fs_init_allocator_second st0)) all_blocks
  /\ free_list (fs_init_allocator_second st0) = memory_pool
  /\ out (fs_init_allocator_second st0) = out st0
  /\ get_used (mem (fs_init_allocator_second st0))
       (block_at (BLOCK_COUNT - 1)) = 0
  /\ (forall j, 0 <= j < BLOCK_COUNT - 1 ->
        get_used (mem (fs_init_allocator_second st0)) (block_at j)
        = get_used (mem st0) (block_at j))
  /\ ((forall j, 0 <= j < BLOCK_COUNT - 1 ->
         get_used (mem st0) (block_at j) = 0) ->
      free_blocks (fs_init_allocator_second st0) all_blocks).
Proof using pool_low pool_high.
  intros Hhead block_size Hrem Hcount.
  unfold FS.fs_init_allocator_second, FS.POOL_SIZE.
  replace (negb (Z.rem (BLOCK_SIZE * BLOCK_COUNT) BLOCK_SIZE =? 0)
           || (BLOCK_SIZE * BLOCK_COUNT <? BLOCK_SIZE)
           || (BLOCK_SIZE <=? 0) || (BLOCK_COUNT <=? 0)
           || negb (Z.rem BLOCK_SIZE 8 =? 0)) with false.
  2:{ symmetry. unfold sizeof_FreeBlock in *.
      rewrite Z.mul_comm, Z.rem_mul by lia. simpl.
      destruct (Z.ltb_spec (BLOCK_COUNT * BLOCK_SIZE) BLOCK_SIZE); [nia|].
      destruct (Z.leb_spec BLOCK_SIZE 0); [lia|].
      destruct (Z.leb_spec BLOCK_COUNT 0); [lia|].
      destruct (Z.eqb_spec (Z.rem BLOCK_SIZE 8) 0);
        [reflexivity | contradiction]. }
  rewrite Hhead.
  destruct (link_blocks_next_spec block_size (Z.to_nat (BLOCK_COUNT - 1)) 0
              (mem st0))
    as (m' & E & Hlinks & Hframe); [lia | lia |].
  replace (0 + Z.of_nat (Z.to_nat (BLOCK_COUNT - 1))) with (BLOCK_COUNT - 1)
    in * by lia.
  change (block_at 0) with (memory_pool + BLOCK_SIZE * 0) in E.
  replace (memory_pool + BLOCK_SIZE * 0) with memory_pool in E by lia.
  rewrite E. cbn [mem free_list out].
  set (last := block_at (BLOCK_COUNT - 1)) in *.
  set (m := set_next (set_used m' last 0) last NULL).
  assert (Hlast : 0 < last /\ last + 16 <= 2 ^ 64).
  { subst last. unfold FS.block_at, sizeof_FreeBlock, SIZE_MODULUS in *. nia. }
  assert (Hapart : forall j k, j < k -> block_at j + 16 <= block_at k).
  { intros j k Hjk.
    pose proof (block_at_apart memory_pool BLOCK_SIZE block_size j k Hjk).
    unfold sizeof_FreeBlock in *. lia. }
  assert (Hnext : forall j, 0 <= j < BLOCK_COUNT ->
            get_next m (block_at j)
            = if j =? BLOCK_COUNT - 1 then NULL else block_at (j + 1)).
  { intros j Hj. destruct (Z.eqb_spec j (BLOCK_COUNT - 1)) as [->|Hne].
    - fold last. subst m. fs_mem. reflexivity.
    - pose proof (Hapart j (BLOCK_COUNT - 1) ltac:(lia)). fold last in H.
      pose proof (Hlinks j ltac:(lia)) as Hn.
      subst m. fs_mem. assumption. }
  assert (Hlastflag : get_used m last = 0).
  { subst m. fs_mem. reflexivity. }
  assert (Hflags : forall j, 0 <= j < BLOCK_COUNT - 1 ->
            get_used m (block_at j) = get_used (mem st0) (block_at j)).
  { intros j Hj.
    pose proof (Hapart j (BLOCK_COUNT - 1) ltac:(lia)) as Hjl. fold last in Hjl.
    transitivity (get_used m' (block_at j)).
    - subst m. fs_mem. reflexivity.
    - unfold get_used. apply load_frame. intros x Hx. simpl in Hx.
      apply Hframe. intros k Hk. unfold sizeof_FreeBlock.
      destruct (Z.lt_trichotomy k j) as [Hlt|[->|Hgt]].
      + pose proof (Hapart k j Hlt). lia.
      + lia.
      + pose proof (Hapart j k Hgt). lia. }
  assert (Hchain : chain m memory_pool all_blocks).
  { assert (Hc : chain m (block_at (Z.of_nat 0))
                   (map (fun i => block_at (Z.of_nat i))
                      (seq 0 (S (Z.to_nat (BLOCK_COUNT - 1)))))).
    { apply chain_of_blocks.
      + unfold sizeof_FreeBlock in *. lia.
      + intros j Hj. rewrite Hnext by lia.
        destruct (Z.eqb_spec j (BLOCK_COUNT - 1)); [lia | reflexivity].
      + rewrite Hnext by lia. rewrite Z.eqb_refl. reflexivity.
      + lia. }
    replace (block_at (Z.of_nat 0)) with memory_pool in Hc
      by (unfold FS.block_at; simpl; lia).
    replace (S (Z.to_nat (BLOCK_COUNT - 1))) with (Z.to_nat BLOCK_COUNT)
      in Hc by lia.
    exact Hc. }
  conj_split; auto.
  intros Hzero. unfold FS.free_blocks. cbn [mem free_list]. conj_split.
  - exact Hchain.
  - apply all_blocks_NoDup. unfold sizeof_FreeBlock in *. lia.
  - intros a Ha. apply all_blocks_spec; [lia | exact Ha].
  - intros a Ha. left. split; [apply all_blocks_spec; [lia | exact Ha]|].
    destruct Ha as (j & Hj & ->).
    destruct (Z.eq_dec j (BLOCK_COUNT - 1)) as [->|Hne]; [exact Hlastflag|].
    rewrite Hflags by lia. apply Hzero. lia.
Qed.

End FromInit.

Section Calls.

Variable memory_pool : Z.
Variables BLOCK_SIZE BLOCK_COUNT : Z.

(** X21.  A block that [fs_free] has just released is the head of the
    free list, and releasing it again prints [Block_already_free] and
    changes nothing else. *)
Theorem fs_free_detects_double_free st ptr :
  invalid_pointer memory_pool BLOCK_SIZE BLOCK_COUNT ptr = false ->
  get_used (mem st) ptr <> 0 ->
  free_list (fs_free memory_pool BLOCK_SIZE BLOCK_COUNT st ptr) = ptr
  /\ fs_free memory_pool BLOCK_SIZE BLOCK_COUNT
       (fs_free memory_pool BLOCK_SIZE BLOCK_COUNT st ptr) ptr
     = say (fs_free memory_pool BLOCK_SIZE BLOCK_COUNT st ptr)
         Block_already_free.
Proof.
  intros Hvalid Hused.
  assert (E : fs_free memory_pool BLOCK_SIZE BLOCK_COUNT st ptr
              = {| mem := set_next (set_used (mem st) ptr 0) ptr (free_list st);
                   free_list := ptr; out := out st |}).
  { unfold fs_free. rewrite Hvalid.
    destruct (Z.eqb_spec (get_used (mem st) ptr) 0); [contradiction | reflexivity]. }
  rewrite E. split; [reflexivity|].
  unfold fs_free. rewrite Hvalid. cbn [mem].
  replace (get_used (set_next (set_used (mem st) ptr 0) ptr (free_list st)) ptr)
    with 0 by (fs_goal; reflexivity).
  reflexivity.
Qed.


End Calls.

(** *** The properties at the pool of the first listing *)

Lemma fs_malloc_run_state BLOCK_SIZE n : forall st size,
  snd (fs_malloc_run BLOCK_SIZE n st size) = fs_malloc_times BLOCK_SIZE n st size.
Proof.
  induction n as [|n IH]; intros st size; [reflexivity|].
  simpl. destruct (fs_malloc BLOCK_SIZE st size) as [p st1] eqn:E.
  specialize (IH st1 size).
  destruct (fs_malloc_run BLOCK_SIZE n st1 size) as [ps st2].
  simpl in *. exact IH.
Qed.

Lemma fs_pool_fits : 4096 + 32 * 8 <= SIZE_MODULUS.
Proof. unfold SIZE_MODULUS. lia. Qed.

Lemma two_taken_free_blocks :
  free_blocks 4096 32 8 two_taken [4160; 4192; 4224; 4256; 4288; 4320].
Proof.
  destruct (init_spec 4096 32 8 eq_refl fs_pool_fits blank) as (Hfl & _);
    [vm_compute; reflexivity|].
  change (all_blocks 4096 32 8)
    with ([4096; 4128] ++ [4160; 4192; 4224; 4256; 4288; 4320]) in Hfl.
  destruct (fs_malloc_run_pops 4096 32 8 eq_refl fs_pool_fits
              ltac:(unfold sizeof_FreeBlock; lia)
              [4096; 4128] _ _ 8 Hfl ltac:(lia)) as (st' & E & H & _).
  unfold two_taken. rewrite <- fs_malloc_run_state.
  simpl length in E. rewrite E. exact H.
Qed.

Ltac by_evaluation :=
  vm_compute;
  first [ reflexivity | discriminate | (intro; discriminate)
        | (split; by_evaluation) ].

Lemma fs_init_allocator_links_all_blocks_witness :
  free_blocks 4096 32 8 (snd (fs_init_allocator 4096 32 8 blank))
    (all_blocks 4096 32 8)
  /\ free_list (snd (fs_init_allocator 4096 32 8 blank)) = 4096
  /\ out (snd (fs_init_allocator 4096 32 8 blank)) = out blank
  /\ dump_memory 4096 32 8 (snd (fs_init_allocator 4096 32 8 blank))
     = map (fun a => (a, 32, 0)) (all_blocks 4096 32 8).
Proof.
  apply (fs_init_allocator_links_all_blocks 4096 32 8 eq_refl fs_pool_fits blank).
  vm_compute. reflexivity.
Defined.

Lemma fs_malloc_until_exhausted_witness :
  exists st1,
    fs_malloc_run 32 (S (Z.to_nat 8)) (snd (fs_init_allocator 4096 32 8 blank)) 8
      = (all_blocks 4096 32 8 ++ [NULL], st1)
    /\ out st1 = out blank ++ [Out_of_memory]
    /\ free_list st1 = NULL
    /\ dump_memory 4096 32 8 st1
       = map (fun a => (a, 32, 1)) (all_blocks 4096 32 8).
Proof.
  apply (fs_malloc_until_exhausted 4096 32 8 eq_refl fs_pool_fits blank 8).
  - vm_compute. reflexivity.
  - lia.
Defined.

Lemma two_taken_reachable : reachable 4096 32 8 two_taken.
Proof.
  change two_taken
    with (snd (fs_malloc 32
                 (snd (fs_malloc 32 (snd (fs_init_allocator 4096 32 8 blank)) 8))
                 8)).
  apply reach_malloc. apply reach_malloc. apply reach_init.
  vm_compute. reflexivity.
Qed.

Lemma free_list_is_kept_witness :
  exists fl, free_blocks 4096 32 8 two_taken fl.
Proof.
  apply (free_list_is_kept 4096 32 8 eq_refl fs_pool_fits two_taken).
  apply two_taken_reachable.
Defined.

Lemma fs_malloc_grants_a_free_block_witness :
  is_block 4096 32 8 (fst (fs_malloc 32 two_taken 8))
  /\ get_used (mem two_taken) (fst (fs_malloc 32 two_taken 8)) = 0
  /\ get_used (mem (snd (fs_malloc 32 two_taken 8)))
       (fst (fs_malloc 32 two_taken 8)) = 1
  /\ (forall a, is_block 4096 32 8 a -> a <> fst (fs_malloc 32 two_taken 8) ->
        get_used (mem (snd (fs_malloc 32 two_taken 8))) a
        = get_used (mem two_taken) a).
Proof.
  apply (fs_malloc_grants_a_free_block 4096 32 8 eq_refl fs_pool_fits two_taken 8).
  - apply two_taken_reachable.
  - by_evaluation.
Defined.

Lemma released_blocks_come_back_in_reverse_order_witness :
  out (fs_free_all 4096 32 8 two_taken [4096; 4128]) = out two_taken
  /\ exists st',
       fs_malloc_run 32 (length [4096; 4128])
         (fs_free_all 4096 32 8 two_taken [4096; 4128]) 8
         = (rev [4096; 4128], st')
       /\ free_blocks 4096 32 8 st' [4160; 4192; 4224; 4256; 4288; 4320].
Proof.
  apply (released_blocks_come_back_in_reverse_order 4096 32 8 eq_refl fs_pool_fits
           ltac:(unfold sizeof_FreeBlock; lia) two_taken).
  - apply two_taken_free_blocks.
  - repeat constructor; simpl; intuition discriminate.
  - intros p [<-|[<-|[]]].
    + split; [exists 0; split; [lia | reflexivity] | by_evaluation].
    + split; [exists 1; split; [lia | reflexivity] | by_evaluation].
  - lia.
Defined.

Lemma every_release_order_frees_the_pool_witness :
  exists st1,
    fs_malloc_run 32 (Z.to_nat 8) (snd (fs_init_allocator 4096 32 8 blank)) 8
      = (all_blocks 4096 32 8, st1)
    /\ forall order, Permutation order (all_blocks 4096 32 8) ->
         free_blocks 4096 32 8 (fs_free_all 4096 32 8 st1 order) (rev order)
         /\ out (fs_free_all 4096 32 8 st1 order) = out blank
         /\ dump_memory 4096 32 8 (fs_free_all 4096 32 8 st1 order)
            = map (fun a => (a, 32, 0)) (all_blocks 4096 32 8).
Proof.
  apply (every_release_order_frees_the_pool 4096 32 8 eq_refl fs_pool_fits blank 8).
  - vm_compute. reflexivity.
  - lia.
Defined.

Lemma fs_free_detects_double_free_witness :
  free_list (fs_free 4096 32 8 two_taken 4128) = 4128
  /\ fs_free 4096 32 8 (fs_free 4096 32 8 two_taken 4128) 4128
     = say (fs_free 4096 32 8 two_taken 4128) Block_already_free.
Proof.
  apply (fs_free_detects_double_free 4096 32 8 two_taken 4128).
  - reflexivity.
  - by_evaluation.
Defined.

Lemma second_pool_fits : 4096 + 16 * 3 <= SIZE_MODULUS.
Proof. unfold SIZE_MODULUS. lia. Qed.

Lemma second_listing_init_clears_last_flag_only_witness :
  chain (mem (fs_init_allocator_second 4096 16 3 static_start))
    (free_list (fs_init_allocator_second 4096 16 3 static_start))
    (all_blocks 4096 16 3)
  /\ free_list (fs_init_allocator_second 4096 16 3 static_start) = 4096
  /\ out (fs_init_allocator_second 4096 16 3 static_start) = out static_start
  /\ get_used (mem (fs_init_allocator_second 4096 16 3 static_start))
       (block_at 4096 16 (3 - 1)) = 0
  /\ (forall j, 0 <= j < 3 - 1 ->
        get_used (mem (fs_init_allocator_second 4096 16 3 static_start))
          (block_at 4096 16 j)
        = get_used (mem static_start) (block_at 4096 16 j))
  /\ ((forall j, 0 <= j < 3 - 1 ->
         get_used (mem static_start) (block_at 4096 16 j) = 0) ->
      free_blocks 4096 16 3 (fs_init_allocator_second 4096 16 3 static_start)
        (all_blocks 4096 16 3)).
Proof.
  apply (second_listing_init_clears_last_flag_only 4096 16 3 eq_refl
           second_pool_fits static_start).
  - reflexivity.
  - unfold sizeof_FreeBlock. lia.
  - reflexivity.
  - lia.
Defined.

End FSFacts.
